(** * sc2bankrecover: bank reconstruction, bank rendering and replay sessions

    A shallow embedding of the Go sources

    - [bank.go] (package [bankrecover], banks keyed by player index),
    - the slot-keyed revision of [bank.go] (banks keyed by lobby slot),
    - [repm/rep.go] (session construction, [newRep] and [Close]),
    - [repm/trackerevts.go] (preprocessing of the tracker events, with
      [angleToClock] and [calcSQ] in [float64]),

    together with the parts of the collaborating libraries that the code
    calls: decoded events of [s2prot] and the element tree of [etree]. *)

From Stdlib Require Import ZArith String Ascii List Bool Lia HexadecimalString.
From Stdlib Require QArith Floats.
From stdpp Require Import base option list strings gmap pretty.

Set Warnings "-register-all".

Local Open Scope Z_scope.
Local Open Scope string_scope.

(** ** Outcomes of Go code: a value, or a runtime panic *)

Inductive PanicKind :=
| IndexOutOfRange
| NilDereference.

Inductive Outcome (A : Type) :=
| Done (a : A)
| Panic (why : PanicKind).

Arguments Done {A} a.
Arguments Panic {A} why.

Definition obind {A B} (c : Outcome A) (k : A -> Outcome B) : Outcome B :=
  match c with
  | Done a => k a
  | Panic why => Panic why
  end.

Declare Scope go_scope.
Delimit Scope go_scope with go.
Notation "x <~ c ;; k" := (obind c (fun x => k))
  (at level 100, c at next level, right associativity) : go_scope.

Definition completes {A} (c : Outcome A) : Prop :=
  match c with Done _ => True | Panic _ => False end.

#[global] Instance completes_dec {A} (c : Outcome A) : Decision (completes c).
Proof. destruct c; simpl; apply _. Defined.

(** Indexing a slice with an [int64]: Go panics outside [0, len). *)
Definition index {A} (l : list A) (i : Z) : Outcome A :=
  if (i <? 0)%Z then Panic IndexOutOfRange
  else match l !! Z.to_nat i with
       | Some x => Done x
       | None => Panic IndexOutOfRange
       end.

(** ** s2prot: decoded structures and events

    [s2prot.Struct] is a [map[string]interface{}]; the dynamic values the
    decoder produces are integers, strings, arrays and nested structures.
    The accessors return the zero value when the path is absent or holds a
    value of another dynamic type. *)
Module s2prot.

Inductive Val :=
| VInt (n : Z)
| VStr (s : string)
| VArr (vs : list Val)
| VStruct (fs : list (string * Val)).

Definition Struct := list (string * Val).

Fixpoint get (s : Struct) (k : string) : option Val :=
  match s with
  | [] => None
  | (k', v) :: s' => if decide (k' = k) then Some v else get s' k
  end.

(** [Struct.Value(path...)]: [nil] for an empty or invalid path. *)
Fixpoint Value (s : Struct) (path : list string) : option Val :=
  match path with
  | [] => None
  | k :: rest =>
      match rest with
      | [] => get s k
      | _ => match get s k with
             | Some (VStruct s') => Value s' rest
             | _ => None
             end
      end
  end.

Definition Int (s : Struct) (path : list string) : Z :=
  match Value s path with Some (VInt n) => n | _ => 0 end.

Definition Stringv (s : Struct) (path : list string) : string :=
  match Value s path with Some (VStr x) => x | _ => "" end.

Definition Array (s : Struct) (path : list string) : list Val :=
  match Value s path with Some (VArr vs) => vs | _ => [] end.

(** An event is a structure together with its event type. *)
Record Event := {
  EvtTypeName : string;
  fields : Struct;
}.

Definition Loop (e : Event) : Z := Int (fields e) ["loop"].
Definition UserID (e : Event) : Z := Int (fields e) ["userid"; "userId"].

End s2prot.

Import s2prot.

(** ** NNet event protocol types regarding bank *)

Definition EvtTypeBankFile := "BankFile".
Definition EvtTypeBankSection := "BankSection".
Definition EvtTypeBankKey := "BankKey".
Definition EvtTypeBankValue := "BankValue".
Definition EvtTypeBankSignature := "BankSignature".

Definition isBankEvent (gameEvent : Event) : bool :=
  existsb (fun bankEvt => bool_decide (EvtTypeName gameEvent = bankEvt))
    [EvtTypeBankFile; EvtTypeBankSection; EvtTypeBankKey;
     EvtTypeBankValue; EvtTypeBankSignature].

(** A bank-content event: every bank event except [BankFile]. *)
Definition isContentEvent (e : Event) : bool :=
  existsb (fun bankEvt => bool_decide (EvtTypeName e = bankEvt))
    [EvtTypeBankSection; EvtTypeBankKey; EvtTypeBankValue;
     EvtTypeBankSignature].

(** ** The parts of a replay that bank recovery reads *)

(** [rep.Player]: the details entry of a player; [Toon] is the printed form
    of the player's toon. *)
Record Player := {
  PlayerName : string;
  Toon : string;
}.

(** [rep.Slot]: a lobby slot, a structure with accessors. *)
Record Slot := { slotStruct : Struct }.

Definition ToonHandle (s : Slot) : string := Stringv (slotStruct s) ["toonHandle"].
Definition SlotUserID (s : Slot) : Z := Int (slotStruct s) ["userId"].

(** [repm.Rep] as seen from package [bankrecover]. The header and details
    fields are kept in the printed form [fmt.Sprint] gives them. *)
Record Rep := {
  Title : string;
  VersionString : string;
  Loops : Z;
  Duration : string;
  Players : list Player;
  Slots : list Slot;
  GameEvts : list Event;
}.

(** ** Banks

    [Bank] represents a bank of a player: the replay it comes from, its file
    name, its owner and the bank events in stream order, the [BankFile]
    event first. The owner is a [rep.Player] in [bank.go] and a lobby slot
    with its player in the slot-keyed revision. *)
Record Bank (O : Type) := {
  r : Rep;
  Name : string;
  Owner : O;
  GameEvents : list Event;
}.

Arguments r {O} _.
Arguments Name {O} _.
Arguments Owner {O} _.
Arguments GameEvents {O} _.

(** [NewBank] is a constructor. Returns [nil] upon error. *)
Definition NewBank {O} (rp : Rep) (evtBankFile : Event) (owner : O)
  : option (Bank O) :=
  if decide (EvtTypeName evtBankFile = EvtTypeBankFile) then
    Some {| r := rp;
            Name := Stringv (fields evtBankFile) ["name"];
            Owner := owner;
            GameEvents := [evtBankFile] |}
  else None.

Inductive error := errInvalidBankEvent.

(** [AddGameEvent] accepts all bank events except for the [BankFile]
    event. The bank is updated in place; the result is the bank after the
    call and the error returned. *)
Definition AddGameEvent {O} (bank : Bank O) (evtBankContent : Event)
  : Bank O * option error :=
  if isContentEvent evtBankContent then
    ({| r := r bank; Name := Name bank; Owner := Owner bank;
        GameEvents := GameEvents bank ++ [evtBankContent] |}, None)
  else (bank, Some errInvalidBankEvent).

(** The name carried by the last [BankFile] event of a stream, whoever sent
    it; [curr] when there is none. *)
Definition lastFileName (evts : list Event) (curr : string) : string :=
  foldl (fun name evt =>
           if decide (EvtTypeName evt = EvtTypeBankFile)
           then Stringv (fields evt) ["name"] else name) curr evts.

(** The name carried by the last [BankFile] event that user [uid] sent. *)
Definition userFileName (evts : list Event) (uid : Z) : option string :=
  foldl (fun name evt =>
           if decide (EvtTypeName evt = EvtTypeBankFile /\ UserID evt = uid)
           then Some (Stringv (fields evt) ["name"]) else name) None evts.

Definition atLoop0 (evt : Event) : Prop := (Loop evt <= 0)%Z.

#[global] Instance atLoop0_dec evt : Decision (atLoop0 evt).
Proof. unfold atLoop0. apply _. Defined.

(** The bank with one more event at the end of its list. *)
Definition appended {O} (bank : Bank O) (evt : Event) : Bank O :=
  {| r := r bank; Name := Name bank; Owner := Owner bank;
     GameEvents := GameEvents bank ++ [evt] |}.

(** *** Collecting the bank events of a replay

    The two revisions of [NewBanksFromReplay] run the same loop and differ
    in the bucket an event is filed under and in the owner a new bank gets:
    [bucketOf] is the index into the slice of maps, [ownerOf] evaluates the
    owner argument of [NewBank]. A map entry is a [*Bank]; [None] is [nil]. *)
Section Collect.
Context {O : Type}.
Variable rp : Rep.
Variable bucketOf : Event -> Z.
Variable ownerOf : Event -> Outcome O.

Record Collected := {
  banks : list (gmap string (option (Bank O)));
  bankNameCurr : string;
}.

Definition setBank (st : Collected) (i : Z) (name : string)
    (b : option (Bank O)) (bucket : gmap string (option (Bank O)))
    (curr : string) : Collected :=
  {| banks := <[Z.to_nat i := <[name := b]> bucket]> (banks st);
     bankNameCurr := curr |}.

(** The body of the loop for a bank event at loop 0. *)
Definition route (st : Collected) (evt : Event) : Outcome Collected :=
  if decide (EvtTypeName evt = EvtTypeBankFile) then
    let name := Stringv (fields evt) ["name"] in
    (owner <~ ownerOf evt ;;
     bucket <~ index (banks st) (bucketOf evt) ;;
     Done (setBank st (bucketOf evt) name (NewBank rp evt owner) bucket name))%go
  else
    (bucket <~ index (banks st) (bucketOf evt) ;;
     match bucket !! bankNameCurr st with
     | Some (Some bank) =>
         Done (setBank st (bucketOf evt) (bankNameCurr st)
                 (Some (fst (AddGameEvent bank evt))) bucket (bankNameCurr st))
     | _ => Done st
     end)%go.

Fixpoint collect (evts : list Event) (st : Collected) : Outcome Collected :=
  match evts with
  | [] => Done st
  | evt :: rest =>
      if (0 <? Loop evt)%Z then Done st
      else if negb (isBankEvent evt) then collect rest st
      else (st' <~ route st evt ;; collect rest st')%go
  end.

(** [n] empty maps and no current bank name. *)
Definition start (n : nat) : Collected :=
  {| banks := replicate n ∅; bankNameCurr := "" |}.

Definition finish (c : Outcome Collected)
  : Outcome (list (gmap string (option (Bank O)))) :=
  (st <~ c ;; Done (banks st))%go.

Definition collectAll (n : nat) : Outcome (list (gmap string (option (Bank O)))) :=
  finish (collect (GameEvts rp) (start n)).

(** What [route] does with a content event whose bucket exists. *)
Definition filed (st : Collected) (evt : Event)
    (bucket : gmap string (option (Bank O))) : Collected :=
  match bucket !! bankNameCurr st with
  | Some (Some bank) =>
      setBank st (bucketOf evt) (bankNameCurr st) (Some (appended bank evt))
        bucket (bankNameCurr st)
  | _ => st
  end.

End Collect.

Arguments Collected O : clear implicits.
Arguments start {O} n.
Arguments finish {O} c.
Arguments filed {O} bucketOf st evt bucket.
Arguments banks {O} _.
Arguments bankNameCurr {O} _.

(** ** etree: the element tree the bank is rendered into

    A document is an element whose children are the top-level tokens. The
    code holds pointers into the tree ([root], [eCurrSection], [eCurrKey]);
    children are only ever appended, so a pointer is modelled by the path of
    child indices from the document. A pointer may also be [nil], or point
    to an element that was created without a parent and is therefore not
    part of the document. *)
Module etree.

Inductive Token :=
| Comment (data : string)
| ProcInst (target inst : string)
| Element (tag : string) (attr : list (string * string)) (child : list Token).

Inductive Ptr :=
| nilPtr
| detached
| at_ (path : list nat).

(** What creating a child of a [nil] element does is decided inside etree,
    whose source is not part of the repository: either the call
    dereferences the receiver and panics, or (a constructor that links the
    child only to a non-nil parent) it returns an element that belongs to no
    document. Both readings are carried along. *)
Inductive NilParent :=
| NilParentPanics
| NilParentDetaches.

Definition children (t : Token) : list Token :=
  match t with
  | Element _ _ c => c
  | _ => []
  end.

Definition onChildren (f : list Token -> list Token) (t : Token) : Token :=
  match t with
  | Element tag a c => Element tag a (f c)
  | _ => t
  end.

Definition onAttr (f : list (string * string) -> list (string * string))
    (t : Token) : Token :=
  match t with
  | Element tag a c => Element tag (f a) c
  | _ => t
  end.

Fixpoint alterAt (path : list nat) (f : Token -> Token) (t : Token) : Token :=
  match path with
  | [] => f t
  | i :: rest => onChildren (alter (alterAt rest f) i) t
  end.

Fixpoint lookupAt (path : list nat) (t : Token) : option Token :=
  match path with
  | [] => Some t
  | i :: rest =>
      match children t !! i with
      | Some c => lookupAt rest c
      | None => None
      end
  end.

Definition addChild (c : Token) : Token -> Token :=
  onChildren (fun cs => (cs ++ [c])%list).

(** Number of children of the element a path leads to. *)
Definition arity (path : list nat) (doc : Token) : nat :=
  match lookupAt path doc with
  | Some t => length (children t)
  | None => 0%nat
  end.

(** Appends a fresh token under the element [e] points to and returns the
    pointer to it. *)
Definition create (np : NilParent) (c : Token) (e : Ptr) (doc : Token)
  : Outcome (Token * Ptr) :=
  match e with
  | nilPtr =>
      match np with
      | NilParentPanics => Panic NilDereference
      | NilParentDetaches => Done (doc, detached)
      end
  | detached => Done (doc, detached)
  | at_ path => Done (alterAt path (addChild c) doc, at_ (path ++ [arity path doc])%list)
  end.

Definition CreateElement (np : NilParent) (tag : string) (e : Ptr) (doc : Token)
  : Outcome (Token * Ptr) :=
  create np (Element tag [] []) e doc.

Definition CreateComment (np : NilParent) (comment : string) (e : Ptr) (doc : Token)
  : Outcome (Token * Ptr) :=
  create np (Comment comment) e doc.

Definition CreateProcInst (np : NilParent) (target inst : string) (e : Ptr) (doc : Token)
  : Outcome (Token * Ptr) :=
  create np (ProcInst target inst) e doc.

(** [CreateAttr] overwrites the value of an attribute with the same key and
    appends the attribute otherwise. It reads the attribute list of its
    receiver. *)
Fixpoint setAttr (key value : string) (a : list (string * string))
  : list (string * string) :=
  match a with
  | [] => [(key, value)]
  | (k, v) :: rest =>
      if decide (k = key) then (k, value) :: rest
      else (k, v) :: setAttr key value rest
  end.

Definition CreateAttr (key value : string) (e : Ptr) (doc : Token) : Outcome Token :=
  match e with
  | nilPtr => Panic NilDereference
  | detached => Done doc
  | at_ path => Done (alterAt path (onAttr (setAttr key value)) doc)
  end.

Definition NewDocument : Token := Element "" [] [].

(** *** Writing a document, indented by two spaces per level *)

Definition dquote : string := String "034"%char "".
Definition newline : string := String "010"%char "".

Definition escapeChar (c : ascii) : string :=
  if decide (c = "&"%char) then "&amp;"
  else if decide (c = "<"%char) then "&lt;"
  else if decide (c = ">"%char) then "&gt;"
  else if decide (c = "'"%char) then "&apos;"
  else if decide (c = "034"%char) then "&quot;"
  else String c "".

Fixpoint escapeString (s : string) : string :=
  match s with
  | EmptyString => ""
  | String c rest => escapeChar c +:+ escapeString rest
  end.

Fixpoint joinAll (l : list string) : string :=
  match l with
  | [] => ""
  | x :: rest => x +:+ joinAll rest
  end.

Definition writeAttr (a : string * string) : string :=
  " " +:+ fst a +:+ "=" +:+ dquote +:+ escapeString (snd a) +:+ dquote.

Fixpoint spaces (n : nat) : string :=
  match n with
  | O => ""
  | S n' => " " +:+ spaces n'
  end.

Fixpoint writeToken (depth : nat) (t : Token) : string :=
  spaces (2 * depth) +:+
  match t with
  | Comment data => "<!--" +:+ data +:+ "-->"
  | ProcInst target inst => "<?" +:+ target +:+ " " +:+ inst +:+ "?>"
  | Element tag a c =>
      let open := "<" +:+ tag +:+ joinAll (map writeAttr a) in
      match c with
      | [] => open +:+ "/>"
      | _ => open +:+ ">" +:+ newline
             +:+ joinAll (map (writeToken (S depth)) c)
             +:+ spaces (2 * depth) +:+ "</" +:+ tag +:+ ">"
      end
  end +:+ newline.

(** [doc.Indent(2)] followed by [doc.WriteTo(w)]. *)
Definition write (doc : Token) : string :=
  joinAll (map (writeToken 0) (children doc)).

End etree.

Import etree.

(** ** Rendering a bank: [WriteTo] *)

(** [fmt]'s verb [%02X]. Signature entries are decoded as integers: upper
    case hexadecimal, at least two characters wide, the sign counted in the
    width. For the other dynamic types only the shape of what [fmt] prints
    is kept. *)
Definition upperHex (c : ascii) : ascii :=
  let n := nat_of_ascii c in
  if (97 <=? n)%nat && (n <=? 102)%nat then ascii_of_nat (n - 32) else c.

Fixpoint mapString (f : ascii -> ascii) (s : string) : string :=
  match s with
  | EmptyString => EmptyString
  | String c rest => String (f c) (mapString f rest)
  end.

Definition hexUpper (n : N) : string :=
  mapString upperHex (NilZero.string_of_uint (N.to_hex_uint n)).

Definition padLeft0 (width : nat) (s : string) : string :=
  joinAll (replicate (width - String.length s) "0") +:+ s.

Fixpoint fmt02X (v : Val) : string :=
  match v with
  | VInt n =>
      if (n <? 0)%Z then "-" +:+ padLeft0 1 (hexUpper (Z.to_N (- n)))
      else padLeft0 2 (hexUpper (Z.to_N n))
  | VStr x =>
      joinAll (map (fun c => padLeft0 2 (hexUpper (N_of_ascii c)))
                 (list_ascii_of_string x))
  | VArr vs => "[" +:+ String.concat " " (map fmt02X vs) +:+ "]"
  | VStruct fs => "map[" +:+ String.concat " " (map (fun kv => fst kv +:+ ":" +:+ fmt02X (snd kv)) fs) +:+ "]"
  end.

Definition signatureHex (signature : list Val) : string :=
  joinAll (map fmt02X signature).

(** The names of the value kinds, indexed by the type code of a value. *)
Definition valueKinds : list string :=
  ["fixed"; "flag"; "int"; "string"; "point"; "unit"; "text"].

(** The pointer [root]: the [Bank] element is the second top-level token,
    after the processing instruction. *)
Definition root : Ptr := at_ [1%nat].

Section Render.
Variable np : NilParent.
(** The tag of a value element: ["Value"] in [bank.go], the name carried by
    the event in the slot-keyed revision. *)
Variable valueTag : Event -> string.

Record Cursor := {
  doc : Token;
  eCurrSection : Ptr;
  eCurrKey : Ptr;
}.

(** [case EvtTypeBankValue], also reached from [case EvtTypeBankKey]. *)
Definition renderValue (c : Cursor) (evt : Event) : Outcome Cursor :=
  let nType := Int (fields evt) ["type"] in
  if decide (nType = 7) then Done c (* value will be in the next message *)
  else
    (de <~ CreateElement np (valueTag evt) (eCurrKey c) (doc c) ;;
     kind <~ index valueKinds nType ;;
     d <~ CreateAttr kind (Stringv (fields evt) ["data"]) (snd de) (fst de) ;;
     Done {| doc := d; eCurrSection := eCurrSection c; eCurrKey := eCurrKey c |})%go.

(** The body of the loop of [WriteTo]. *)
Definition renderEvent (c : Cursor) (evt : Event) : Outcome Cursor :=
  if decide (EvtTypeName evt = EvtTypeBankSection) then
    (de <~ CreateElement np "Section" root (doc c) ;;
     d <~ CreateAttr "name" (Stringv (fields evt) ["name"]) (snd de) (fst de) ;;
     Done {| doc := d; eCurrSection := snd de; eCurrKey := eCurrKey c |})%go
  else if decide (EvtTypeName evt = EvtTypeBankKey) then
    (de <~ CreateElement np "Key" (eCurrSection c) (doc c) ;;
     d <~ CreateAttr "name" (Stringv (fields evt) ["name"]) (snd de) (fst de) ;;
     let c' := {| doc := d; eCurrSection := eCurrSection c; eCurrKey := snd de |} in
     match Value (fields evt) ["type"] with
     | None => Done c'
     | Some _ => renderValue c' evt
     end)%go
  else if decide (EvtTypeName evt = EvtTypeBankValue) then
    renderValue c evt
  else if decide (EvtTypeName evt = EvtTypeBankSignature) then
    (de <~ CreateElement np "Signature" root (doc c) ;;
     d <~ (if (0 <? length (Array (fields evt) ["signature"]))%nat
           then CreateAttr "value" (signatureHex (Array (fields evt) ["signature"]))
                  (snd de) (fst de)
           else Done (fst de)) ;;
     Done {| doc := d; eCurrSection := snd de; eCurrKey := eCurrKey c |})%go
  else Done c.

Fixpoint renderEvents (c : Cursor) (evts : list Event) : Outcome Cursor :=
  match evts with
  | [] => Done c
  | evt :: rest => (c' <~ renderEvent c evt ;; renderEvents c' rest)%go
  end.

(** The calls of [WriteTo] before the loop: a new document, the processing
    instruction, the [Bank] element and its comments. [now] is the printed
    reading of the clock, [owner] the printed owner. The result is the
    document and the pointer [root]. *)
Definition openDocument (rp : Rep) (now owner : string) : Outcome (Token * Ptr) :=
  (d <~ CreateProcInst np "xml"
          ("version=" +:+ dquote +:+ "1.0" +:+ dquote +:+ " encoding="
           +:+ dquote +:+ "UTF-8" +:+ dquote) (at_ []) NewDocument ;;
   dr <~ CreateElement np "Bank" (at_ []) (fst d) ;;
   d <~ CreateAttr "version" "1" (snd dr) (fst dr) ;;
   d <~ CreateComment np "Bank recovered from a replay" (snd dr) d ;;
   d <~ CreateComment np now (snd dr) (fst d) ;;
   d <~ CreateComment np ("Title: " +:+ Title rp) (snd dr) (fst d) ;;
   d <~ CreateComment np ("Version: " +:+ VersionString rp) (snd dr) (fst d) ;;
   d <~ CreateComment np ("Loops: " +:+ pretty (Loops rp)) (snd dr) (fst d) ;;
   d <~ CreateComment np ("Length: " +:+ Duration rp) (snd dr) (fst d) ;;
   d <~ CreateComment np ("Player: " +:+ owner) (snd dr) (fst d) ;;
   Done (fst d, snd dr))%go.

(** The document these calls build ([openDocument_header] below). *)
Definition header (rp : Rep) (now owner : string) : Token :=
  Element "" []
    [ProcInst "xml" ("version=" +:+ dquote +:+ "1.0" +:+ dquote +:+ " encoding="
                     +:+ dquote +:+ "UTF-8" +:+ dquote);
     Element "Bank" [("version", "1")]
       [Comment "Bank recovered from a replay";
        Comment now;
        Comment ("Title: " +:+ Title rp);
        Comment ("Version: " +:+ VersionString rp);
        Comment ("Loops: " +:+ pretty (Loops rp));
        Comment ("Length: " +:+ Duration rp);
        Comment ("Player: " +:+ owner)]].

(** The tree [WriteTo] builds. *)
Definition render (rp : Rep) (now owner : string) (evts : list Event)
  : Outcome Token :=
  (c <~ renderEvents {| doc := header rp now owner;
                        eCurrSection := nilPtr; eCurrKey := nilPtr |} evts ;;
   Done (doc c))%go.

(** [WriteTo] writes out the bank to a writer: the bytes the writer
    receives. *)
Definition writeBank (rp : Rep) (now owner : string) (evts : list Event)
  : Outcome string :=
  (d <~ render rp now owner evts ;; Done (write d))%go.

End Render.

(** *** [bank.go]: banks keyed by player index *)
Module ByPlayer.

Definition bucketOf (evt : Event) : Z := UserID evt.

Definition ownerOf (rp : Rep) (evt : Event) : Outcome Player :=
  index (Players rp) (UserID evt).

(** [NewBanksFromReplay] returns all banks of all players in a replay:
    [ret[iPlayer][strBankName]]. *)
Definition NewBanksFromReplay (rp : Rep)
  : Outcome (list (gmap string (option (Bank Player)))) :=
  collectAll rp bucketOf (ownerOf rp) (length (Players rp)).

(** [WriteTo] writes out the bank; [now] is what [time.Now()] prints. *)
Definition WriteTo (np : NilParent) (now : string) (bank : Bank Player)
  : Outcome string :=
  writeBank np (fun _ => "Value") (r bank) now (Toon (Owner bank)) (GameEvents bank).

End ByPlayer.

(** *** Slot-keyed revision: banks keyed by lobby slot *)
Module BySlot.

Record PlayerSlot := {
  slot : Slot;
  slotIndex : Z;
}.

Definition zeroSlot : Slot := {| slotStruct := [] |}.
Definition zeroPlayer : Player := {| PlayerName := ""; Toon := "" |}.
Definition zeroPlayerSlot : PlayerSlot := {| slot := zeroSlot; slotIndex := 0 |}.

Fixpoint playersByToon (players : list Player) (ret : gmap string Player)
  : gmap string Player :=
  match players with
  | [] => ret
  | player :: rest =>
      playersByToon rest
        (if decide (Toon player = "") then ret else <[Toon player := player]> ret)
  end.

Definition findPlayerByToonHandle (rp : Rep) : gmap string Player :=
  playersByToon (Players rp) ∅.

Fixpoint slotsByUserID (slots : list Slot) (iSlot : Z) (ret : gmap Z PlayerSlot)
  : gmap Z PlayerSlot :=
  match slots with
  | [] => ret
  | s :: rest =>
      slotsByUserID rest (iSlot + 1)
        (if decide (ToonHandle s = "") then ret
         else <[SlotUserID s := {| slot := s; slotIndex := iSlot |}]> ret)
  end.

Definition findSlotByUserID (rp : Rep) : gmap Z PlayerSlot :=
  slotsByUserID (Slots rp) 0 ∅.

(** [findSlotByUserID[evt.UserID()]]: the zero value when absent. *)
Definition slotOf (rp : Rep) (evt : Event) : PlayerSlot :=
  default zeroPlayerSlot (findSlotByUserID rp !! UserID evt).

Definition bucketOf (rp : Rep) (evt : Event) : Z := slotIndex (slotOf rp evt).

Definition ownerOf (rp : Rep) (evt : Event) : Outcome (Slot * Player) :=
  Done (slot (slotOf rp evt),
        default zeroPlayer (findPlayerByToonHandle rp !! ToonHandle (slot (slotOf rp evt)))).

Definition UserSlot (b : Bank (Slot * Player)) : Slot := fst (Owner b).

Definition NewBanksFromReplay (rp : Rep)
  : Outcome (list (gmap string (option (Bank (Slot * Player))))) :=
  collectAll rp (bucketOf rp) (ownerOf rp) (length (Slots rp)).

(** [WriteTo] writes out the bank; [now] is what [time.Now()] prints. *)
Definition WriteTo (np : NilParent) (now : string) (bank : Bank (Slot * Player))
  : Outcome string :=
  writeBank np (fun evt => Stringv (fields evt) ["name"]) (r bank) now
    (ToonHandle (UserSlot bank)) (GameEvents bank).

End BySlot.



(** No [BankFile] event of the stream is filed into bucket [i]. *)
Definition noFileFor (bucketOf : Event -> Z) (i : Z) (evts : list Event) : Prop :=
  Forall (fun evt => EvtTypeName evt = EvtTypeBankFile -> bucketOf evt <> i) evts.

(** The type code of a value-bearing event: [evt.Int("type")]. *)
Definition typeCode (evt : Event) : Z := Int (fields evt) ["type"].

(** A document in the shape [WriteTo] keeps it in: the processing
    instruction, then the [Bank] element, whose second child is the comment
    that holds the reading of the clock. *)
Definition stamped (pi c0 : Token) (a : list (string * string))
    (body : list Token) (now : string) : Token :=
  Element "" [] [pi; Element "Bank" a (c0 :: Comment now :: body)].

(** What is written before and after the reading of the clock. *)
Definition beforeClock (pi c0 : Token) (a : list (string * string)) : string :=
  writeToken 0 pi +:+ spaces (2 * 0) +:+ "<" +:+ "Bank"
  +:+ joinAll (map writeAttr a) +:+ ">" +:+ newline
  +:+ writeToken 1 c0 +:+ spaces (2 * 1).

Definition afterClock (body : list Token) : string :=
  newline +:+ joinAll (map (writeToken 1) body)
  +:+ spaces (2 * 0) +:+ "</" +:+ "Bank" +:+ ">" +:+ newline +:+ "".

(** A pointer that is [nil], detached, or below a child of the [Bank]
    element other than its first two. *)
Definition belowBody (p : Ptr) : Prop :=
  match p with
  | nilPtr | detached => True
  | at_ (1%nat :: S (S _) :: _) => True
  | at_ _ => False
  end.

(** Two cursors that differ in the reading of the clock only. *)
Definition sameButClock (now1 now2 : string) (c1 c2 : Cursor) : Prop :=
  exists pi c0 a body,
    doc c1 = stamped pi c0 a body now1 /\
    doc c2 = stamped pi c0 a body now2 /\
    eCurrSection c1 = eCurrSection c2 /\
    eCurrKey c1 = eCurrKey c2 /\
    belowBody (eCurrSection c1) /\
    belowBody (eCurrKey c1).

(** Two outcomes that are both the same panic, or cursors that differ in
    the reading of the clock only. *)
Definition aligned (now1 now2 : string) (o1 o2 : Outcome Cursor) : Prop :=
  match o1, o2 with
  | Done c1, Done c2 => sameButClock now1 now2 c1 c2
  | Panic w1, Panic w2 => w1 = w2
  | _, _ => False
  end.

(** A value-bearing event: a [BankValue], or a [BankKey] with an inline
    type. It writes a value unless its type code is 7. *)
Definition isValueBearing (evt : Event) : Prop :=
  EvtTypeName evt = EvtTypeBankValue \/
  (EvtTypeName evt = EvtTypeBankKey /\ Value (fields evt) ["type"] <> None).

Definition writesValue (evt : Event) : Prop :=
  isValueBearing evt /\ typeCode evt <> 7%Z.

Definition isSection (evt : Event) : Prop := EvtTypeName evt = EvtTypeBankSection.
Definition isKey (evt : Event) : Prop := EvtTypeName evt = EvtTypeBankKey.
Definition isValue (evt : Event) : Prop := EvtTypeName evt = EvtTypeBankValue.

(** [BankSection] and [BankSignature] events both assign [eCurrSection]. *)
Definition opensSection (evt : Event) : Prop :=
  EvtTypeName evt = EvtTypeBankSection \/ EvtTypeName evt = EvtTypeBankSignature.

(** A standalone value that is written: a [BankValue] of a type other than 7. *)
Definition isWrittenValue (evt : Event) : Prop :=
  EvtTypeName evt = EvtTypeBankValue /\ typeCode evt <> 7%Z.

(** In the stored order, every [Q] event is preceded by some [P] event. *)
Definition precededBy (P Q : Event -> Prop) (evts : list Event) : Prop :=
  forall pre evt post,
    evts = (pre ++ evt :: post)%list -> Q evt -> Exists P pre.

(** The same for the rest of a stream: [b] tells that a [P] event was seen
    before it. *)
Definition precededByOr (b : Prop) (P Q : Event -> Prop) (evts : list Event) : Prop :=
  forall pre evt post,
    evts = (pre ++ evt :: post)%list -> Q evt -> b \/ Exists P pre.

Definition typeCodesWithin (top : Z) (affected : Event -> Prop)
    (evts : list Event) : Prop :=
  Forall (fun evt => affected evt -> (0 <= typeCode evt <= top)%Z) evts.

(** The preconditions under which, after the specification, [WriteTo] is
    total. *)
Definition statedPreconditions (evts : list Event) : Prop :=
  precededBy isSection isKey evts /\
  precededBy isKey isValue evts /\
  typeCodesWithin 7 isValueBearing evts.

(** The conditions one event puts on the pointers and on its type code. *)
Definition faultFree (np : NilParent) (sec key : Ptr) (evt : Event) : Prop :=
  (np = NilParentPanics -> isKey evt -> sec <> nilPtr) /\
  (np = NilParentPanics -> isWrittenValue evt -> key <> nilPtr) /\
  (writesValue evt -> (0 <= typeCode evt <= 6)%Z).

(** ** Sample replays *)
Module Sample.

(** A bank event of user [uid] at loop 0. *)
Definition bankEvt (name : string) (uid : Z) (fs : Struct) : Event :=
  {| EvtTypeName := name;
     fields := ("userid", VStruct [("userId", VInt uid)]) :: ("loop", VInt 0) :: fs |}.

Definition players : list Player :=
  [{| PlayerName := "first"; Toon := "1-S2-1-100" |};
   {| PlayerName := "second"; Toon := "1-S2-1-200" |}].

Definition slots : list Slot :=
  [{| slotStruct := [("userId", VInt 0); ("toonHandle", VStr "1-S2-1-100")] |};
   {| slotStruct := [("userId", VInt 1); ("toonHandle", VStr "1-S2-1-200")] |}].

(** A replay of two players in two lobby slots with the given game events. *)
Definition replay (evts : list Event) : Rep :=
  {| Title := "Map"; VersionString := "4.10.1.75800"; Loops := 3000;
     Duration := "3m7s"; Players := players; Slots := slots; GameEvts := evts |}.

Definition fileA0 : Event := bankEvt EvtTypeBankFile 0 [("name", VStr "A")].
Definition fileB1 : Event := bankEvt EvtTypeBankFile 1 [("name", VStr "B")].
Definition section0 : Event := bankEvt EvtTypeBankSection 0 [("name", VStr "stats")].
Definition key0 : Event := bankEvt EvtTypeBankKey 0 [("name", VStr "wins")].
Definition deferred0 : Event :=
  bankEvt EvtTypeBankValue 0 [("type", VInt 7); ("name", VStr "Value")].
Definition int0 : Event :=
  bankEvt EvtTypeBankValue 0 [("type", VInt 2); ("name", VStr "Value"); ("data", VStr "5")].
Definition signature0 : Event :=
  bankEvt EvtTypeBankSignature 0 [("signature", VArr [VInt 1; VInt 171; VInt 255])].

(** A section event of a user who is neither a player nor in a lobby slot. *)
Definition section7 : Event := bankEvt EvtTypeBankSection 7 [("name", VStr "stats")].

(** The tag of value elements in [bank.go] and in the slot-keyed revision. *)
Definition tagValue (evt : Event) : string := "Value".
Definition tagName (evt : Event) : string := Stringv (fields evt) ["name"].

(** The tree of a bank with one section, one key and one integer value. *)
Definition smallTree (np : NilParent) (valueTag : Event -> string) : Outcome Token :=
  render np valueTag (replay []) "2020-02-02 20:20:20" "1-S2-1-100"
    [fileA0; section0; key0; int0].

(** An integer value sent by user 1. *)
Definition int1 : Event :=
  bankEvt EvtTypeBankValue 1 [("type", VInt 2); ("name", VStr "Value"); ("data", VStr "9")].

(** The stream of the specification's test of deferred values: a file, a
    key, a value of type 7 and the event that carries the value; and the same
    stream with the section that holds the key. *)
Definition deferredStream : list Event := [fileA0; key0; deferred0; int0].
Definition deferredInSection : list Event :=
  [fileA0; section0; key0; deferred0; int0].

Definition now : string := "2020-02-02 20:20:20".
Definition owner : string := "1-S2-1-100".

(** Banks of the first player with the given stored events. *)
Definition playerBank (evts : list Event) : Bank Player :=
  {| r := replay []; Name := "A";
     Owner := {| PlayerName := "first"; Toon := "1-S2-1-100" |};
     GameEvents := evts |}.

Definition slotBank (evts : list Event) : Bank (Slot * Player) :=
  {| r := replay []; Name := "A";
     Owner := ({| slotStruct := [("userId", VInt 0); ("toonHandle", VStr "1-S2-1-100")] |},
               {| PlayerName := "first"; Toon := "1-S2-1-100" |});
     GameEvents := evts |}.

Definition later : string := "2020-02-02 20:20:21".

(** A key that carries its value inline. *)
Definition keyInline0 : Event :=
  bankEvt EvtTypeBankKey 0 [("name", VStr "wins"); ("type", VInt 2); ("data", VStr "5")].

(** A cursor in a document with one section and one key, both current. *)
Definition cursorAtKey : Cursor :=
  {| doc := Element "" []
              [ProcInst "xml" "version";
               Element "Bank" [("version", "1")]
                 [Element "Section" [("name", "stats")]
                    [Element "Key" [("name", "wins")] []]]];
     eCurrSection := at_ [1; 0]%nat;
     eCurrKey := at_ [1; 0; 0]%nat |}.

(** The same replay with an empty lobby. *)
Definition replayNoSlots (evts : list Event) : Rep :=
  {| Title := "Map"; VersionString := "4.10.1.75800"; Loops := 3000;
     Duration := "3m7s"; Players := players; Slots := []; GameEvts := evts |}.

End Sample.

(** ** The statements of the specification that the code is compared with *)

(** Routing of content events by a current bank per user: a content event
    at loop 0 ends up last in the bank named by the latest [BankFile] event of
    its own user. *)
Definition routesToUserBank {O}
    (newBanks : Rep -> Outcome (list (gmap string (option (Bank O)))))
    (bucketOf : Rep -> Event -> Z) : Prop :=
  forall rp pre evt name,
    GameEvts rp = (pre ++ [evt])%list ->
    Forall atLoop0 (pre ++ [evt])%list ->
    isContentEvent evt = true ->
    userFileName pre (UserID evt) = Some name ->
    exists bs bucket bank,
      newBanks rp = Done bs /\
      index bs (bucketOf rp evt) = Done bucket /\
      bucket !! name = Some (Some bank) /\
      last (GameEvents bank) = Some evt.

(** ** Package repm: the replay session

    [newRep] reads and decodes the sections of the archive through the
    archive reader (mpq) and the protocol decoder (s2prot). Both are outside
    the repository; what a call to them does is given by an oracle: it
    returns a value or it faults (a runtime panic), since "the decoding
    implementation omits error checks for efficiency". *)
Module repm.

Inductive Call (A : Type) :=
| Returns (a : A)
| Faults.

Arguments Returns {A} a.
Arguments Faults {A}.

Inductive RepError :=
| ErrInvalidRepFile
| ErrUnsupportedRepVersion
| ErrDecoding.

Definition bytes := list Byte.byte.

(** What [m.FileByHash] returns: the data, [None] for [nil], and whether the
    error is non-nil. *)
Record FileResult := {
  data : option bytes;
  failed : bool;
}.

Definition len (data : option bytes) : nat :=
  match data with
  | Some b => length b
  | None => 0%nat
  end.

Inductive CloseError := errClose.

(** The archive handle [*mpq.MPQ]: what its methods return. [closeResult n]
    is what [Close] returns when it has been called [n] times before. *)
Record MPQ := {
  UserData : Call bytes;
  FileByHash : Z -> Z -> Z -> Call FileResult;
  closeResult : nat -> option CloseError;
}.

(** The state of the world that session construction acts on: how many
    times [Close] has been called on the archive handle. *)
Record World := { closes : nat }.

Definition closeMPQHandle (m : MPQ) (w : World) : option CloseError * World :=
  (closeResult m (closes w), {| closes := S (closes w) |}).

(** How the body of a function with results [R] is left: by a [return]
    statement or by a panic. *)
Inductive Exit (R : Type) :=
| Returned (res : R)
| Panicked.

Arguments Returned {R} res.
Arguments Panicked {R}.

(** A statement of the body goes on with a value, or leaves the body; the
    value of the local variable [closeMPQ] at that point is recorded. *)
Inductive Step (R A : Type) :=
| Go (a : A)
| Leave (closeMPQ : bool) (exit : Exit R).

Arguments Go {R A} a.
Arguments Leave {R A} closeMPQ exit.

Definition sbind {R A B} (c : Step R A) (k : A -> Step R B) : Step R B :=
  match c with
  | Go a => k a
  | Leave closeMPQ exit => Leave closeMPQ exit
  end.

(** A call to the archive reader or to the decoder while [closeMPQ] holds
    the given value. *)
Definition call {R A} (closeMPQ : bool) (c : Call A) : Step R A :=
  match c with
  | Returns a => Go a
  | Faults => Leave closeMPQ Panicked
  end.

Section Session.
(** The types the decoder hands back are kept abstract. *)
Context {ProtocolT DetailsT InitDataT AttrEvtsT MetadataT TrackerT : Type}.

(** The decoder, and [TrackerEvts.init], the preprocessing of the tracker
    events, which indexes the lobby slots by the slot ids found in the
    events and faults when an id is out of range. *)
Record Decoder := {
  DecodeHeader : bytes -> Call (option Struct);
  BaseBuild : Struct -> Z;
  GetProtocol : Z -> Call (option ProtocolT);
  MaxBaseBuild : Z;
  DecodeDetails : ProtocolT -> option bytes -> Call DetailsT;
  DecodeInitData : ProtocolT -> option bytes -> Call InitDataT;
  DecodeAttributesEvts : ProtocolT -> option bytes -> Call AttrEvtsT;
  Unmarshal : bytes -> Call (option MetadataT);
  DecodeGameEvts : ProtocolT -> option bytes -> Call (list Event * bool);
  DecodeMessageEvts : ProtocolT -> option bytes -> Call (list Event * bool);
  DecodeTrackerEvts : ProtocolT -> option bytes -> Call (list Event * bool);
  trackerInit : list Event -> InitDataT -> Call TrackerT;
}.

(** [Rep] describes a replay; a field that has not been assigned holds its
    zero value ([None], [[]], [false]). *)
Record Rep := {
  m : option MPQ;
  protocol : option ProtocolT;
  Header : option Struct;
  Details : option DetailsT;
  InitData : option InitDataT;
  AttrEvts : option AttrEvtsT;
  Metadata : option MetadataT;
  GameEvts : list Event;
  MessageEvts : list Event;
  TrackerEvts : option TrackerT;
  GameEvtsErr : bool;
  MessageEvtsErr : bool;
  TrackerEvtsErr : bool;
}.

(** The results [(parsedRep, errRes)] of [newRep]. *)
Definition Results : Type := option Rep * option RepError.

Definition ret {A} (closeMPQ : bool) (parsedRep : option Rep)
    (errRes : option RepError) : Step Results A :=
  Leave closeMPQ (Returned (parsedRep, errRes)).

Notation "x <- c ;; k" := (sbind c (fun x => k))
  (at level 100, c at next level, right associativity).

Variable d : Decoder.

(** Reads a section and its backup: [replay.details] and [replay.initData]
    fall back to the anonymized version. *)
Definition readWithBackup (closeMPQ : bool) (mpq : MPQ) (h b : Z * Z * Z)
  : Step Results (option bytes) :=
  f <- call closeMPQ (FileByHash mpq h.1.1 h.1.2 h.2) ;;
  if failed f || (len (data f) =? 0)%nat then
    f' <- call closeMPQ (FileByHash mpq b.1.1 b.1.2 b.2) ;;
    if failed f' || (len (data f') =? 0)%nat
    then ret closeMPQ None (Some ErrInvalidRepFile)
    else Go (data f')
  else Go (data f).

Definition readSection (closeMPQ : bool) (mpq : MPQ) (h : Z * Z * Z)
  : Step Results (option bytes) :=
  f <- call closeMPQ (FileByHash mpq h.1.1 h.1.2 h.2) ;;
  if failed f then ret closeMPQ None (Some ErrInvalidRepFile)
  else Go (data f).

(** The body of [newRep]. It always leaves by [return] or by a panic. *)
Definition newRepBody (mpq : MPQ) (game message tracker : bool)
  : Step Results Empty_set :=
  let closeMPQ := true in
  let rep := {| m := Some mpq; protocol := None; Header := None;
                Details := None; InitData := None; AttrEvts := None;
                Metadata := None; GameEvts := []; MessageEvts := [];
                TrackerEvts := None; GameEvtsErr := false;
                MessageEvtsErr := false; TrackerEvtsErr := false |} in
  userData <- call closeMPQ (UserData mpq) ;;
  header <- call closeMPQ (DecodeHeader d userData) ;;
  match header with
  | None => ret closeMPQ None (Some ErrInvalidRepFile)
  | Some h =>
  let bb := BaseBuild d h in
  p <- call closeMPQ (GetProtocol d bb) ;;
  p <- match p with
       | None => call closeMPQ (GetProtocol d (MaxBaseBuild d))
       | Some _ => Go p
       end ;;
  match p with
  | None => ret closeMPQ None (Some ErrUnsupportedRepVersion)
  | Some p =>
  bytes <- readWithBackup closeMPQ mpq
             (620083690, 3548627612, 4013960850)
             (1421087648, 3590964654, 3400061273) ;;
  details <- call closeMPQ (DecodeDetails d p bytes) ;;
  bytes <- readWithBackup closeMPQ mpq
             (3544165653, 1518242780, 4280631132)
             (868899905, 1282002788, 1614930827) ;;
  initData <- call closeMPQ (DecodeInitData d p bytes) ;;
  bytes <- readSection closeMPQ mpq (1306016990, 497594575, 2731474728) ;;
  attrEvts <- call closeMPQ (DecodeAttributesEvts d p bytes) ;;
  bytes <- readSection closeMPQ mpq (3675439372, 3912155403, 1108615308) ;;
  metadata <- match bytes with
              | Some b =>
                  md <- call closeMPQ (Unmarshal d b) ;;
                  match md with
                  | None => ret closeMPQ None (Some ErrInvalidRepFile)
                  | Some md => Go (Some md)
                  end
              | None => Go None
              end ;;
  gameEvts <- (if game then
                 bytes <- readSection closeMPQ mpq
                            (496563520, 2864883019, 4101385109) ;;
                 call closeMPQ (DecodeGameEvts d p bytes)
               else Go ([], false)) ;;
  messageEvts <- (if message then
                    bytes <- readSection closeMPQ mpq
                               (1089231967, 831857289, 1784674979) ;;
                    call closeMPQ (DecodeMessageEvts d p bytes)
                  else Go ([], false)) ;;
  trackerEvts <- (if tracker then
                    bytes <- readSection closeMPQ mpq
                               (1501940595, 4263103390, 1648390237) ;;
                    evts <- call closeMPQ (DecodeTrackerEvts d p bytes) ;;
                    t <- call closeMPQ (trackerInit d evts.1 initData) ;;
                    Go (Some t, evts.2)
                  else Go (None, false)) ;;
  let rep := {| m := Some mpq; protocol := Some p; Header := Some h;
                Details := Some details; InitData := Some initData;
                AttrEvts := Some attrEvts; Metadata := metadata;
                GameEvts := gameEvts.1; MessageEvts := messageEvts.1;
                TrackerEvts := trackerEvts.1; GameEvtsErr := gameEvts.2;
                MessageEvtsErr := messageEvts.2;
                TrackerEvtsErr := trackerEvts.2 |} in
  (* Everything went well, Rep is about to be returned, do not close MPQ *)
  let closeMPQ := false in
  ret closeMPQ (Some rep) None
  end
  end.

(** How the body of [newRep] is left: by a panic or by a failing [return]
    with [closeMPQ] set, or by the one succeeding [return], with [closeMPQ]
    cleared and the archive handed to the session. [ErrDecoding] is never
    returned by a [return] statement. *)
Definition wellLeft (mpq : MPQ) (closeMPQ : bool) (exit : Exit Results) : Prop :=
  match exit with
  | Panicked => closeMPQ = true
  | Returned (Some rep, None) => closeMPQ = false /\ m rep = Some mpq
  | Returned (None, Some e) => closeMPQ = true /\ e <> ErrDecoding
  | Returned _ => False
  end.

(** No call to the archive reader or to the decoder faults. *)
Definition faultless (mpq : MPQ) : Prop :=
  UserData mpq <> Faults /\
  (forall h1 h2 h3, FileByHash mpq h1 h2 h3 <> Faults) /\
  (forall b, DecodeHeader d b <> Faults) /\
  (forall bb, GetProtocol d bb <> Faults) /\
  (forall p b, DecodeDetails d p b <> Faults) /\
  (forall p b, DecodeInitData d p b <> Faults) /\
  (forall p b, DecodeAttributesEvts d p b <> Faults) /\
  (forall b, Unmarshal d b <> Faults) /\
  (forall p b, DecodeGameEvts d p b <> Faults) /\
  (forall p b, DecodeMessageEvts d p b <> Faults) /\
  (forall p b, DecodeTrackerEvts d p b <> Faults) /\
  (forall evts i, trackerInit d evts i <> Faults).

(** The deferred function of [newRep]: it closes the archive when
    [closeMPQ] is set and then recovers: a panic is turned into
    [ErrDecoding], [parsedRep] keeping the value it has, [nil]. *)
Definition deferred (mpq : MPQ) (closeMPQ : bool) (exit : Exit Results) (w : World)
  : Outcome (Results * World) :=
  let w' := if closeMPQ then snd (closeMPQHandle mpq w) else w in
  match exit with
  | Panicked => Done ((None, Some ErrDecoding), w')
  | Returned res => Done (res, w')
  end.

Definition newRep (mpq : MPQ) (game message tracker : bool) (w : World)
  : Outcome (Results * World) :=
  match newRepBody mpq game message tracker with
  | Go a => match a with end
  | Leave closeMPQ exit => deferred mpq closeMPQ exit w
  end.

(** [NewEvts] and [NewFromFileEvts] open the archive with [mpq.New] and
    [mpq.NewFromFile] and hand it to [newRep]. [opened] is what the archive
    reader returns: a handle, or an error ([None]) for an input that is not
    an archive, as the result type of the reader (a handle and an error)
    and the comment of the wrappers say. *)
Definition NewEvts (opened : option MPQ) (game message tracker : bool)
    (w : World) : Outcome (Results * World) :=
  match opened with
  | None => Done ((None, Some ErrInvalidRepFile), w)
  | Some mpq => newRep mpq game message tracker w
  end.

Definition New (opened : option MPQ) (w : World) : Outcome (Results * World) :=
  NewEvts opened true true true w.

Definition NewFromFileEvts (opened : option MPQ) (game message tracker : bool)
    (w : World) : Outcome (Results * World) :=
  match opened with
  | None => Done ((None, Some ErrInvalidRepFile), w)
  | Some mpq => newRep mpq game message tracker w
  end.

Definition NewFromFile (opened : option MPQ) (w : World)
  : Outcome (Results * World) :=
  NewFromFileEvts opened true true true w.

(** [Close] closes the Rep and its resources. *)
Definition Close (r : Rep) (w : World) : option CloseError * World :=
  match m r with
  | None => (None, w)
  | Some mpq => closeMPQHandle mpq w
  end.

End Session.

End repm.

(** ** Sample sessions *)
Module SampleSession.
Import repm.

(** An archive that holds every section and whose [Close] reports an error
    from the second call on, as a closed file does. *)
Definition fileArchive : MPQ :=
  {| UserData := Returns [];
     FileByHash := fun _ _ _ =>
       Returns {| data := Some [Byte.x7b; Byte.x7d]; failed := false |};
     closeResult := fun n => if (n =? 0)%nat then None else Some errClose |}.

(** A decoder over trivial section types that accepts everything. *)
Definition plain : @Decoder unit unit unit unit unit unit :=
  {| DecodeHeader := fun _ => Returns (Some []);
     BaseBuild := fun _ => 75689;
     GetProtocol := fun _ => Returns (Some tt);
     MaxBaseBuild := 80949;
     DecodeDetails := fun _ _ => Returns tt;
     DecodeInitData := fun _ _ => Returns tt;
     DecodeAttributesEvts := fun _ _ => Returns tt;
     Unmarshal := fun _ => Returns (Some tt);
     DecodeGameEvts := fun _ _ => Returns ([], false);
     DecodeMessageEvts := fun _ _ => Returns ([], false);
     DecodeTrackerEvts := fun _ _ => Returns ([], false);
     trackerInit := fun _ _ => Returns tt |}.

(** The same decoder, faulting in the details. *)
Definition faulting : @Decoder unit unit unit unit unit unit :=
  {| DecodeHeader := fun _ => Returns (Some []);
     BaseBuild := fun _ => 75689;
     GetProtocol := fun _ => Returns (Some tt);
     MaxBaseBuild := 80949;
     DecodeDetails := fun _ _ => Faults;
     DecodeInitData := fun _ _ => Returns tt;
     DecodeAttributesEvts := fun _ _ => Returns tt;
     Unmarshal := fun _ => Returns (Some tt);
     DecodeGameEvts := fun _ _ => Returns ([], false);
     DecodeMessageEvts := fun _ _ => Returns ([], false);
     DecodeTrackerEvts := fun _ _ => Returns ([], false);
     trackerInit := fun _ _ => Returns tt |}.

(** The same decoder, finding no replay header in the user data. *)
Definition headerless : @Decoder unit unit unit unit unit unit :=
  {| DecodeHeader := fun _ => Returns None;
     BaseBuild := fun _ => 75689;
     GetProtocol := fun _ => Returns (Some tt);
     MaxBaseBuild := 80949;
     DecodeDetails := fun _ _ => Returns tt;
     DecodeInitData := fun _ _ => Returns tt;
     DecodeAttributesEvts := fun _ _ => Returns tt;
     Unmarshal := fun _ => Returns (Some tt);
     DecodeGameEvts := fun _ _ => Returns ([], false);
     DecodeMessageEvts := fun _ _ => Returns ([], false);
     DecodeTrackerEvts := fun _ _ => Returns ([], false);
     trackerInit := fun _ _ => Returns tt |}.

Definition fresh : World := {| closes := 0 |}.

End SampleSession.

(** ** What a pass over the game events reads and what it keeps *)

(** The events the loop of [NewBanksFromReplay] reaches: those before the
    first event past loop 0. *)
Fixpoint reached (evts : list Event) : list Event :=
  match evts with
  | [] => []
  | evt :: rest => if (0 <? Loop evt)%Z then [] else evt :: reached rest
  end.

(** The bank events among them: the events the loop acts on. *)
Definition bankEvents (evts : list Event) : list Event :=
  filter (fun evt => isBankEvent evt = true) (reached evts).

(** A map entry that holds a bank in the shape the pass builds it: not
    [nil], filed under its own name, opened by the [BankFile] event that
    names it and gave it its owner, and continued by content events only. *)
Definition wellFormed {O} (rp : Rep) (ownerOf : Event -> Outcome O)
    (name : string) (entry : option (Bank O)) : Prop :=
  exists bank file rest,
    entry = Some bank /\
    r bank = rp /\
    Name bank = name /\
    GameEvents bank = file :: rest /\
    EvtTypeName file = EvtTypeBankFile /\
    Stringv (fields file) ["name"] = name /\
    ownerOf file = Done (Owner bank) /\
    Forall (fun evt => isContentEvent evt = true) rest.

(** The user id of an event names a player: it indexes [Details.Players()]. *)
Definition namesPlayer (rp : Rep) (evt : Event) : Prop :=
  (0 <= UserID evt < Z.of_nat (length (Players rp)))%Z.

(** [ps] is what [findSlotByUserID] holds for user [uid]: the last lobby
    slot with that user id among the slots with a toon handle, and its
    position in the lobby. *)
Definition lastSlotOf (slots : list Slot) (uid : Z) (ps : BySlot.PlayerSlot) : Prop :=
  exists pre post,
    slots = (pre ++ BySlot.slot ps :: post)%list /\
    BySlot.slotIndex ps = Z.of_nat (length pre) /\
    SlotUserID (BySlot.slot ps) = uid /\
    ToonHandle (BySlot.slot ps) <> "" /\
    Forall (fun s => ~ (SlotUserID s = uid /\ ToonHandle s <> "")) post.

(** [p] is what [findPlayerByToonHandle] holds for a toon: the last player
    with that toon, which is not empty. *)
Definition lastPlayerOf (players : list Player) (toon : string) (p : Player) : Prop :=
  exists pre post,
    players = (pre ++ p :: post)%list /\
    Toon p = toon /\
    toon <> "" /\
    Forall (fun q => Toon q <> toon) post.

(** The events a bank of bucket [i] holds were filed into bucket [i], and
    they are held in the order in which the loop went through them; [seen]
    lists the events gone through. *)
Definition inOrder {O} (bucketOf : Event -> Z) (seen : list Event)
    (st : Collected O) : Prop :=
  forall (i : nat) bucket name bank,
    banks st !! i = Some bucket ->
    bucket !! name = Some (Some bank) ->
    sublist (GameEvents bank)
      (filter (fun evt => bucketOf evt = Z.of_nat i)
         (filter (fun evt => isBankEvent evt = true) seen)).

(** ** Further sample events *)
Module Cases.

(** A bank event of user [uid] at the given loop. *)
Definition bankEvtAt (loop : Z) (name : string) (uid : Z) (fs : Struct) : Event :=
  {| EvtTypeName := name;
     fields := ("userid", VStruct [("userId", VInt uid)]) :: ("loop", VInt loop) :: fs |}.

(** A key sent at loop 5. *)
Definition lateKey : Event := bankEvtAt 5 EvtTypeBankKey 0 [("name", VStr "wins")].

(** An event that is no bank event. *)
Definition cameraUpdate : Event := bankEvtAt 0 "CameraUpdate" 0 [].

End Cases.

(** ** Reading a rendered bank *)

(** A signature entry as the decoder yields it for a byte. *)
Definition isByte (v : Val) : Prop :=
  exists n, v = VInt n /\ (0 <= n <= 255)%Z.

(** The value of an upper-case hexadecimal digit. *)
Definition hexDigit (c : ascii) : option Z :=
  let n := Z.of_nat (nat_of_ascii c) in
  if (48 <=? n)%Z && (n <=? 57)%Z then Some (n - 48)%Z
  else if (65 <=? n)%Z && (n <=? 70)%Z then Some (n - 55)%Z
  else None.

(** Reads a text of two hexadecimal digits per entry back into entries. *)
Fixpoint hexPairs (s : string) : option (list Val) :=
  match s with
  | EmptyString => Some []
  | String a (String b rest) =>
      match hexDigit a, hexDigit b, hexPairs rest with
      | Some x, Some y, Some vs => Some (VInt (16 * x + y) :: vs)
      | _, _, _ => None
      end
  | String _ EmptyString => None
  end.

(** A token without its children. *)
Definition bare (t : Token) : Token :=
  match t with
  | Element tag a _ => Element tag a []
  | _ => t
  end.

(** The processing instruction and the comments [WriteTo] starts a document
    with. *)
Definition xmlDecl : Token :=
  ProcInst "xml" ("version=" +:+ dquote +:+ "1.0" +:+ dquote +:+ " encoding="
                  +:+ dquote +:+ "UTF-8" +:+ dquote).

Definition comments (rp : Rep) (now owner : string) : list Token :=
  [Comment "Bank recovered from a replay";
   Comment now;
   Comment ("Title: " +:+ Title rp);
   Comment ("Version: " +:+ VersionString rp);
   Comment ("Loops: " +:+ pretty (Loops rp));
   Comment ("Length: " +:+ Duration rp);
   Comment ("Player: " +:+ owner)].

(** A document with the [Bank] element as its second top-level token. *)
Definition bankDoc (pi : Token) (a : list (string * string)) (kids : list Token)
  : Token :=
  Element "" [] [pi; Element "Bank" a kids].

(** What an event puts directly below the [Bank] element: a [Section]
    element with its name, a [Signature] element with its value when the
    signature is not empty, and nothing for the other events. *)
Definition topLevel (evt : Event) : list Token :=
  if decide (EvtTypeName evt = EvtTypeBankSection) then
    [Element "Section" [("name", Stringv (fields evt) ["name"])] []]
  else if decide (EvtTypeName evt = EvtTypeBankKey) then []
  else if decide (EvtTypeName evt = EvtTypeBankValue) then []
  else if decide (EvtTypeName evt = EvtTypeBankSignature) then
    [Element "Signature"
       (if (0 <? length (Array (fields evt) ["signature"]))%nat
        then [("value", signatureHex (Array (fields evt) ["signature"]))]
        else [])
       []]
  else [].

(** A pointer that is [nil], detached, or at or below a child of the [Bank]
    element from position [h] on; and one that is strictly below such a
    child. *)
Definition below (h : nat) (p : Ptr) : Prop :=
  match p with
  | nilPtr | detached => True
  | at_ (1%nat :: i :: _) => (h <= i)%nat
  | at_ _ => False
  end.

Definition strictlyBelow (h : nat) (p : Ptr) : Prop :=
  match p with
  | nilPtr | detached => True
  | at_ (1%nat :: i :: _ :: _) => (h <= i)%nat
  | at_ _ => False
  end.

(** A cursor in a document whose [Bank] element starts with [hdr] and goes
    on with [body], the current section and key pointing into [body]. *)
Definition framed (pi : Token) (a : list (string * string)) (hdr body : list Token)
    (c : Cursor) : Prop :=
  doc c = bankDoc pi a (hdr ++ body) /\
  below (length hdr) (eCurrSection c) /\
  strictlyBelow (length hdr) (eCurrKey c).

(** ** What a session is built from *)
Section SessionShapes.
Import repm.
Context {ProtocolT DetailsT InitDataT AttrEvtsT MetadataT TrackerT : Type}.
Variable d : @Decoder ProtocolT DetailsT InitDataT AttrEvtsT MetadataT TrackerT.

(** The sections of the archive, by the hashes of their names. *)
Definition fileDetails : Z * Z * Z := (620083690, 3548627612, 4013960850).
Definition fileDetailsBackup : Z * Z * Z := (1421087648, 3590964654, 3400061273).
Definition fileInitData : Z * Z * Z := (3544165653, 1518242780, 4280631132).
Definition fileInitDataBackup : Z * Z * Z := (868899905, 1282002788, 1614930827).
Definition fileAttributes : Z * Z * Z := (1306016990, 497594575, 2731474728).
Definition fileMetadata : Z * Z * Z := (3675439372, 3912155403, 1108615308).
Definition fileGameEvts : Z * Z * Z := (496563520, 2864883019, 4101385109).
Definition fileMessageEvts : Z * Z * Z := (1089231967, 831857289, 1784674979).
Definition fileTrackerEvts : Z * Z * Z := (1501940595, 4263103390, 1648390237).

Definition fileOf (mpq : MPQ) (h : Z * Z * Z) : Call FileResult :=
  FileByHash mpq h.1.1 h.1.2 h.2.

(** The section is read without an error; its data may be [nil] or empty. *)
Definition reads (mpq : MPQ) (h : Z * Z * Z) (bytes : option bytes) : Prop :=
  exists f, fileOf mpq h = Returns f /\ failed f = false /\ bytes = data f.

(** The section is read without an error and holds data. *)
Definition holds (mpq : MPQ) (h : Z * Z * Z) (bytes : option bytes) : Prop :=
  reads mpq h bytes /\ len bytes <> 0%nat.

(** The section cannot be used: reading it gives an error or no data. *)
Definition unusable (mpq : MPQ) (h : Z * Z * Z) : Prop :=
  exists f, fileOf mpq h = Returns f /\ (failed f = true \/ len (data f) = 0%nat).

(** The data comes from the section, or from its backup when the section
    cannot be used. *)
Definition heldOrBackup (mpq : MPQ) (h b : Z * Z * Z) (bytes : option bytes) : Prop :=
  holds mpq h bytes \/ (unusable mpq h /\ holds mpq b bytes).

(** The protocol the replay is decoded with: the one of the base build of
    the header, or the one of the latest build when that is unknown. *)
Definition chosenProtocol (h : Struct) (p : ProtocolT) : Prop :=
  GetProtocol d (BaseBuild d h) = Returns (Some p) \/
  (GetProtocol d (BaseBuild d h) = Returns None /\
   GetProtocol d (MaxBaseBuild d) = Returns (Some p)).

(** An event stream of the session: decoded from its section when it was
    asked for, the error of the decoder kept in the flag; empty otherwise. *)
Definition streamOf (mpq : MPQ) (asked : bool) (h : Z * Z * Z)
    (decode : option bytes -> Call (list Event * bool))
    (evts : list Event) (err : bool) : Prop :=
  if asked then exists bytes, reads mpq h bytes /\ decode bytes = Returns (evts, err)
  else evts = [] /\ err = false.

(** How the succeeding [return] of [newRep] is reached and what the session
    then holds. *)
Definition builtFrom (mpq : MPQ) (game message tracker : bool) (rep : Rep) : Prop :=
  exists userData h p bytesD details bytesI initData bytesA attrEvts bytesM,
    UserData mpq = Returns userData /\
    DecodeHeader d userData = Returns (Some h) /\
    chosenProtocol h p /\
    heldOrBackup mpq fileDetails fileDetailsBackup bytesD /\
    DecodeDetails d p bytesD = Returns details /\
    heldOrBackup mpq fileInitData fileInitDataBackup bytesI /\
    DecodeInitData d p bytesI = Returns initData /\
    reads mpq fileAttributes bytesA /\
    DecodeAttributesEvts d p bytesA = Returns attrEvts /\
    reads mpq fileMetadata bytesM /\
    match bytesM with
    | Some b => exists md, Unmarshal d b = Returns (Some md) /\ Metadata rep = Some md
    | None => Metadata rep = None
    end /\
    streamOf mpq game fileGameEvts (DecodeGameEvts d p)
      (GameEvts rep) (GameEvtsErr rep) /\
    streamOf mpq message fileMessageEvts (DecodeMessageEvts d p)
      (MessageEvts rep) (MessageEvtsErr rep) /\
    (if tracker then
       exists bytes evts t,
         reads mpq fileTrackerEvts bytes /\
         DecodeTrackerEvts d p bytes = Returns (evts, TrackerEvtsErr rep) /\
         trackerInit d evts initData = Returns t /\
         TrackerEvts rep = Some t
     else TrackerEvts rep = None /\ TrackerEvtsErr rep = false) /\
    m rep = Some mpq /\
    protocol rep = Some p /\
    Header rep = Some h /\
    Details rep = Some details /\
    InitData rep = Some initData /\
    AttrEvts rep = Some attrEvts.

(** A statement that never returns the error [e]. *)
Definition avoids {A} (e : RepError)
    (c : Step (@Results ProtocolT DetailsT InitDataT AttrEvtsT MetadataT TrackerT) A)
  : Prop :=
  forall closeMPQ parsedRep, c <> Leave closeMPQ (Returned (parsedRep, Some e)).

End SessionShapes.

(** ** Package repm: preprocessing of the tracker events

    [TrackerEvts.init] builds the player descriptors from the tracker
    events. Its integer code is embedded as written. [angleToClock] and
    [calcSQ] compute in [float64]; what they return is taken as given, as
    are the ids of the tracker event types, which [s2prot] defines, and the
    order in which [range] visits a map, which Go leaves open. *)
Module trackerevts.

(** Conversion to a signed integer of the given width: wrap-around. *)
Definition wrap (bits : Z) (x : Z) : Z :=
  ((x + 2 ^ (bits - 1)) mod 2 ^ bits - 2 ^ (bits - 1))%Z.

Definition int64 : Z -> Z := wrap 64.
Definition int32 : Z -> Z := wrap 32.

(** [Struct.Structv]: the empty structure when the path is absent or
    holds a value of another dynamic type. *)
Definition Structv (s : Struct) (path : list string) : Struct :=
  match Value s path with Some (VStruct fs) => fs | _ => [] end.

(** [s2protrep.PlayerDesc]. *)
Record PlayerDesc := {
  PlayerID : Z;
  SlotID : Z;
  UserID : Z;
  StartLocX : Z;
  StartLocY : Z;
  StartDir : Z;
  SQ : Z;
  SupplyCappedPercent : Z;
}.

(** stats per player *)
Record stats := {
  samples : Z;
  unspents : Z;
  incomes : Z;
  supCapped : Z;
}.

(** What [init] reads of the init data: the size of the map and the lobby
    slots. *)
Record InitData := {
  MapSizeX : Z;
  MapSizeY : Z;
  Slots : list Slot;
}.

(** What the embedding takes as given. *)
Record Host := {
  (** [e.ID], the id of the type of an event *)
  ID : Event -> Z;
  TrackerEvtIDPlayerSetup : Z;
  TrackerEvtIDUnitBorn : Z;
  TrackerEvtIDPlayerStats : Z;
  (** [angleToClock(math.Atan2(float64(dy), float64(dx)))] *)
  clockOf : Z -> Z -> Z;
  (** [calcSQ(unspentResources, income)] *)
  calcSQ : Z -> Z -> Z;
  (** the order in which [range] visits the entries of a map *)
  ranged : list (Z * PlayerDesc) -> list (Z * PlayerDesc);
}.

(** [isMainBuilding] tells if the unit type name denotes a main building,
    that is one of Nexus, Command Center and Hatchery. *)
Definition isMainBuilding (unitTypeName : string) : bool :=
  bool_decide (unitTypeName = "Nexus")
  || bool_decide (unitTypeName = "CommandCenter")
  || bool_decide (unitTypeName = "Hatchery").

(** The two maps of [init]: [pidPlayerDescMap] and [pidStats]. Each
    descriptor and each record of statistics is reachable under one key
    only, so the maps hold them by value. *)
Record Tables := {
  pidPlayerDescMap : gmap Z PlayerDesc;
  pidStats : gmap Z stats;
}.

Section Init.
Variable h : Host.
Variable rep : InitData.

Definition newPlayerDesc (e : Event) : PlayerDesc :=
  {| PlayerID := Int (fields e) ["playerId"];
     SlotID := Int (fields e) ["slotId"];
     UserID := Int (fields e) ["userId"];
     StartLocX := 0; StartLocY := 0; StartDir := 0; SQ := 0;
     SupplyCappedPercent := 0 |}.

(** first read Player setup events *)
Fixpoint readSetup (evts : list Event) (t : Tables) : Tables :=
  match evts with
  | [] => t
  | e :: rest =>
      if (0 <? Loop e)%Z then t
      else if negb (ID h e =? TrackerEvtIDPlayerSetup h)%Z then readSetup rest t
      else
        let pid := Int (fields e) ["playerId"] in
        match pidPlayerDescMap t !! pid with
        | Some _ => readSetup rest t
        | None =>
            readSetup rest
              {| pidPlayerDescMap := <[pid := newPlayerDesc e]> (pidPlayerDescMap t);
                 pidStats := <[pid := {| samples := 0; unspents := 0;
                                         incomes := 0; supCapped := 0 |}]>
                               (pidStats t) |}
        end
  end.

Definition cx : Z := Z.quot (MapSizeX rep) 2.
Definition cy : Z := Z.quot (MapSizeY rep) 2.

(** The start location a [UnitBorn] event gives a descriptor. *)
Definition located (pd : PlayerDesc) (e : Event) : PlayerDesc :=
  {| PlayerID := PlayerID pd; SlotID := SlotID pd; UserID := UserID pd;
     StartLocX := Int (fields e) ["x"];
     StartLocY := Int (fields e) ["y"];
     StartDir := clockOf h (int64 (Int (fields e) ["y"] - cy))
                   (int64 (Int (fields e) ["x"] - cx));
     SQ := SQ pd; SupplyCappedPercent := SupplyCappedPercent pd |}.

Definition readBorn (t : Tables) (e : Event) : Tables :=
  if (Loop e =? 0)%Z && (ID h e =? TrackerEvtIDUnitBorn h)%Z then
    if isMainBuilding (Stringv (fields e) ["unitTypeName"]) then
      match pidPlayerDescMap t !! Int (fields e) ["controlPlayerId"] with
      | Some pd =>
          {| pidPlayerDescMap :=
               <[Int (fields e) ["controlPlayerId"] := located pd e]>
                 (pidPlayerDescMap t);
             pidStats := pidStats t |}
      | None => t
      end
    else t
  else t.

(** One more sample of the statistics of a player. *)
Definition sampled (st : stats) (e : Event) : stats :=
  let ss := Structv (fields e) ["stats"] in
  {| samples := int64 (samples st + 1);
     unspents := int64 (unspents st
                        + int64 (Int ss ["scoreValueMineralsCurrent"]
                                 + Int ss ["scoreValueVespeneCurrent"]));
     incomes := int64 (incomes st
                       + int64 (Int ss ["scoreValueMineralsCollectionRate"]
                                + Int ss ["scoreValueVespeneCollectionRate"]));
     supCapped :=
       if (Int ss ["scoreValueFoodMade"] <=? Int ss ["scoreValueFoodUsed"])%Z
       then int64 (supCapped st + 1) else supCapped st |}.

Definition readStats (t : Tables) (e : Event) : Tables :=
  if (ID h e =? TrackerEvtIDPlayerStats h)%Z then
    match pidStats t !! Int (fields e) ["playerId"] with
    | Some st =>
        {| pidPlayerDescMap := pidPlayerDescMap t;
           pidStats := <[Int (fields e) ["playerId"] := sampled st e]> (pidStats t) |}
    | None => t
    end
  else t.

(** Read start locations and player stats: the body of the second loop. *)
Definition readEvent (t : Tables) (e : Event) : Tables :=
  readStats (readBorn t e) e.

(** Finish SQ and supply-capped calculations. Every iteration changes the
    descriptor of its own key only, so the order of the iterations does not
    show. *)
Definition finish (st : option stats) (pd : PlayerDesc) : PlayerDesc :=
  match st with
  | None => pd
  | Some st =>
      if (samples st =? 0)%Z then pd
      else
        {| PlayerID := PlayerID pd; SlotID := SlotID pd; UserID := UserID pd;
           StartLocX := StartLocX pd; StartLocY := StartLocY pd;
           StartDir := StartDir pd;
           SQ := calcSQ h (int64 (Z.quot (unspents st) (samples st)))
                   (int64 (Z.quot (incomes st) (samples st)));
           SupplyCappedPercent :=
             int32 (int64 (Z.quot (int64 (supCapped st * 100)) (samples st))) |}
  end.

Definition finished (t : Tables) : gmap Z PlayerDesc :=
  map_imap (fun pid pd => Some (finish (pidStats t !! pid) pd)) (pidPlayerDescMap t).

(** Fill ToonPlayerDescMap *)
Fixpoint fillToon (pds : list (Z * PlayerDesc)) (ret : gmap string PlayerDesc)
  : Outcome (gmap string PlayerDesc) :=
  match pds with
  | [] => Done ret
  | (_, pd) :: rest =>
      (slot <~ index (Slots rep) (SlotID pd) ;;
       fillToon rest (<[ToonHandle slot := pd]> ret))%go
  end.

(** [init] initializes / preprocesses the tracker events: the result is
    [PIDPlayerDescMap] and [ToonPlayerDescMap]. *)
(** The descriptors when the last loop is entered. *)
Definition descriptors (evts : list Event) : gmap Z PlayerDesc :=
  let t := readSetup evts {| pidPlayerDescMap := ∅; pidStats := ∅ |} in
  let t := foldl readEvent t evts in
  finished t.

Definition init (evts : list Event)
  : Outcome (gmap Z PlayerDesc * gmap string PlayerDesc) :=
  let PIDPlayerDescMap := descriptors evts in
  (ToonPlayerDescMap <~ fillToon (ranged h (map_to_list PIDPlayerDescMap)) ∅ ;;
   Done (PIDPlayerDescMap, ToonPlayerDescMap))%go.

End Init.

End trackerevts.

(** *** What the descriptors are made from *)

(** [e] is the first [PlayerSetup] event for player [pid] among the events
    before the first event past loop 0. *)
Definition firstSetup (h : trackerevts.Host) (evts : list Event) (pid : Z)
    (e : Event) : Prop :=
  exists pre post,
    reached evts = (pre ++ e :: post)%list /\
    trackerevts.ID h e = trackerevts.TrackerEvtIDPlayerSetup h /\
    Int (fields e) ["playerId"] = pid /\
    Forall (fun e' => trackerevts.ID h e' = trackerevts.TrackerEvtIDPlayerSetup h ->
                      Int (fields e') ["playerId"] <> pid) pre.

(** The events that give player [pid] a start location: [UnitBorn] events
    at loop 0 of a main building under the player's control. *)
Definition givesStart (h : trackerevts.Host) (pid : Z) (e : Event) : bool :=
  (Loop e =? 0)%Z
  && (trackerevts.ID h e =? trackerevts.TrackerEvtIDUnitBorn h)%Z
  && trackerevts.isMainBuilding (Stringv (fields e) ["unitTypeName"])
  && (Int (fields e) ["controlPlayerId"] =? pid)%Z.

(** The samples of the statistics of player [pid], and those among them in
    which the supply used has reached the supply made. *)
Definition isSample (h : trackerevts.Host) (pid : Z) (e : Event) : bool :=
  (trackerevts.ID h e =? trackerevts.TrackerEvtIDPlayerStats h)%Z
  && (Int (fields e) ["playerId"] =? pid)%Z.

Definition isCapped (e : Event) : bool :=
  (Int (trackerevts.Structv (fields e) ["stats"]) ["scoreValueFoodMade"]
   <=? Int (trackerevts.Structv (fields e) ["stats"]) ["scoreValueFoodUsed"])%Z.

(** The unspent resources and the income a sample reports: minerals plus
    vespene. *)
Definition unspentOf (e : Event) : Z :=
  (Int (trackerevts.Structv (fields e) ["stats"]) ["scoreValueMineralsCurrent"]
   + Int (trackerevts.Structv (fields e) ["stats"]) ["scoreValueVespeneCurrent"])%Z.

Definition incomeOf (e : Event) : Z :=
  (Int (trackerevts.Structv (fields e) ["stats"]) ["scoreValueMineralsCollectionRate"]
   + Int (trackerevts.Structv (fields e) ["stats"]) ["scoreValueVespeneCollectionRate"])%Z.

Definition sumZ (l : list Z) : Z := foldr Z.add 0%Z l.

(** The values a sample reports are in the range of 32 bits. *)
Definition modest (e : Event) : Prop :=
  (- 2 ^ 32 <= unspentOf e < 2 ^ 32)%Z /\ (- 2 ^ 32 <= incomeOf e < 2 ^ 32)%Z.

(** [range] visits every entry of a map once, in some order. *)
Definition visitsAll (h : trackerevts.Host) : Prop :=
  forall l, trackerevts.ranged h l ≡ₚ l.

(** The slot id of a descriptor is an index into the lobby. *)
Definition inLobby (rep : trackerevts.InitData) (slotId : Z) : Prop :=
  (0 <= slotId < Z.of_nat (length (trackerevts.Slots rep)))%Z.

(** [TrackerEvts.init] as the session construction calls it: a panic of
    [init] is a fault of the call. *)
Definition initCall (h : trackerevts.Host) (evts : list Event)
    (rep : trackerevts.InitData)
  : repm.Call (gmap Z trackerevts.PlayerDesc * gmap string trackerevts.PlayerDesc) :=
  match trackerevts.init h rep evts with
  | Done t => repm.Returns t
  | Panic _ => repm.Faults
  end.

(** ** Sample tracker events *)
Module TrackerCases.
Import trackerevts.

(** A host with the ids of the tracker event types, the order of the keys
    as the order of [range], and constant results of the floating-point
    functions. *)
Definition host : Host :=
  {| ID := fun e =>
       if decide (EvtTypeName e = "PlayerStats") then 0
       else if decide (EvtTypeName e = "UnitBorn") then 1
       else if decide (EvtTypeName e = "PlayerSetup") then 9
       else 2;
     TrackerEvtIDPlayerSetup := 9;
     TrackerEvtIDUnitBorn := 1;
     TrackerEvtIDPlayerStats := 0;
     clockOf := fun _ _ => 12;
     calcSQ := fun _ _ => 70;
     ranged := fun l => l |}.

Definition lobby : InitData :=
  {| MapSizeX := 160; MapSizeY := 160; Slots := Sample.slots |}.

Definition trackerEvt (name : string) (loop : Z) (fs : Struct) : Event :=
  {| EvtTypeName := name; fields := ("loop", VInt loop) :: fs |}.

Definition setup (pid slotId userId : Z) : Event :=
  trackerEvt "PlayerSetup" 0
    [("playerId", VInt pid); ("slotId", VInt slotId); ("userId", VInt userId)].

Definition born (pid x y : Z) : Event :=
  trackerEvt "UnitBorn" 0
    [("unitTypeName", VStr "Nexus"); ("controlPlayerId", VInt pid);
     ("x", VInt x); ("y", VInt y)].

Definition sample (loop pid used made : Z) : Event :=
  trackerEvt "PlayerStats" loop
    [("playerId", VInt pid);
     ("stats", VStruct [("scoreValueMineralsCurrent", VInt 50);
                        ("scoreValueVespeneCurrent", VInt 0);
                        ("scoreValueMineralsCollectionRate", VInt 300);
                        ("scoreValueVespeneCollectionRate", VInt 0);
                        ("scoreValueFoodUsed", VInt used);
                        ("scoreValueFoodMade", VInt made)])].

(** Two players in the two slots of the lobby; the first is sampled three
    times and is supply capped in one of the samples. *)
Definition game : list Event :=
  [setup 1 0 0; setup 2 1 1; setup 1 1 1; born 1 20 140;
   sample 160 1 12 15; sample 320 1 15 15; sample 480 1 20 23].

(** A decoder that accepts everything, yields these tracker events and
    preprocesses them with [init]. *)
Definition decoder
  : @repm.Decoder unit unit InitData unit unit
      (gmap Z PlayerDesc * gmap string PlayerDesc) :=
  {| repm.DecodeHeader := fun _ => repm.Returns (Some []);
     repm.BaseBuild := fun _ => 75689;
     repm.GetProtocol := fun _ => repm.Returns (Some tt);
     repm.MaxBaseBuild := 80949;
     repm.DecodeDetails := fun _ _ => repm.Returns tt;
     repm.DecodeInitData := fun _ _ => repm.Returns lobby;
     repm.DecodeAttributesEvts := fun _ _ => repm.Returns tt;
     repm.Unmarshal := fun _ => repm.Returns (Some tt);
     repm.DecodeGameEvts := fun _ _ => repm.Returns ([], false);
     repm.DecodeMessageEvts := fun _ _ => repm.Returns ([], false);
     repm.DecodeTrackerEvts := fun _ _ => repm.Returns (game, false);
     repm.trackerInit := initCall host |}.

End TrackerCases.

(** ** The nesting of a rendered bank *)

(** An element without children, a [Key] element that holds such elements
    only, and a [Section] or [Signature] element that holds keys only. *)
Definition isLeaf (t : Token) : Prop :=
  exists tag a, t = Element tag a [].

Definition isKeyElement (t : Token) : Prop :=
  exists a vals, t = Element "Key" a vals /\ Forall isLeaf vals.

Definition isSectionElement (t : Token) : Prop :=
  exists tag a keys,
    t = Element tag a keys /\
    (tag = "Section" \/ tag = "Signature") /\
    Forall isKeyElement keys.

(** Pointers by the depth they point to: a child of the [Bank] element from
    position [h] on, a child of such a child, and a child of that. *)
Definition sectionPtr (h : nat) (p : Ptr) : Prop :=
  match p with
  | nilPtr | detached => True
  | at_ [1%nat; i] => (h <= i)%nat
  | at_ _ => False
  end.

Definition keyPtr (h : nat) (p : Ptr) : Prop :=
  match p with
  | nilPtr | detached => True
  | at_ [1%nat; i; _] => (h <= i)%nat
  | at_ _ => False
  end.

Definition valuePtr (h : nat) (p : Ptr) : Prop :=
  match p with
  | nilPtr | detached => True
  | at_ [1%nat; i; _; _] => (h <= i)%nat
  | at_ _ => False
  end.

(** A cursor in a document whose body is nested as a bank is. *)
Definition nested (pi : Token) (a : list (string * string)) (hdr body : list Token)
    (c : Cursor) : Prop :=
  doc c = bankDoc pi a (hdr ++ body) /\
  Forall isSectionElement body /\
  sectionPtr (length hdr) (eCurrSection c) /\
  keyPtr (length hdr) (eCurrKey c).

(** ** A bank file sent twice *)
Module Reopened.

(** The bank file [A] of user 0, sent a second time. *)
Definition fileA0again : Event :=
  Sample.bankEvt EvtTypeBankFile 0 [("name", VStr "A"); ("again", VInt 1)].

End Reopened.

(** ** Package repm: faults of the archive reader outside the body

    [newRep] and the wrappers above take two calls into the archive reader
    to return: [m.Close()], which the deferred function of [newRep] calls
    before it calls [recover()], and [mpq.New] or [mpq.NewFromFile], which
    the wrappers call before they call [newRep]. As calls they return or
    fault like every other call into the archive reader. Here they may
    fault; what the caller of the construction sees is a call that returns
    the results or faults. *)
Section Escapes.
Import repm.
Context {ProtocolT DetailsT InitDataT AttrEvtsT MetadataT TrackerT : Type}.
Variable d : @Decoder ProtocolT DetailsT InitDataT AttrEvtsT MetadataT TrackerT.

(** [closeFaults n] tells if [m.Close()] faults when it has been called
    [n] times before; when it does not, it returns [closeResult m n]. *)
Variable closeFaults : nat -> bool.

Local Abbreviation Results0 :=
  (@Results ProtocolT DetailsT InitDataT AttrEvtsT MetadataT TrackerT).

(** The deferred function of [newRep]: a fault of [m.Close()] leaves it
    before [recover()] is called, so that the fault goes on to the caller,
    in place of the panic of the body if there was one. *)
Definition deferredWith (mpq : MPQ) (closeMPQ : bool) (exit : Exit Results0)
    (w : World) : Call (Results0 * World) :=
  if closeMPQ && closeFaults (closes w) then Faults
  else
    let w' := if closeMPQ then snd (closeMPQHandle mpq w) else w in
    match exit with
    | Panicked => Returns ((None, Some ErrDecoding), w')
    | Returned res => Returns (res, w')
    end.

Definition newRepWith (mpq : MPQ) (game message tracker : bool) (w : World)
  : Call (Results0 * World) :=
  match newRepBody d mpq game message tracker with
  | Go a => match a with end
  | Leave closeMPQ exit => deferredWith mpq closeMPQ exit w
  end.

(** [opening] is the call of [mpq.New(input)]: it faults, or it returns a
    handle or an error ([None]). *)
Definition NewEvtsWith (opening : Call (option MPQ)) (game message tracker : bool)
    (w : World) : Call (Results0 * World) :=
  match opening with
  | Faults => Faults
  | Returns None => Returns ((None, Some ErrInvalidRepFile), w)
  | Returns (Some mpq) => newRepWith mpq game message tracker w
  end.

(** [opening] is the call of [mpq.NewFromFile(name)]. *)
Definition NewFromFileEvtsWith (opening : Call (option MPQ))
    (game message tracker : bool) (w : World) : Call (Results0 * World) :=
  match opening with
  | Faults => Faults
  | Returns None => Returns ((None, Some ErrInvalidRepFile), w)
  | Returns (Some mpq) => newRepWith mpq game message tracker w
  end.

(** *** Where a call in the body of [newRep] faults

    Every call of the body is reached when the calls before it have
    returned and no [return] statement has been taken. *)

(** The user data is read and a header is decoded from it. *)
Definition headed (mpq : MPQ) (h : Struct) : Prop :=
  exists userData,
    UserData mpq = Returns userData /\
    DecodeHeader d userData = Returns (Some h).

(** One of the at most two protocol look-ups faults. *)
Definition protocolFaults (h : Struct) : Prop :=
  GetProtocol d (BaseBuild d h) = Faults \/
  (GetProtocol d (BaseBuild d h) = Returns None /\
   GetProtocol d (MaxBaseBuild d) = Faults).

(** Reading section [h] faults, or decoding what was read does. *)
Definition decodeFaults {A} (mpq : MPQ) (h : Z * Z * Z)
    (decode : option bytes -> Call A) : Prop :=
  fileOf mpq h = Faults \/
  exists bytes, reads mpq h bytes /\ decode bytes = Faults.

(** The same for a section with a backup: the backup is read when the
    section cannot be used. *)
Definition decodeBackedFaults {A} (mpq : MPQ) (h b : Z * Z * Z)
    (decode : option bytes -> Call A) : Prop :=
  fileOf mpq h = Faults \/
  (unusable mpq h /\ fileOf mpq b = Faults) \/
  exists bytes, heldOrBackup mpq h b bytes /\ decode bytes = Faults.

(** Section [h], or its backup, is read and decoded to [a]. *)
Definition decodedBacked {A} (mpq : MPQ) (h b : Z * Z * Z)
    (decode : option bytes -> Call A) (a : A) : Prop :=
  exists bytes, heldOrBackup mpq h b bytes /\ decode bytes = Returns a.

(** Section [h] is read without an error and decoded. *)
Definition decoded {A} (mpq : MPQ) (h : Z * Z * Z)
    (decode : option bytes -> Call A) : Prop :=
  exists bytes a, reads mpq h bytes /\ decode bytes = Returns a.

(** Reading the metadata faults, or parsing it does. *)
Definition metadataFaults (mpq : MPQ) : Prop :=
  fileOf mpq fileMetadata = Faults \/
  exists b, reads mpq fileMetadata (Some b) /\ Unmarshal d b = Faults.

(** The metadata is absent, or it is parsed. *)
Definition described (mpq : MPQ) : Prop :=
  reads mpq fileMetadata None \/
  exists b md, reads mpq fileMetadata (Some b) /\ Unmarshal d b = Returns (Some md).

(** An event stream that was asked for is read and decoded. *)
Definition streamed (mpq : MPQ) (asked : bool) (h : Z * Z * Z)
    (decode : option bytes -> Call (list Event * bool)) : Prop :=
  asked = true -> decoded mpq h decode.

(** Reading or decoding the tracker events faults, or [init] does. *)
Definition trackerFaults (mpq : MPQ) (p : ProtocolT) (initData : InitDataT) : Prop :=
  decodeFaults mpq fileTrackerEvts (DecodeTrackerEvts d p) \/
  exists bytes evts,
    reads mpq fileTrackerEvts bytes /\
    DecodeTrackerEvts d p bytes = Returns evts /\
    trackerInit d evts.1 initData = Faults.

(** The event streams are decoded last, those that were asked for, in the
    order game, message, tracker. *)
Definition streamsFault (mpq : MPQ) (game message tracker : bool)
    (p : ProtocolT) (initData : InitDataT) : Prop :=
  (game = true /\ decodeFaults mpq fileGameEvts (DecodeGameEvts d p)) \/
  (streamed mpq game fileGameEvts (DecodeGameEvts d p) /\
   ((message = true /\ decodeFaults mpq fileMessageEvts (DecodeMessageEvts d p)) \/
    (streamed mpq message fileMessageEvts (DecodeMessageEvts d p) /\
     tracker = true /\ trackerFaults mpq p initData))).

(** The sections that are always decoded, in the order details, init
    data, attributes, metadata, and then the event streams. *)
Definition sectionsFault (mpq : MPQ) (game message tracker : bool)
    (p : ProtocolT) : Prop :=
  decodeBackedFaults mpq fileDetails fileDetailsBackup (DecodeDetails d p) \/
  ((exists details,
      decodedBacked mpq fileDetails fileDetailsBackup (DecodeDetails d p) details) /\
   (decodeBackedFaults mpq fileInitData fileInitDataBackup (DecodeInitData d p) \/
    exists initData,
      decodedBacked mpq fileInitData fileInitDataBackup (DecodeInitData d p)
        initData /\
      (decodeFaults mpq fileAttributes (DecodeAttributesEvts d p) \/
       (decoded mpq fileAttributes (DecodeAttributesEvts d p) /\
        (metadataFaults mpq \/
         (described mpq /\
          streamsFault mpq game message tracker p initData)))))).

(** A call of the body of [newRep] is reached and faults. *)
Definition faultReached (mpq : MPQ) (game message tracker : bool) : Prop :=
  UserData mpq = Faults \/
  (exists userData,
     UserData mpq = Returns userData /\ DecodeHeader d userData = Faults) \/
  exists h,
    headed mpq h /\
    (protocolFaults h \/
     exists p, chosenProtocol d h p /\ sectionsFault mpq game message tracker p).

End Escapes.

(** Sample sessions for these: a decoder that faults in [init], and one that
    reads no metadata and faults in the message events. *)
Module FaultCases.
Import repm.

Definition faultsInInit : @Decoder unit unit unit unit unit unit :=
  {| DecodeHeader := fun _ => Returns (Some []);
     BaseBuild := fun _ => 75689;
     GetProtocol := fun bb => if (bb =? 80949)%Z then Returns (Some tt)
                              else Returns None;
     MaxBaseBuild := 80949;
     DecodeDetails := fun _ _ => Returns tt;
     DecodeInitData := fun _ _ => Returns tt;
     DecodeAttributesEvts := fun _ _ => Returns tt;
     Unmarshal := fun _ => Returns (Some tt);
     DecodeGameEvts := fun _ _ => Returns ([], true);
     DecodeMessageEvts := fun _ _ => Returns ([], false);
     DecodeTrackerEvts := fun _ _ => Returns ([], false);
     trackerInit := fun _ _ => Faults |}.

(** A handle whose [Close] faults, and one whose [Close] returns. *)
Definition closeFaulting : nat -> bool := fun _ => true.
Definition closeReturning : nat -> bool := fun _ => false.

End FaultCases.

(** ** Go's [float64]

    [angleToClock] and [calcSQ] compute in [float64], IEEE 754 binary64:
    the kernel's floating-point numbers. Sums, differences, products and
    quotients are rounded to nearest, ties to even, one operation at a
    time. *)
Module float64.
Import QArith Floats.

(** The quotient of two positive integers, rounded to [float64]. *)
Definition nearest (s : bool) (n d : positive) : spec_float :=
  let '(m, e, l) := SFdiv_core_binary prec emax (Z.pos n) 0 (Z.pos d) 0 in
  binary_round_aux prec emax s m e l.

(** A constant used as a [float64]: constant expressions are evaluated
    exactly, and the value is rounded once, where it is converted. *)
Definition const (q : Q) : float :=
  match Qnum q with
  | Z0 => zero
  | Z.pos n => SF2Prim (nearest false n (Qden q))
  | Z.neg n => SF2Prim (nearest true n (Qden q))
  end.

(** [float64(x)] of an integer [x]. *)
Definition ofInt (x : Z) : float :=
  SF2Prim (binary_normalize prec emax x 0 false).

(** The integer part of a finite number. *)
Definition truncate (x : float) : option Z :=
  match Prim2SF x with
  | S754_zero _ => Some 0%Z
  | S754_finite s m e =>
      let v := if (0 <=? e)%Z then (Z.pos m * 2 ^ e)%Z
               else (Z.pos m / 2 ^ (- e))%Z in
      Some (if s then (- v)%Z else v)
  | _ => None
  end.

(** [int32(x)] of a [float64]: the fraction is discarded. For a value that
    [int32] cannot represent (a NaN, an infinity, an integer part out of
    range) the language leaves the result to the implementation: [None]. *)
Definition toInt32 (x : float) : option Z :=
  match truncate x with
  | Some v => if (- 2 ^ 31 <=? v)%Z && (v <? 2 ^ 31)%Z then Some v else None
  | None => None
  end.

End float64.

(** ** Package repm: the floating-point functions of the tracker events *)
Module trackerfloat.
Import QArith Floats.

(** What a run of [angleToClock] gives: a value, a value that the language
    leaves to the implementation, or no value within the given number of
    iterations of its loops. *)
Inductive Run (A : Type) :=
| Value (a : A)
| Unspecified
| OutOfFuel.

Arguments Value {A} a.
Arguments Unspecified {A}.
Arguments OutOfFuel {A}.

(** [math.Pi] *)
Definition Pi : Q :=
  3.14159265358979323846264338327950288419716939937510582097494459%Q.

(** 1 hour is PI/6 angle range *)
Definition oneHour : Q := (Pi / 6)%Q.

(** [for angle < 0 { angle += oneHour * 12 }] *)
Fixpoint raise (fuel : nat) (angle : float) : option float :=
  if (angle <? 0)%float then
    match fuel with
    | O => None
    | S fuel => raise fuel (angle + float64.const (oneHour * 12))%float
    end
  else Some angle.

(** [for angle >= oneHour*12 { angle -= oneHour * 12 }] *)
Fixpoint lower (fuel : nat) (angle : float) : option float :=
  if (float64.const (oneHour * 12) <=? angle)%float then
    match fuel with
    | O => None
    | S fuel => lower fuel (angle - float64.const (oneHour * 12))%float
    end
  else Some angle.

(** [angleToClock] converts an angle given in radian to an hour clock
    value. [fuel] bounds the number of iterations of each loop. *)
Definition angleToClock (fuel : nat) (angle : float) : Run Z :=
  (* Shift by 3:30 and invert direction (clockwise) *)
  let angle := (- angle + float64.const (oneHour * 3.5))%float in
  (* Put in range of 0..2*PI *)
  match raise fuel angle with
  | None => OutOfFuel
  | Some angle =>
      match lower fuel angle with
      | None => OutOfFuel
      | Some angle =>
          (* And convert to a clock value *)
          match float64.toInt32 (angle / float64.const oneHour)%float with
          | None => Unspecified
          | Some hour => if (hour =? 0)%Z then Value 12%Z else Value hour
          end
      end
  end.

(** The operand of the conversion in [calcSQ]; [Log] is [math.Log]. *)
Definition spendingQuotient (Log : float -> float) (unspentResources income : Z)
  : float :=
  (float64.const 35
   * (float64.const 0.00137 * float64.ofInt income
      - Log (float64.ofInt unspentResources))
   + float64.const 240 + float64.const 0.5)%float.

(** [calcSQ] calculates the SQ (Spending Quotient). [None]: the language
    leaves the result of the conversion to the implementation. *)
Definition calcSQ (Log : float -> float) (unspentResources income : Z)
  : option Z :=
  float64.toInt32 (spendingQuotient Log unspentResources income).

(** The examples of [angleToClock]: PI/2, 0 and PI as [float64]. *)
Definition quarterTurn : float := float64.const (Pi / 2).
Definition noTurn : float := float64.const 0.
Definition halfTurn : float := float64.const Pi.

(** The angle [oneHour * 2.5], between 12 and 1 o'clock, as a [float64],
    and the same direction one turn further. *)
Definition halfPastTwelve : float := float64.const (oneHour * 2.5).
Definition oneTurnFurther : float :=
  (halfPastTwelve + float64.const (Pi * 2))%float.

(** An angle of many turns. *)
Definition manyTurns : float := float64.ofInt (10 ^ 17).

(** The angles [k / 256]. *)
Definition gridAngle (k : Z) : float :=
  (float64.ofInt k / float64.const 256)%float.

End trackerfloat.

(** The host computes [calcSQ] in [float64] with [Log] for [math.Log],
    wherever the language defines the result. *)
Definition computesSQ (Log : PrimFloat.float -> PrimFloat.float)
    (h : trackerevts.Host) : Prop :=
  forall u i z,
    trackerfloat.calcSQ Log u i = Some z -> trackerevts.calcSQ h u i = z.

(** The statistics samples of player [pid] and the integer averages that
    [init] hands to [calcSQ]: the quotients are truncated toward zero. *)
Definition samplesOf (h : trackerevts.Host) (pid : Z) (evts : list Event)
  : list Event :=
  filter (fun e => isSample h pid e = true) evts.

Definition averageUnspent (h : trackerevts.Host) (pid : Z) (evts : list Event) : Z :=
  Z.quot (sumZ (map unspentOf (samplesOf h pid evts)))
    (Z.of_nat (length (samplesOf h pid evts))).

Definition averageIncome (h : trackerevts.Host) (pid : Z) (evts : list Event) : Z :=
  Z.quot (sumZ (map incomeOf (samplesOf h pid evts)))
    (Z.of_nat (length (samplesOf h pid evts))).

(** ** Sample statistics *)
Module SQCases.
Import Floats trackerevts.

(** [math.Log] at the arguments the samples use. *)
Definition Log (x : float) : float :=
  if (x =? 0)%float then neg_infinity
  else if (x =? 50)%float then 0x1.f4bd2b7ac1bafp+1%float
  else nan.

(** The host of the tracker cases, computing [calcSQ] in [float64]; where
    the language leaves the conversion open it gives the least [int32]. *)
Definition host : Host :=
  {| ID := ID TrackerCases.host;
     TrackerEvtIDPlayerSetup := TrackerEvtIDPlayerSetup TrackerCases.host;
     TrackerEvtIDUnitBorn := TrackerEvtIDUnitBorn TrackerCases.host;
     TrackerEvtIDPlayerStats := TrackerEvtIDPlayerStats TrackerCases.host;
     clockOf := clockOf TrackerCases.host;
     calcSQ := fun u i => default (- 2 ^ 31)%Z (trackerfloat.calcSQ Log u i);
     ranged := ranged TrackerCases.host |}.

(** A sample with the given minerals in stock. *)
Definition stock (loop pid minerals : Z) : Event :=
  TrackerCases.trackerEvt "PlayerStats" loop
    [("playerId", VInt pid);
     ("stats", VStruct [("scoreValueMineralsCurrent", VInt minerals);
                        ("scoreValueVespeneCurrent", VInt 0);
                        ("scoreValueMineralsCollectionRate", VInt 300);
                        ("scoreValueVespeneCollectionRate", VInt 0);
                        ("scoreValueFoodUsed", VInt 12);
                        ("scoreValueFoodMade", VInt 15)])].

(** A player who has spent everything in one of two samples and holds one
    mineral in the other. *)
Definition spent : list Event :=
  [TrackerCases.setup 1 0 0; stock 160 1 0; stock 320 1 1].

End SQCases.
(** * Properties of bank reconstruction *)

Lemma lastFileName_cons evt evts curr :
  lastFileName (evt :: evts) curr = lastFileName evts (lastFileName [evt] curr).
Proof. reflexivity. Qed.

Lemma isContentEvent_isBankEvent evt :
  isContentEvent evt = true -> isBankEvent evt = true.
Proof.
  unfold isContentEvent, isBankEvent. cbn [existsb].
  intros H. rewrite H. apply orb_true_r.
Qed.

Lemma isContentEvent_not_file evt :
  isContentEvent evt = true -> EvtTypeName evt <> EvtTypeBankFile.
Proof.
  unfold isContentEvent. cbn [existsb]. intros H Hf. rewrite Hf in H.
  vm_compute in H. discriminate.
Qed.

Lemma AddGameEvent_content {O} (bank : Bank O) evt :
  isContentEvent evt = true -> AddGameEvent bank evt = (appended bank evt, None).
Proof. intros H. unfold AddGameEvent. rewrite H. reflexivity. Qed.

Lemma index_Done {A} (l : list A) (i : Z) (x : A) :
  index l i = Done x <-> (0 <= i)%Z /\ l !! Z.to_nat i = Some x.
Proof.
  unfold index. destruct (Z.ltb_spec i 0).
  - split; [discriminate | lia].
  - destruct (l !! Z.to_nat i); split.
    + intros [= ->]. done.
    + intros [_ [= ->]]. done.
    + discriminate.
    + intros [_ [=]].
Qed.

Section CollectFacts.
Context {O : Type}.
Variable rp : Rep.
Variable bucketOf : Event -> Z.
Variable ownerOf : Event -> Outcome O.

Local Abbreviation collect0 := (collect rp bucketOf ownerOf).
Local Abbreviation route0 := (route rp bucketOf ownerOf).

Lemma route_content st evt bucket :
  isContentEvent evt = true ->
  index (banks st) (bucketOf evt) = Done bucket ->
  route0 st evt = Done (filed bucketOf st evt bucket).
Proof.
  intros Hc Hb. unfold route0, filed.
  destruct (decide (EvtTypeName evt = EvtTypeBankFile)) as [Hf|_].
  - exfalso. by apply (isContentEvent_not_file evt).
  - rewrite Hb. simpl.
    destruct (bucket !! bankNameCurr st) as [[bank|]|]; try reflexivity.
    by rewrite AddGameEvent_content.
Qed.

Lemma route_bankNameCurr st evt st' :
  route0 st evt = Done st' ->
  bankNameCurr st' = lastFileName [evt] (bankNameCurr st).
Proof.
  unfold route0, lastFileName. simpl.
  destruct (decide (EvtTypeName evt = EvtTypeBankFile)).
  - destruct (ownerOf evt); simpl; [|discriminate].
    destruct (index _ _); simpl; [|discriminate].
    intros [= <-]. reflexivity.
  - destruct (index _ _); simpl; [|discriminate].
    destruct (_ !! _) as [[?|]|]; intros [= <-]; reflexivity.
Qed.

Lemma collect_app pre post st :
  Forall atLoop0 pre ->
  collect0 (pre ++ post) st = obind (collect0 pre st) (collect0 post).
Proof.
  intros H. revert st. induction H as [|evt pre Hevt _ IH]; intros st.
  - reflexivity.
  - cbn [app collect0]. unfold atLoop0 in Hevt.
    destruct (Z.ltb_spec 0 (Loop evt)); [lia|].
    destruct (negb (isBankEvent evt)); [apply IH|].
    destruct (route0 st evt); simpl; [apply IH | reflexivity].
Qed.

Lemma collect_bankNameCurr pre st st' :
  Forall atLoop0 pre ->
  collect0 pre st = Done st' ->
  bankNameCurr st' = lastFileName pre (bankNameCurr st).
Proof.
  intros H. revert st. induction H as [|evt pre Hevt _ IH]; intros st.
  - intros [= <-]. reflexivity.
  - cbn [collect0]. unfold atLoop0 in Hevt.
    destruct (Z.ltb_spec 0 (Loop evt)); [lia|].
    rewrite lastFileName_cons.
    destruct (isBankEvent evt) eqn:Hb; cbn [negb].
    + destruct (route0 st evt) as [st1|] eqn:Hr; simpl; [|discriminate].
      intros Hc. rewrite (IH _ Hc). f_equal.
      apply (route_bankNameCurr _ _ _ Hr).
    + intros Hc. rewrite (IH _ Hc). f_equal.
      unfold lastFileName. cbn [foldl].
      destruct (decide _) as [Hf|]; [|reflexivity].
      exfalso. unfold isBankEvent in Hb. cbn [existsb] in Hb.
      rewrite Hf in Hb. vm_compute in Hb. discriminate.
Qed.

(** A content event at loop 0 whose bucket exists is filed under the
    current bank name, and the pass goes on from there. *)
Lemma collect_content pre evt post st0 st1 bucket :
  Forall atLoop0 pre ->
  atLoop0 evt ->
  isContentEvent evt = true ->
  collect0 pre st0 = Done st1 ->
  index (banks st1) (bucketOf evt) = Done bucket ->
  bankNameCurr st1 = lastFileName pre (bankNameCurr st0) /\
  collect0 (pre ++ evt :: post) st0 = collect0 post (filed bucketOf st1 evt bucket).
Proof.
  intros Hpre Hevt Hc Hst1 Hb. split.
  - by apply collect_bankNameCurr.
  - rewrite collect_app by done. rewrite Hst1. cbn [obind collect0].
    unfold atLoop0 in Hevt. destruct (Z.ltb_spec 0 (Loop evt)); [lia|].
    rewrite (isContentEvent_isBankEvent _ Hc). cbn [negb].
    by rewrite (route_content _ _ _ Hc Hb).
Qed.

(** Two content events in a row that are filed into the same bucket end up
    next to each other, in stream order, at the end of the current bank. *)
Lemma collect_two_content pre evt next post st0 st1 bucket bank :
  Forall atLoop0 pre ->
  atLoop0 evt ->
  atLoop0 next ->
  isContentEvent evt = true ->
  isContentEvent next = true ->
  bucketOf next = bucketOf evt ->
  collect0 pre st0 = Done st1 ->
  index (banks st1) (bucketOf evt) = Done bucket ->
  bucket !! bankNameCurr st1 = Some (Some bank) ->
  collect0 (pre ++ evt :: next :: post) st0 =
    collect0 post
      (setBank st1 (bucketOf evt) (bankNameCurr st1)
         (Some (appended (appended bank evt) next)) bucket (bankNameCurr st1)).
Proof.
  intros Hpre Hevt Hnext Hc Hcn Hsame Hst1 Hb Hbank.
  destruct (collect_content pre evt (next :: post) _ _ _ Hpre Hevt Hc Hst1 Hb)
    as [_ ->].
  unfold filed at 1. rewrite Hbank.
  apply index_Done in Hb as [Hi Hb].
  pose proof (lookup_lt_Some _ _ _ Hb) as Hlen.
  set (st2 := setBank st1 _ _ (Some (appended bank evt)) _ _).
  cbn [collect]. unfold atLoop0 in Hnext.
  destruct (Z.ltb_spec 0 (Loop next)); [lia|].
  rewrite (isContentEvent_isBankEvent _ Hcn). cbn [negb].
  rewrite (route_content st2 next
             (<[bankNameCurr st1 := Some (appended bank evt)]> bucket) Hcn).
  - cbn [obind]. f_equal. unfold filed, st2. cbn [bankNameCurr setBank banks].
    rewrite lookup_insert_eq, Hsame. unfold setBank. cbn [banks].
    by rewrite list_insert_insert_eq, insert_insert_eq.
  - apply index_Done. rewrite Hsame. split; [done|].
    unfold st2. cbn [setBank banks]. by apply list_lookup_insert_eq.
Qed.

End CollectFacts.

(** ** Routing of content events *)

(** Both revisions of [NewBanksFromReplay] are the same pass, run with their
    own bucket and owner of an event. *)
Lemma ByPlayer_NewBanksFromReplay rp :
  ByPlayer.NewBanksFromReplay rp
  = collectAll rp ByPlayer.bucketOf (ByPlayer.ownerOf rp) (length (Players rp)).
Proof. reflexivity. Qed.

Lemma BySlot_NewBanksFromReplay rp :
  BySlot.NewBanksFromReplay rp
  = collectAll rp (BySlot.bucketOf rp) (BySlot.ownerOf rp) (length (Slots rp)).
Proof. reflexivity. Qed.

(** C1, as the specification words it, fails in both revisions: the current
    bank name is one variable for all users, so after [BankFile] events of
    users 0 and 1 a key of user 0 is looked up under the name of user 1's
    bank, is not found in user 0's bucket and is dropped. *)
Lemma per_user_routing_fails :
  ~ routesToUserBank ByPlayer.NewBanksFromReplay (fun _ => ByPlayer.bucketOf) /\
  ~ routesToUserBank BySlot.NewBanksFromReplay BySlot.bucketOf.
Proof.
  split; intros H;
    destruct (H (Sample.replay [Sample.fileA0; Sample.fileB1; Sample.key0])
                [Sample.fileA0; Sample.fileB1] Sample.key0 "A")
      as (bs & bucket & bank & Hbs & Hbucket & Hbank & Hlast);
    try reflexivity; try (repeat constructor; vm_compute; discriminate).
  all: vm_compute in Hbs; injection Hbs as <-.
  all: vm_compute in Hbucket; injection Hbucket as <-.
  all: vm_compute in Hbank; injection Hbank as <-.
  all: vm_compute in Hlast; discriminate.
Qed.

(** C1, amended: a content event at loop 0 whose bucket exists is appended
    to the event list of the bank filed, in the bucket of the event's user,
    under the name of the latest [BankFile] event of the pass, whichever
    user sent that event; when the bucket holds no bank of that name the
    event is dropped. Both revisions of [NewBanksFromReplay] are instances of
    [collectAll]. *)
Theorem content_event_routing {O} (rp : Rep) (bucketOf : Event -> Z)
    (ownerOf : Event -> Outcome O) (n : nat)
    (pre : list Event) (evt : Event) (post : list Event)
    (st1 : Collected O) (bucket : gmap string (option (Bank O))) :
  GameEvts rp = (pre ++ evt :: post)%list ->
  Forall atLoop0 pre ->
  atLoop0 evt ->
  isContentEvent evt = true ->
  collect rp bucketOf ownerOf pre (start n) = Done st1 ->
  index (banks st1) (bucketOf evt) = Done bucket ->
  bankNameCurr st1 = lastFileName pre "" /\
  (forall bank,
     bucket !! lastFileName pre "" = Some (Some bank) ->
     collectAll rp bucketOf ownerOf n =
       finish (collect rp bucketOf ownerOf post
                 (setBank st1 (bucketOf evt) (lastFileName pre "")
                    (Some (appended bank evt)) bucket (lastFileName pre "")))) /\
  (bucket !! lastFileName pre "" = None \/
   bucket !! lastFileName pre "" = Some None ->
     collectAll rp bucketOf ownerOf n =
       finish (collect rp bucketOf ownerOf post st1)).
Proof.
  intros Hevts Hpre Hevt Hc Hst1 Hb.
  destruct (collect_content rp bucketOf ownerOf pre evt post _ _ _
              Hpre Hevt Hc Hst1 Hb) as [Hname Hrun].
  change (bankNameCurr (start n)) with "" in Hname.
  split; [exact Hname|].
  unfold collectAll. rewrite Hevts, Hrun. unfold filed. rewrite Hname.
  split.
  - intros bank Hbank. by rewrite Hbank.
  - intros [Hnone|Hnone]; by rewrite Hnone.
Qed.

Lemma content_event_routing_witness :
  exists st1 bucket bank,
    collect (Sample.replay [Sample.fileA0; Sample.section0; Sample.key0])
      ByPlayer.bucketOf
      (ByPlayer.ownerOf (Sample.replay [Sample.fileA0; Sample.section0; Sample.key0]))
      [Sample.fileA0; Sample.section0] (start 2) = Done st1 /\
    index (banks st1) (ByPlayer.bucketOf Sample.key0) = Done bucket /\
    bucket !! "A" = Some (Some bank) /\
    GameEvents bank = [Sample.fileA0; Sample.section0] /\
    ByPlayer.NewBanksFromReplay
      (Sample.replay [Sample.fileA0; Sample.section0; Sample.key0]) =
    Done (banks (setBank st1 0 "A" (Some (appended bank Sample.key0)) bucket "A")).
Proof.
  eexists _, _, _.
  split; [vm_compute; reflexivity|].
  split; [vm_compute; reflexivity|].
  split; [vm_compute; reflexivity|].
  split; [reflexivity|].
  refine (proj1 (proj2 (content_event_routing
            (Sample.replay [Sample.fileA0; Sample.section0; Sample.key0])
            ByPlayer.bucketOf _ 2
            [Sample.fileA0; Sample.section0] Sample.key0 [] _ _ _ _ _ _ _ _)) _ _).
  - reflexivity.
  - repeat constructor; vm_compute; discriminate.
  - vm_compute; discriminate.
  - reflexivity.
  - vm_compute; reflexivity.
  - vm_compute; reflexivity.
  - vm_compute; reflexivity.
Defined.

(** ** Content events without a bank file *)


Section Untouched.
Context {O : Type}.
Variable rp : Rep.
Variable bucketOf : Event -> Z.
Variable ownerOf : Event -> Outcome O.

Local Abbreviation collect0 := (collect rp bucketOf ownerOf).
Local Abbreviation route0 := (route rp bucketOf ownerOf).

Local Abbreviation noFileFor0 := (noFileFor bucketOf).

Lemma route_bucket_empty (i : Z) st evt st' :
  (0 <= i)%Z ->
  banks st !! Z.to_nat i = Some ∅ ->
  (EvtTypeName evt = EvtTypeBankFile -> bucketOf evt <> i) ->
  route0 st evt = Done st' ->
  banks st' !! Z.to_nat i = Some ∅.
Proof.
  intros Hi Hempty Hfile. unfold route0.
  destruct (decide (EvtTypeName evt = EvtTypeBankFile)) as [Hf|Hf].
  - destruct (ownerOf evt); simpl; [|discriminate].
    destruct (index (banks st) (bucketOf evt)) as [bucket|] eqn:Hb; simpl; [|discriminate].
    intros [= <-]. simpl. apply index_Done in Hb as [Hj _].
    rewrite list_lookup_insert_ne; [done|].
    specialize (Hfile Hf). lia.
  - destruct (index (banks st) (bucketOf evt)) as [bucket|] eqn:Hb; simpl; [|discriminate].
    apply index_Done in Hb as [Hj Hb].
    destruct (decide (bucketOf evt = i)) as [Heq|Hne].
    + rewrite Heq, Hempty in Hb. injection Hb as <-. rewrite lookup_empty.
      by intros [= <-].
    + destruct (bucket !! bankNameCurr st) as [[bank|]|]; intros [= <-]; try done.
      simpl. rewrite list_lookup_insert_ne; [done|lia].
Qed.

Lemma collect_bucket_empty (i : Z) pre st st' :
  (0 <= i)%Z ->
  banks st !! Z.to_nat i = Some ∅ ->
  noFileFor0 i pre ->
  collect0 pre st = Done st' ->
  banks st' !! Z.to_nat i = Some ∅.
Proof.
  intros Hi Hempty Hpre. revert st Hempty.
  induction Hpre as [|evt pre Hevt _ IH]; intros st Hempty.
  - by intros [= <-].
  - cbn [collect].
    destruct (0 <? Loop evt)%Z; [by intros [= <-]|].
    destruct (negb (isBankEvent evt)); [by apply IH|].
    destruct (route0 st evt) as [st1|] eqn:Hr; simpl; [|discriminate].
    apply IH. by apply (route_bucket_empty i st evt).
Qed.

(** A content event at loop 0 is dropped, the pass running on as if the
    event were not in the stream, when its bucket exists and no [BankFile]
    event before it was filed into that bucket. *)
Lemma content_before_file_dropped (n : nat) pre evt post :
  Forall atLoop0 pre ->
  atLoop0 evt ->
  isContentEvent evt = true ->
  (0 <= bucketOf evt < Z.of_nat n)%Z ->
  noFileFor0 (bucketOf evt) pre ->
  collect0 (pre ++ evt :: post) (start n) = collect0 (pre ++ post) (start n).
Proof.
  intros Hpre Hevt Hc Hrange Hno.
  rewrite !collect_app by done.
  destruct (collect0 pre (start n)) as [st1|] eqn:Hst1; [|reflexivity].
  cbn [obind collect]. unfold atLoop0 in Hevt.
  destruct (Z.ltb_spec 0 (Loop evt)); [lia|].
  rewrite (isContentEvent_isBankEvent _ Hc). cbn [negb].
  assert (banks st1 !! Z.to_nat (bucketOf evt) = Some ∅) as Hempty.
  { apply (collect_bucket_empty (bucketOf evt) pre (start n)); try done; [lia|].
    simpl. apply lookup_replicate. split; [done|lia]. }
  rewrite (route_content rp bucketOf ownerOf st1 evt ∅ Hc).
  - unfold filed. by rewrite lookup_empty.
  - apply index_Done. split; [lia|done].
Qed.

End Untouched.

(** C9 is what the code aims at and misses for users without a bucket. In
    [bank.go] the bucket is indexed by the user id: a section event of user
    7 in a replay of two players indexes outside the slice and the pass
    panics. In the slot-keyed revision a user without a lobby slot reads the
    zero slot, index 0: the event is appended to the bank that the user in
    slot 0 opened, and with an empty lobby the index panics. *)
Theorem stray_content_event_mishandled :
  ByPlayer.NewBanksFromReplay (Sample.replay [Sample.section7])
    = Panic IndexOutOfRange /\
  (exists bs bucket bank,
     BySlot.NewBanksFromReplay (Sample.replay [Sample.fileA0; Sample.section7])
       = Done bs /\
     index bs 0 = Done bucket /\
     bucket !! "A" = Some (Some bank) /\
     GameEvents bank = [Sample.fileA0; Sample.section7]) /\
  BySlot.NewBanksFromReplay (Sample.replayNoSlots [Sample.section0])
    = Panic IndexOutOfRange.
Proof.
  split; [vm_compute; reflexivity|].
  split; [|vm_compute; reflexivity].
  eexists _, _, _.
  split; [vm_compute; reflexivity|].
  split; [vm_compute; reflexivity|].
  split; vm_compute; reflexivity.
Qed.

(** * Properties of the element tree *)

Lemma alterAt_child (path : list nat) (g : Token -> Token) (c doc : Token) :
  alterAt (path ++ [arity path doc]) g (alterAt path (addChild c) doc)
  = alterAt path (addChild (g c)) doc.
Proof.
  revert doc. induction path as [|i rest IH]; intros doc.
  - destruct doc as [| |tag a cs]; try reflexivity.
    unfold arity. cbn.
    f_equal. rewrite <- (Nat.add_0_r (length cs)) at 1.
    by rewrite alter_app_r.
  - destruct doc as [| |tag a cs]; try reflexivity.
    cbn. f_equal. rewrite list_alter_alter_eq.
    apply list_alter_ext; [|done].
    intros x Hx. unfold arity. cbn. rewrite Hx.
    apply (IH x).
Qed.

Lemma lookupAt_alterAt (path : list nat) (f : Token -> Token) (doc : Token) :
  lookupAt path (alterAt path f doc) = f <$> lookupAt path doc.
Proof.
  revert doc. induction path as [|i rest IH]; intros doc; [reflexivity|].
  destruct doc as [| |tag a cs]; try reflexivity.
  cbn. rewrite list_lookup_alter_eq.
  destruct (cs !! i) as [x|]; [apply IH | reflexivity].
Qed.

Lemma create_CreateAttr np (path : list nat) (tag key value : string) (doc : Token) :
  (de <~ CreateElement np tag (at_ path) doc ;;
   CreateAttr key value (snd de) (fst de))%go
  = Done (alterAt path (addChild (Element tag [(key, value)] [])) doc).
Proof.
  unfold CreateElement, create, CreateAttr. cbn.
  by rewrite alterAt_child.
Qed.

(** * Properties of rendering *)

Section RenderFacts.
Variable np : NilParent.
Variable valueTag : Event -> string.

Local Abbreviation renderValue0 := (renderValue np valueTag).
Local Abbreviation renderEvent0 := (renderEvent np valueTag).
Local Abbreviation renderEvents0 := (renderEvents np valueTag).

(** The calls before the loop build [header], and [root] points to its
    [Bank] element. *)
Lemma openDocument_header rp now owner :
  openDocument np rp now owner = Done (header rp now owner, root).
Proof. reflexivity. Qed.

Lemma renderEvents_app c evts1 evts2 :
  renderEvents0 c (evts1 ++ evts2)
  = obind (renderEvents0 c evts1) (fun c' => renderEvents0 c' evts2).
Proof.
  revert c. induction evts1 as [|evt evts1 IH]; intros c; [reflexivity|].
  cbn [app renderEvents].
  destruct (renderEvent0 c evt); simpl; [apply IH | reflexivity].
Qed.

(** A value of type 7 writes nothing and moves no pointer. *)
Lemma renderValue_deferred c evt :
  typeCode evt = 7%Z -> renderValue0 c evt = Done c.
Proof.
  unfold typeCode, renderValue. intros ->.
  by destruct (decide (7 = 7)%Z).
Qed.

Lemma index_valueKinds (n : Z) :
  (0 <= n <= 6)%Z -> exists kind, index valueKinds n = Done kind /\ kind ∈ valueKinds.
Proof.
  intros Hn.
  assert (n = 0 \/ n = 1 \/ n = 2 \/ n = 3 \/ n = 4 \/ n = 5 \/ n = 6)%Z
    as Hcases by lia.
  clear Hn. unfold valueKinds.
  destruct Hcases as [->|[->|[->|[->|[->|[->| ->]]]]]];
    eexists; (split; [reflexivity|]); repeat constructor.
Qed.

(** A value of another type, written under a key that is in the document:
    one element is appended to the children of the key. *)
Lemma renderValue_written c evt path kind :
  typeCode evt <> 7%Z ->
  index valueKinds (typeCode evt) = Done kind ->
  eCurrKey c = at_ path ->
  renderValue0 c evt =
    Done {| doc := alterAt path
                     (addChild (Element (valueTag evt)
                                  [(kind, Stringv (fields evt) ["data"])] []))
                     (doc c);
            eCurrSection := eCurrSection c;
            eCurrKey := eCurrKey c |}.
Proof.
  unfold typeCode, renderValue. intros H7 Hkind Hkey.
  destruct (decide _) as [|_]; [done|].
  rewrite Hkey, Hkind. cbn. by rewrite alterAt_child.
Qed.

End RenderFacts.

(** ** The element a value is written to *)

(** C8, as the specification words it, fails: the element written for a
    value of type 2 is not tagged [int]. In [bank.go] its tag is [Value], in
    the slot-keyed revision the name the event carries (here [Value] too);
    [int] is the name of its attribute. *)
Lemma value_tag_is_not_kind :
  (exists tree,
     Sample.smallTree NilParentPanics Sample.tagValue = Done tree /\
     lookupAt [1; 7; 0; 0]%nat tree = Some (Element "Value" [("int", "5")] [])) /\
  (exists tree,
     Sample.smallTree NilParentPanics Sample.tagName = Done tree /\
     lookupAt [1; 7; 0; 0]%nat tree = Some (Element "Value" [("int", "5")] [])) /\
  "Value" ∉ valueKinds.
Proof.
  split; [|split].
  - eexists. split; vm_compute; reflexivity.
  - eexists. split; vm_compute; reflexivity.
  - unfold valueKinds. intros H.
    repeat (apply elem_of_cons in H as [H|H]; [discriminate H|]).
    by apply elem_of_nil in H.
Qed.

(** A standalone value of type 0-6 appends one element to the children of
    the current key. *)
Lemma standalone_value_written (np : NilParent) (valueTag : Event -> string)
    (c : Cursor) (evt : Event) path ktag kattr kids :
  (0 <= typeCode evt <= 6)%Z ->
  EvtTypeName evt = EvtTypeBankValue ->
  eCurrKey c = at_ path ->
  lookupAt path (doc c) = Some (Element ktag kattr kids) ->
  exists kind c',
    index valueKinds (typeCode evt) = Done kind /\
    renderEvent np valueTag c evt = Done c' /\
    lookupAt path (doc c') =
      Some (Element ktag kattr
              (kids ++ [Element (valueTag evt)
                          [(kind, Stringv (fields evt) ["data"])] []])) /\
    eCurrSection c' = eCurrSection c /\ eCurrKey c' = eCurrKey c.
Proof.
  intros Hrange Hname Hkey Hlook.
  destruct (index_valueKinds _ Hrange) as (kind & Hkind & _).
  assert (typeCode evt <> 7%Z) as H7 by lia.
  eexists kind, _. split; [exact Hkind|].
  unfold renderEvent. rewrite Hname.
  split; [|split; [|split]].
  - cbn. apply (renderValue_written np valueTag c evt path kind H7 Hkind Hkey).
  - cbn [doc]. by rewrite lookupAt_alterAt, Hlook.
  - reflexivity.
  - reflexivity.
Qed.

(** C8, amended: rendering a value-bearing event whose type code is in 0-6
    appends one element to the children of the current key. Its tag is
    [valueTag evt] ([Value] in [bank.go], the event's name in the slot-keyed
    revision); its single attribute is named by the value kind that the type
    code selects and holds the payload. A [BankKey] event with an inline
    type first appends the key to the current section and writes the value
    under that key. *)
Theorem value_element_shape (np : NilParent) (valueTag : Event -> string)
    (c : Cursor) (evt : Event) :
  (0 <= typeCode evt <= 6)%Z ->
  (forall path ktag kattr kids,
     EvtTypeName evt = EvtTypeBankValue ->
     eCurrKey c = at_ path ->
     lookupAt path (doc c) = Some (Element ktag kattr kids) ->
     exists kind c',
       index valueKinds (typeCode evt) = Done kind /\
       renderEvent np valueTag c evt = Done c' /\
       lookupAt path (doc c') =
         Some (Element ktag kattr
                 (kids ++ [Element (valueTag evt)
                             [(kind, Stringv (fields evt) ["data"])] []])) /\
       eCurrSection c' = eCurrSection c /\ eCurrKey c' = eCurrKey c) /\
  (forall path stag sattr skids v,
     EvtTypeName evt = EvtTypeBankKey ->
     Value (fields evt) ["type"] = Some v ->
     eCurrSection c = at_ path ->
     lookupAt path (doc c) = Some (Element stag sattr skids) ->
     exists kind c',
       index valueKinds (typeCode evt) = Done kind /\
       renderEvent np valueTag c evt = Done c' /\
       lookupAt path (doc c') =
         Some (Element stag sattr
                 (skids ++ [Element "Key" [("name", Stringv (fields evt) ["name"])]
                              [Element (valueTag evt)
                                 [(kind, Stringv (fields evt) ["data"])] []]])) /\
       eCurrSection c' = eCurrSection c /\
       eCurrKey c' = at_ (path ++ [length skids])).
Proof.
  intros Hrange. split.
  - intros path ktag kattr kids.
    by apply standalone_value_written.
  - destruct (index_valueKinds _ Hrange) as (kind & Hkind & _).
    assert (typeCode evt <> 7%Z) as H7 by lia.
    intros path stag sattr skids v Hname Hv Hsec Hlook.
    assert (arity path (doc c) = length skids) as Harity.
    { unfold arity. by rewrite Hlook. }
    eexists kind, _. split; [exact Hkind|].
    unfold renderEvent. rewrite Hname, Hsec, Hv.
    split; [|split; [|split]].
    + cbn. rewrite alterAt_child.
      erewrite renderValue_written; [|exact H7|exact Hkind|reflexivity].
      cbn [doc eCurrSection eCurrKey].
      rewrite alterAt_child. cbn [addChild onChildren app]. reflexivity.
    + cbn [doc]. by rewrite lookupAt_alterAt, Hlook.
    + reflexivity.
    + cbn [eCurrKey]. by rewrite Harity.
Qed.

Lemma value_element_shape_witness :
  (exists kind c',
     index valueKinds (typeCode Sample.int0) = Done kind /\
     renderEvent NilParentPanics Sample.tagValue Sample.cursorAtKey Sample.int0
       = Done c' /\
     lookupAt [1; 0; 0]%nat (doc c') =
       Some (Element "Key" [("name", "wins")]
               [Element "Value" [(kind, "5")] []]) /\
     eCurrSection c' = at_ [1; 0]%nat /\ eCurrKey c' = at_ [1; 0; 0]%nat) /\
  (exists kind c',
     index valueKinds (typeCode Sample.keyInline0) = Done kind /\
     renderEvent NilParentPanics Sample.tagValue Sample.cursorAtKey Sample.keyInline0
       = Done c' /\
     lookupAt [1; 0]%nat (doc c') =
       Some (Element "Section" [("name", "stats")]
               [Element "Key" [("name", "wins")] [];
                Element "Key" [("name", "wins")]
                  [Element "Value" [(kind, "5")] []]]) /\
     eCurrSection c' = at_ [1; 0]%nat /\ eCurrKey c' = at_ [1; 0; 1]%nat).
Proof.
  split.
  - refine (proj1 (value_element_shape NilParentPanics Sample.tagValue
                     Sample.cursorAtKey Sample.int0 _)
              [1; 0; 0]%nat "Key" [("name", "wins")] [] _ _ _).
    + vm_compute. split; discriminate.
    + reflexivity.
    + reflexivity.
    + reflexivity.
  - refine (proj2 (value_element_shape NilParentPanics Sample.tagValue
                     Sample.cursorAtKey Sample.keyInline0 _)
              [1; 0]%nat "Section" [("name", "stats")]
              [Element "Key" [("name", "wins")] []] (VInt 2) _ _ _ _).
    + vm_compute. split; discriminate.
    + reflexivity.
    + reflexivity.
    + reflexivity.
    + reflexivity.
Defined.

(** ** Deferred values *)

(** C2, as the specification words it, fails twice. The test stream
    [file, key, value of type 7, value] has no section: the key is created
    under a [nil] section, so rendering panics or, when etree detaches the
    key, the document holds no value element at all. And the event that
    follows a value of type 7 in the stream is stored in the same bank only
    when it is filed there: a value sent by user 1 is not. *)
Lemma deferred_value_example_fails :
  render NilParentPanics Sample.tagValue (Sample.replay []) Sample.now Sample.owner
    Sample.deferredStream = Panic NilDereference /\
  render NilParentPanics Sample.tagName (Sample.replay []) Sample.now Sample.owner
    Sample.deferredStream = Panic NilDereference /\
  render NilParentDetaches Sample.tagValue (Sample.replay []) Sample.now Sample.owner
    Sample.deferredStream = Done (header (Sample.replay []) Sample.now Sample.owner) /\
  render NilParentDetaches Sample.tagName (Sample.replay []) Sample.now Sample.owner
    Sample.deferredStream = Done (header (Sample.replay []) Sample.now Sample.owner) /\
  (exists bs bucket bank,
     ByPlayer.NewBanksFromReplay
       (Sample.replay [Sample.fileA0; Sample.key0; Sample.deferred0; Sample.int1])
       = Done bs /\
     index bs 0 = Done bucket /\
     bucket !! "A" = Some (Some bank) /\
     GameEvents bank = [Sample.fileA0; Sample.key0; Sample.deferred0]) /\
  (exists bs bucket bank,
     BySlot.NewBanksFromReplay
       (Sample.replay [Sample.fileA0; Sample.key0; Sample.deferred0; Sample.int1])
       = Done bs /\
     index bs 0 = Done bucket /\
     bucket !! "A" = Some (Some bank) /\
     GameEvents bank = [Sample.fileA0; Sample.key0; Sample.deferred0]).
Proof.
  repeat split; try (vm_compute; reflexivity).
  - eexists _, _, _. repeat split; vm_compute; reflexivity.
  - eexists _, _, _. repeat split; vm_compute; reflexivity.
Qed.

(** C2, amended. A [BankValue] event of type 7 that is filed into a bank is
    followed there, in stream order, by the next event of the stream when
    that event is a content event at loop 0 filed into the same bucket.
    Rendering the type-7 event writes nothing and moves no pointer; when the
    next stored event is a [BankValue] of type 0-6 and the current key is in
    the document, the one element appended to that key carries the payload
    of the next event. For the stream [file, section, key, value of type 7,
    value] the key element holds one value element with the payload of the
    last event. *)
Theorem deferred_value_pairing {O} (rp : Rep) (bucketOf : Event -> Z)
    (ownerOf : Event -> Outcome O) (n : nat)
    (np : NilParent) (valueTag : Event -> string) (deferred next : Event) :
  EvtTypeName deferred = EvtTypeBankValue ->
  typeCode deferred = 7%Z ->
  (forall pre post st1 bucket bank,
     GameEvts rp = (pre ++ deferred :: next :: post)%list ->
     Forall atLoop0 pre -> atLoop0 deferred -> atLoop0 next ->
     isContentEvent next = true ->
     bucketOf next = bucketOf deferred ->
     collect rp bucketOf ownerOf pre (start n) = Done st1 ->
     index (banks st1) (bucketOf deferred) = Done bucket ->
     bucket !! bankNameCurr st1 = Some (Some bank) ->
     collectAll rp bucketOf ownerOf n =
       finish (collect rp bucketOf ownerOf post
                 (setBank st1 (bucketOf deferred) (bankNameCurr st1)
                    (Some {| r := r bank; Name := Name bank; Owner := Owner bank;
                             GameEvents := GameEvents bank ++ [deferred; next] |})
                    bucket (bankNameCurr st1)))) /\
  (forall c, renderEvent np valueTag c deferred = Done c) /\
  (forall c path ktag kattr kids rest,
     EvtTypeName next = EvtTypeBankValue ->
     (0 <= typeCode next <= 6)%Z ->
     eCurrKey c = at_ path ->
     lookupAt path (doc c) = Some (Element ktag kattr kids) ->
     exists kind c',
       index valueKinds (typeCode next) = Done kind /\
       renderEvents np valueTag c (deferred :: next :: rest)
         = renderEvents np valueTag c' rest /\
       lookupAt path (doc c') =
         Some (Element ktag kattr
                 (kids ++ [Element (valueTag next)
                             [(kind, Stringv (fields next) ["data"])] []])) /\
       eCurrSection c' = eCurrSection c /\ eCurrKey c' = eCurrKey c) /\
  (exists tree,
     render np valueTag (Sample.replay []) Sample.now Sample.owner
       Sample.deferredInSection = Done tree /\
     lookupAt [1; 7; 0]%nat tree =
       Some (Element "Key" [("name", "wins")]
               [Element (valueTag Sample.int0) [("int", "5")] []])).
Proof.
  intros Hname H7.
  assert (forall c, renderEvent np valueTag c deferred = Done c) as Hskip.
  { intros c. unfold renderEvent. rewrite Hname. cbn.
    by apply renderValue_deferred. }
  split; [|split; [exact Hskip|split]].
  - intros pre post st1 bucket bank Hevts Hpre Hd Hn Hcn Hsame Hst1 Hb Hbank.
    unfold collectAll. rewrite Hevts.
    rewrite (collect_two_content rp bucketOf ownerOf pre deferred next post
               _ st1 bucket bank); try done.
    + unfold appended. cbn [r Name Owner GameEvents].
      by rewrite <- app_assoc.
    + unfold isContentEvent. cbn [existsb]. rewrite Hname. reflexivity.
  - intros c path ktag kattr kids rest Hnext Hrange Hkey Hlook.
    destruct (standalone_value_written np valueTag c next path ktag kattr kids
                Hrange Hnext Hkey Hlook)
      as (kind & c' & Hkind & Hrender & Hdoc & Hptrs).
    exists kind, c'. split; [exact Hkind|]. split; [|by split].
    cbn [renderEvents]. rewrite Hskip. cbn [obind]. by rewrite Hrender.
  - destruct np; eexists; split; vm_compute; reflexivity.
Qed.

Lemma deferred_value_pairing_witness :
  (exists st1 bucket bank,
     collect (Sample.replay Sample.deferredInSection) ByPlayer.bucketOf
       (ByPlayer.ownerOf (Sample.replay Sample.deferredInSection))
       [Sample.fileA0; Sample.section0; Sample.key0] (start 2) = Done st1 /\
     index (banks st1) 0 = Done bucket /\
     bucket !! "A" = Some (Some bank) /\
     GameEvents bank = [Sample.fileA0; Sample.section0; Sample.key0] /\
     ByPlayer.NewBanksFromReplay (Sample.replay Sample.deferredInSection) =
       Done (banks (setBank st1 0 "A"
                      (Some {| r := r bank; Name := Name bank; Owner := Owner bank;
                               GameEvents := GameEvents bank
                                             ++ [Sample.deferred0; Sample.int0] |})
                      bucket "A"))) /\
  renderEvent NilParentPanics Sample.tagValue Sample.cursorAtKey Sample.deferred0
    = Done Sample.cursorAtKey /\
  (exists tree,
     render NilParentPanics Sample.tagValue (Sample.replay []) Sample.now Sample.owner
       Sample.deferredInSection = Done tree /\
     lookupAt [1; 7; 0]%nat tree =
       Some (Element "Key" [("name", "wins")]
               [Element "Value" [("int", "5")] []])).
Proof.
  pose proof (deferred_value_pairing
                (Sample.replay Sample.deferredInSection) ByPlayer.bucketOf
                (ByPlayer.ownerOf (Sample.replay Sample.deferredInSection)) 2
                NilParentPanics Sample.tagValue Sample.deferred0 Sample.int0
                eq_refl eq_refl) as (Hstore & Hskip & _ & Htree).
  split; [|split; [apply Hskip | exact Htree]].
  eexists _, _, _.
  split; [vm_compute; reflexivity|].
  split; [vm_compute; reflexivity|].
  split; [vm_compute; reflexivity|].
  split; [reflexivity|].
  refine (Hstore [Sample.fileA0; Sample.section0; Sample.key0] [] _ _ _ _ _ _ _ _ _ _ _ _).
  - reflexivity.
  - repeat constructor; vm_compute; discriminate.
  - vm_compute; discriminate.
  - vm_compute; discriminate.
  - reflexivity.
  - reflexivity.
  - vm_compute; reflexivity.
  - vm_compute; reflexivity.
  - vm_compute; reflexivity.
Defined.

(** ** Faults of the rendering loop *)

Lemma precededByOr_nil b P Q : precededByOr b P Q [].
Proof. intros pre evt post H. by destruct pre. Qed.

Lemma precededByOr_cons b P Q evt evts :
  precededByOr b P Q (evt :: evts) <->
  (Q evt -> b) /\ precededByOr (b \/ P evt) P Q evts.
Proof.
  split.
  - intros H. split.
    + intros HQ. destruct (H [] evt evts eq_refl HQ) as [Hb|Hex]; [done|].
      by apply Exists_nil in Hex.
    + intros pre e post -> HQ.
      destruct (H (evt :: pre) e post eq_refl HQ) as [Hb|Hex]; [by left; left|].
      apply Exists_cons in Hex as [HP|Hex]; [by left; right | by right].
  - intros [Hhead Htail] pre e post Heq HQ.
    destruct pre as [|e0 pre]; simplify_eq/=.
    + left. by apply Hhead.
    + destruct (Htail pre e post eq_refl HQ) as [[Hb|HP]|Hex].
      * by left.
      * right. by apply Exists_cons_hd.
      * right. by apply Exists_cons_tl.
Qed.

Lemma precededByOr_iff b b' P Q evts :
  (b <-> b') -> precededByOr b P Q evts <-> precededByOr b' P Q evts.
Proof.
  intros Hb. unfold precededByOr.
  split; intros H pre evt post Heq HQ;
    destruct (H pre evt post Heq HQ); tauto.
Qed.

Lemma precededBy_Or P Q evts :
  precededBy P Q evts <-> precededByOr False P Q evts.
Proof.
  unfold precededBy, precededByOr.
  split; intros H pre evt post Heq HQ.
  - right. by eapply H.
  - destruct (H pre evt post Heq HQ); [done | assumption].
Qed.

Lemma index_valueKinds_completes (n : Z) :
  completes (index valueKinds n) <-> (0 <= n <= 6)%Z.
Proof.
  split.
  - unfold index. destruct (Z.ltb_spec n 0); [done|].
    destruct (valueKinds !! Z.to_nat n) eqn:Hl; [|done].
    intros _. apply lookup_lt_Some in Hl. cbn in Hl. lia.
  - intros H. destruct (index_valueKinds n H) as (kind & -> & _). done.
Qed.

Lemma event_kinds_distinct :
  EvtTypeBankSection <> EvtTypeBankKey /\
  EvtTypeBankSection <> EvtTypeBankValue /\
  EvtTypeBankSection <> EvtTypeBankSignature /\
  EvtTypeBankKey <> EvtTypeBankValue /\
  EvtTypeBankKey <> EvtTypeBankSignature /\
  EvtTypeBankValue <> EvtTypeBankSignature.
Proof. repeat split; discriminate. Qed.

Lemma create_outcome np tok e d :
  match create np tok e d with
  | Done de => snd de <> nilPtr /\ (np = NilParentPanics -> e <> nilPtr)
  | Panic _ => np = NilParentPanics /\ e = nilPtr
  end.
Proof. destruct e, np; cbn; intuition (try congruence). Qed.

Lemma CreateAttr_outcome key value e d :
  e <> nilPtr -> exists d', CreateAttr key value e d = Done d'.
Proof. destruct e; cbn; intros H; [done|eauto..]. Qed.

Lemma renderValue_outcome np valueTag c evt :
  match renderValue np valueTag c evt with
  | Done c' =>
      (typeCode evt = 7%Z \/
       ((np = NilParentPanics -> eCurrKey c <> nilPtr) /\
        (0 <= typeCode evt <= 6)%Z)) /\
      eCurrSection c' = eCurrSection c /\ eCurrKey c' = eCurrKey c
  | Panic _ =>
      typeCode evt <> 7%Z /\
      ~ ((np = NilParentPanics -> eCurrKey c <> nilPtr) /\
         (0 <= typeCode evt <= 6)%Z)
  end.
Proof.
  unfold renderValue. fold (typeCode evt).
  destruct (decide (typeCode evt = 7)) as [H7|H7]; [by auto|].
  unfold CreateElement.
  pose proof (create_outcome np (Element (valueTag evt) [] []) (eCurrKey c) (doc c))
    as Hcreate.
  destruct (create _ _ _ _) as [[d e]|]; cbn [obind fst snd] in *.
  - destruct Hcreate as [He Hkey].
    pose proof (index_valueKinds_completes (typeCode evt)) as Hidx.
    destruct (index valueKinds (typeCode evt)) as [kind|]; cbn [obind] in *.
    + destruct (CreateAttr_outcome kind (Stringv (fields evt) ["data"]) e d He)
        as [d' ->].
      cbn in *. intuition.
    + cbn in Hidx. intuition.
  - intuition (try congruence).
Qed.

(** One turn of the loop: it completes exactly when the event is fault
    free for the pointers, and then the pointers are set as the event
    kind tells. *)
Lemma renderEvent_outcome np valueTag c evt :
  match renderEvent np valueTag c evt with
  | Done c' =>
      faultFree np (eCurrSection c) (eCurrKey c) evt /\
      (eCurrSection c' <> nilPtr <-> eCurrSection c <> nilPtr \/ opensSection evt) /\
      (eCurrKey c' <> nilPtr <-> eCurrKey c <> nilPtr \/ isKey evt)
  | Panic _ => ~ faultFree np (eCurrSection c) (eCurrKey c) evt
  end.
Proof.
  destruct event_kinds_distinct as (Hsk & Hsv & Hss & Hkv & Hks & Hvs).
  unfold renderEvent, faultFree, writesValue, isValueBearing, isWrittenValue,
    isKey, opensSection.
  destruct (decide (EvtTypeName evt = EvtTypeBankSection)) as [Hn|Hn1].
  { cbn. rewrite Hn. intuition (try congruence). }
  destruct (decide (EvtTypeName evt = EvtTypeBankKey)) as [Hn|Hn2].
  { rewrite Hn. unfold CreateElement.
    pose proof (create_outcome np (Element "Key" [] []) (eCurrSection c) (doc c))
      as Hcreate.
    destruct (create _ _ _ _) as [[d e]|]; cbn [obind fst snd] in *.
    - destruct Hcreate as [He Hsec].
      destruct (CreateAttr_outcome "name" (Stringv (fields evt) ["name"]) e d He)
        as [d' ->].
      cbn [obind].
      destruct (Value (fields evt) ["type"]) as [v|].
      + pose proof (renderValue_outcome np valueTag
                      {| doc := d'; eCurrSection := eCurrSection c; eCurrKey := e |}
                      evt) as Hval.
        destruct (renderValue _ _ _ _) as [c'|]; cbn [eCurrSection eCurrKey] in Hval.
        * destruct Hval as (Hok & -> & ->). intuition (try congruence).
        * intuition (try congruence).
      + cbn. intuition (try congruence).
    - intuition (try congruence). }
  destruct (decide (EvtTypeName evt = EvtTypeBankValue)) as [Hn|Hn3].
  { rewrite Hn.
    pose proof (renderValue_outcome np valueTag c evt) as Hval.
    destruct (renderValue _ _ _ _) as [c'|].
    - destruct Hval as (Hok & -> & ->). intuition (try congruence).
    - intuition (try congruence). }
  destruct (decide (EvtTypeName evt = EvtTypeBankSignature)) as [Hn|Hn4].
  { destruct (0 <? length (Array (fields evt) ["signature"]))%nat;
      cbn; rewrite Hn; intuition (try congruence). }
  intuition (try congruence).
Qed.

Lemma renderEvents_completes np valueTag c evts :
  completes (renderEvents np valueTag c evts) <->
  (np = NilParentPanics ->
   precededByOr (eCurrSection c <> nilPtr) opensSection isKey evts) /\
  (np = NilParentPanics ->
   precededByOr (eCurrKey c <> nilPtr) isKey isWrittenValue evts) /\
  typeCodesWithin 6 writesValue evts.
Proof.
  revert c. induction evts as [|evt evts IH]; intros c.
  - cbn. split; [|done]. intros _.
    split; [|split]; try (intros _; apply precededByOr_nil). constructor.
  - cbn [renderEvents].
    pose proof (renderEvent_outcome np valueTag c evt) as Hstep.
    destruct (renderEvent np valueTag c evt) as [c'|]; cbn [obind].
    + destruct Hstep as ((Hfs & Hfk & Hft) & Hsec & Hkey).
      rewrite IH. unfold typeCodesWithin. rewrite Forall_cons.
      split.
      * intros (Hs & Hk & Ht). split; [|split; [|by split]].
        -- intros Hnp. apply precededByOr_cons. split; [by apply Hfs|].
           apply (precededByOr_iff _ _ _ _ _ Hsec). by apply Hs.
        -- intros Hnp. apply precededByOr_cons. split; [by apply Hfk|].
           apply (precededByOr_iff _ _ _ _ _ Hkey). by apply Hk.
      * intros (Hs & Hk & _ & Ht). split; [|split; [|done]].
        -- intros Hnp. apply (precededByOr_iff _ _ _ _ _ Hsec).
           by apply (precededByOr_cons _ _ _ evt evts), Hs.
        -- intros Hnp. apply (precededByOr_iff _ _ _ _ _ Hkey).
           by apply (precededByOr_cons _ _ _ evt evts), Hk.
    + cbn. split; [done|]. intros (Hs & Hk & Ht). apply Hstep.
      unfold typeCodesWithin in Ht. apply Forall_cons in Ht as [Ht _].
      split; [|split; [|done]].
      * intros Hnp.
        exact (proj1 (proj1 (precededByOr_cons _ opensSection isKey evt evts)
                        (Hs Hnp))).
      * intros Hnp.
        exact (proj1 (proj1 (precededByOr_cons _ isKey isWrittenValue evt evts)
                        (Hk Hnp))).
Qed.

(** C10, as stated, fails: the stated preconditions are not needed for
    [WriteTo] to run through. A standalone value of type 7 with no key
    before it is skipped before any pointer is used, and a key after a
    signature finds [eCurrSection] set by the signature. *)
Lemma stated_preconditions_not_needed :
  ~ statedPreconditions [Sample.fileA0; Sample.deferred0] /\
  completes (ByPlayer.WriteTo NilParentPanics Sample.now
               (Sample.playerBank [Sample.fileA0; Sample.deferred0])) /\
  completes (ByPlayer.WriteTo NilParentDetaches Sample.now
               (Sample.playerBank [Sample.fileA0; Sample.deferred0])) /\
  completes (BySlot.WriteTo NilParentPanics Sample.now
               (Sample.slotBank [Sample.fileA0; Sample.deferred0])) /\
  completes (BySlot.WriteTo NilParentDetaches Sample.now
               (Sample.slotBank [Sample.fileA0; Sample.deferred0])) /\
  ~ statedPreconditions [Sample.fileA0; Sample.signature0; Sample.key0] /\
  completes (ByPlayer.WriteTo NilParentPanics Sample.now
               (Sample.playerBank [Sample.fileA0; Sample.signature0; Sample.key0])) /\
  completes (BySlot.WriteTo NilParentPanics Sample.now
               (Sample.slotBank [Sample.fileA0; Sample.signature0; Sample.key0])).
Proof.
  repeat split; try (vm_compute; exact I).
  - intros (_ & Hv & _).
    specialize (Hv [Sample.fileA0] Sample.deferred0 [] eq_refl eq_refl).
    apply Exists_cons in Hv as [Hv|Hv]; [discriminate Hv|].
    by apply Exists_nil in Hv.
  - intros (Hk & _ & _).
    specialize (Hk [Sample.fileA0; Sample.signature0] Sample.key0 [] eq_refl eq_refl).
    apply Exists_cons in Hk as [Hk|Hk]; [discriminate Hk|].
    apply Exists_cons in Hk as [Hk|Hk]; [discriminate Hk|].
    by apply Exists_nil in Hk.
Qed.

(** C10, amended: the rendering loop of [WriteTo] runs through exactly
    when every value-bearing event of a type other than 7 has its type code
    in 0-6 and, if creating a child of a [nil] element panics, every
    [BankKey] event is preceded by some [BankSection] or [BankSignature]
    event and every standalone [BankValue] event of a type other than 7 is
    preceded by some [BankKey] event. Otherwise [WriteTo] panics; it returns
    no error value. *)
Theorem WriteTo_completes_iff :
  (forall now bank,
     (completes (ByPlayer.WriteTo NilParentPanics now bank) <->
      precededBy opensSection isKey (GameEvents bank) /\
      precededBy isKey isWrittenValue (GameEvents bank) /\
      typeCodesWithin 6 writesValue (GameEvents bank)) /\
     (completes (ByPlayer.WriteTo NilParentDetaches now bank) <->
      typeCodesWithin 6 writesValue (GameEvents bank))) /\
  (forall now bank,
     (completes (BySlot.WriteTo NilParentPanics now bank) <->
      precededBy opensSection isKey (GameEvents bank) /\
      precededBy isKey isWrittenValue (GameEvents bank) /\
      typeCodesWithin 6 writesValue (GameEvents bank)) /\
     (completes (BySlot.WriteTo NilParentDetaches now bank) <->
      typeCodesWithin 6 writesValue (GameEvents bank))).
Proof.
  assert (forall valueTag rp now owner evts,
            (completes (writeBank NilParentPanics valueTag rp now owner evts) <->
             precededBy opensSection isKey evts /\
             precededBy isKey isWrittenValue evts /\
             typeCodesWithin 6 writesValue evts) /\
            (completes (writeBank NilParentDetaches valueTag rp now owner evts) <->
             typeCodesWithin 6 writesValue evts)) as Hloop.
  { intros valueTag rp now owner evts.
    unfold writeBank, render.
    split.
    - pose proof (renderEvents_completes NilParentPanics valueTag
                    {| doc := header rp now owner;
                       eCurrSection := nilPtr; eCurrKey := nilPtr |} evts) as H.
      destruct (renderEvents _ _ _ _); cbn in *; rewrite !precededBy_Or.
      + split; [intros _|done]. destruct H as [H _]. specialize (H I).
        destruct H as (Hs & Hk & Ht).
        split; [|split; [|done]].
        * eapply precededByOr_iff; [|by apply Hs]. intuition.
        * eapply precededByOr_iff; [|by apply Hk]. intuition.
      + split; [done|]. intros (Hs & Hk & Ht). apply H.
        split; [|split; [|done]]; intros _.
        * eapply precededByOr_iff; [|exact Hs]. intuition.
        * eapply precededByOr_iff; [|exact Hk]. intuition.
    - pose proof (renderEvents_completes NilParentDetaches valueTag
                    {| doc := header rp now owner;
                       eCurrSection := nilPtr; eCurrKey := nilPtr |} evts) as H.
      destruct (renderEvents _ _ _ _); cbn in *.
      + split; [intros _|done]. by apply H.
      + split; [done|]. intros Ht. apply H. by repeat split. }
  split; intros now bank; apply Hloop.
Qed.

(** ** The reading of the clock in the output *)

Lemma append_assoc (s1 s2 s3 : string) :
  (s1 +:+ s2) +:+ s3 = s1 +:+ (s2 +:+ s3).
Proof.
  induction s1 as [|ch s1 IH]; [reflexivity|].
  change (String ch ((s1 +:+ s2) +:+ s3) = String ch (s1 +:+ (s2 +:+ s3))).
  by rewrite IH.
Qed.

Lemma create_sameButClock np tok p pi c0 a body now1 now2 :
  belowBody p \/ p = root ->
  match create np tok p (stamped pi c0 a body now1),
        create np tok p (stamped pi c0 a body now2) with
  | Done de1, Done de2 =>
      snd de1 = snd de2 /\ belowBody (snd de1) /\ snd de1 <> nilPtr /\
      exists body',
        fst de1 = stamped pi c0 a body' now1 /\
        fst de2 = stamped pi c0 a body' now2
  | Panic w1, Panic w2 => w1 = w2
  | _, _ => False
  end.
Proof.
  intros [Hp| ->].
  - destruct p as [| |[|[|[|k1]] [|[|[|i]] q]]]; cbn in Hp; try done.
    + destruct np; cbn; [done|]. repeat split; try done. by exists body.
    + cbn. repeat split; try done. by exists body.
    + cbn. repeat split; try done. eexists. split; reflexivity.
  - cbn. repeat split; try done. eexists. split; reflexivity.
Qed.

Lemma CreateAttr_sameButClock key value p pi c0 a body now1 now2 :
  belowBody p -> p <> nilPtr ->
  exists body',
    CreateAttr key value p (stamped pi c0 a body now1)
      = Done (stamped pi c0 a body' now1) /\
    CreateAttr key value p (stamped pi c0 a body now2)
      = Done (stamped pi c0 a body' now2).
Proof.
  intros Hp Hnil.
  destruct p as [| |[|[|[|k1]] [|[|[|i]] q]]]; cbn in Hp; try done.
  - by exists body.
  - cbn. eexists. split; reflexivity.
Qed.

Section SameButClock.
Variable np : NilParent.
Variable valueTag : Event -> string.
Variables now1 now2 : string.

Local Abbreviation aligned := (aligned now1 now2).

Lemma renderValue_sameButClock c1 c2 evt :
  sameButClock now1 now2 c1 c2 ->
  aligned (renderValue np valueTag c1 evt) (renderValue np valueTag c2 evt).
Proof.
  intros Hsame. pose proof Hsame as Hsame'.
  destruct Hsame' as (pi & c0 & a & body & Hd1 & Hd2 & Hsec & Hkey & Hbs & Hbk).
  unfold renderValue.
  destruct (decide (Int (fields evt) ["type"] = 7)); [exact Hsame|].
  unfold CreateElement. rewrite Hd1, Hd2, <- Hkey.
  pose proof (create_sameButClock np (Element (valueTag evt) [] []) (eCurrKey c1)
                pi c0 a body now1 now2 (or_introl Hbk)) as Hcreate.
  destruct (create _ _ _ (stamped pi c0 a body now1)) as [[d1 e1]|];
    destruct (create _ _ _ (stamped pi c0 a body now2)) as [[d2 e2]|];
    cbn [obind fst snd] in *; try done.
  destruct Hcreate as (<- & Hbe & Hne & body' & -> & ->).
  destruct (index valueKinds (Int (fields evt) ["type"])) as [kind|];
    cbn [obind]; [|done].
  destruct (CreateAttr_sameButClock kind (Stringv (fields evt) ["data"]) e1
              pi c0 a body' now1 now2 Hbe Hne) as (body'' & -> & ->).
  cbn. exists pi, c0, a, body''. by repeat split.
Qed.

Lemma renderEvent_sameButClock c1 c2 evt :
  sameButClock now1 now2 c1 c2 ->
  aligned (renderEvent np valueTag c1 evt) (renderEvent np valueTag c2 evt).
Proof.
  intros Hsame. pose proof Hsame as Hsame'.
  destruct Hsame' as (pi & c0 & a & body & Hd1 & Hd2 & Hsec & Hkey & Hbs & Hbk).
  unfold renderEvent.
  destruct (decide (EvtTypeName evt = EvtTypeBankSection)).
  { unfold CreateElement. rewrite Hd1, Hd2.
    pose proof (create_sameButClock np (Element "Section" [] []) root
                  pi c0 a body now1 now2 (or_intror eq_refl)) as Hcreate.
    destruct (create _ _ _ (stamped pi c0 a body now1)) as [[d1 e1]|];
      destruct (create _ _ _ (stamped pi c0 a body now2)) as [[d2 e2]|];
      cbn [obind fst snd] in *; try done.
    destruct Hcreate as (<- & Hbe & Hne & body' & -> & ->).
    destruct (CreateAttr_sameButClock "name" (Stringv (fields evt) ["name"]) e1
                pi c0 a body' now1 now2 Hbe Hne) as (body'' & -> & ->).
    cbn. exists pi, c0, a, body''. by repeat split. }
  destruct (decide (EvtTypeName evt = EvtTypeBankKey)).
  { unfold CreateElement. rewrite Hd1, Hd2, <- Hsec.
    pose proof (create_sameButClock np (Element "Key" [] []) (eCurrSection c1)
                  pi c0 a body now1 now2 (or_introl Hbs)) as Hcreate.
    destruct (create _ _ _ (stamped pi c0 a body now1)) as [[d1 e1]|];
      destruct (create _ _ _ (stamped pi c0 a body now2)) as [[d2 e2]|];
      cbn [obind fst snd] in *; try done.
    destruct Hcreate as (<- & Hbe & Hne & body' & -> & ->).
    destruct (CreateAttr_sameButClock "name" (Stringv (fields evt) ["name"]) e1
                pi c0 a body' now1 now2 Hbe Hne) as (body'' & -> & ->).
    cbn [obind].
    assert (sameButClock now1 now2
              {| doc := stamped pi c0 a body'' now1;
                 eCurrSection := eCurrSection c1; eCurrKey := e1 |}
              {| doc := stamped pi c0 a body'' now2;
                 eCurrSection := eCurrSection c1; eCurrKey := e1 |}) as Hsame'.
    { exists pi, c0, a, body''. by repeat split. }
    destruct (Value (fields evt) ["type"]); [|exact Hsame'].
    by apply renderValue_sameButClock. }
  destruct (decide (EvtTypeName evt = EvtTypeBankValue)).
  { by apply renderValue_sameButClock. }
  destruct (decide (EvtTypeName evt = EvtTypeBankSignature)); [|exact Hsame].
  unfold CreateElement. rewrite Hd1, Hd2.
  pose proof (create_sameButClock np (Element "Signature" [] []) root
                pi c0 a body now1 now2 (or_intror eq_refl)) as Hcreate.
  destruct (create _ _ _ (stamped pi c0 a body now1)) as [[d1 e1]|];
    destruct (create _ _ _ (stamped pi c0 a body now2)) as [[d2 e2]|];
    cbn [obind fst snd] in *; try done.
  destruct Hcreate as (<- & Hbe & Hne & body' & -> & ->).
  destruct (0 <? length (Array (fields evt) ["signature"]))%nat.
  - destruct (CreateAttr_sameButClock "value"
                (signatureHex (Array (fields evt) ["signature"])) e1
                pi c0 a body' now1 now2 Hbe Hne) as (body'' & -> & ->).
    cbn. exists pi, c0, a, body''. by repeat split.
  - cbn. exists pi, c0, a, body'. by repeat split.
Qed.

Lemma renderEvents_sameButClock evts c1 c2 :
  sameButClock now1 now2 c1 c2 ->
  aligned (renderEvents np valueTag c1 evts) (renderEvents np valueTag c2 evts).
Proof.
  revert c1 c2. induction evts as [|evt evts IH]; intros c1 c2 Hsame.
  - exact Hsame.
  - cbn [renderEvents].
    pose proof (renderEvent_sameButClock c1 c2 evt Hsame) as Hstep.
    unfold aligned in Hstep.
    destruct (renderEvent np valueTag c1 evt) as [c1'|];
      destruct (renderEvent np valueTag c2 evt) as [c2'|]; try done.
    cbn [obind]. by apply IH.
Qed.

End SameButClock.

Lemma write_stamped pi c0 a body now :
  write (stamped pi c0 a body now)
  = beforeClock pi c0 a +:+ "<!--" +:+ now +:+ "-->" +:+ afterClock body.
Proof.
  unfold write, stamped, beforeClock, afterClock.
  cbn [children map joinAll writeToken].
  repeat rewrite append_assoc. reflexivity.
Qed.

Lemma header_stamped rp owner :
  exists pi c0 a body, forall now', header rp now' owner = stamped pi c0 a body now'.
Proof. unfold header, stamped. by eexists _, _, _, _. Qed.

(** C3, as stated, fails: the second comment of the document is the reading
    of the clock, so two calls of [WriteTo] on the same bank one second apart
    write different bytes. *)
Lemma clock_changes_output :
  ByPlayer.WriteTo NilParentPanics Sample.now
    (Sample.playerBank Sample.deferredInSection)
  <> ByPlayer.WriteTo NilParentPanics Sample.later
       (Sample.playerBank Sample.deferredInSection) /\
  ByPlayer.WriteTo NilParentDetaches Sample.now
    (Sample.playerBank Sample.deferredInSection)
  <> ByPlayer.WriteTo NilParentDetaches Sample.later
       (Sample.playerBank Sample.deferredInSection) /\
  BySlot.WriteTo NilParentPanics Sample.now
    (Sample.slotBank Sample.deferredInSection)
  <> BySlot.WriteTo NilParentPanics Sample.later
       (Sample.slotBank Sample.deferredInSection) /\
  BySlot.WriteTo NilParentDetaches Sample.now
    (Sample.slotBank Sample.deferredInSection)
  <> BySlot.WriteTo NilParentDetaches Sample.later
       (Sample.slotBank Sample.deferredInSection).
Proof.
  repeat split; intros H; vm_compute in H; discriminate H.
Qed.

(** C3, amended: the bytes [WriteTo] writes are a function of the stored
    event sequence, the header and details fields, the owner and the reading
    of the clock, and they depend on the clock only through the one comment
    that holds its reading: either every call panics in the same way, or
    there are two byte strings, the same for every call, between which the
    comment with the reading of the clock is written. *)
Theorem WriteTo_clock_only_in_comment :
  (forall np bank,
     (exists why, forall now, ByPlayer.WriteTo np now bank = Panic why) \/
     (exists before after, forall now,
        ByPlayer.WriteTo np now bank
        = Done (before +:+ "<!--" +:+ now +:+ "-->" +:+ after))) /\
  (forall np bank,
     (exists why, forall now, BySlot.WriteTo np now bank = Panic why) \/
     (exists before after, forall now,
        BySlot.WriteTo np now bank
        = Done (before +:+ "<!--" +:+ now +:+ "-->" +:+ after))).
Proof.
  assert (forall np valueTag rp owner evts,
            (exists why, forall now,
               writeBank np valueTag rp now owner evts = Panic why) \/
            (exists before after, forall now,
               writeBank np valueTag rp now owner evts
               = Done (before +:+ "<!--" +:+ now +:+ "-->" +:+ after))) as Hclock.
  { intros np valueTag rp owner evts.
    destruct (header_stamped rp owner) as (pi & c0 & a & body & Hheader).
    destruct (renderEvents np valueTag
                {| doc := header rp "" owner;
                   eCurrSection := nilPtr; eCurrKey := nilPtr |} evts)
      as [cref|why] eqn:Href.
    all: assert (forall now,
              aligned "" now
                (renderEvents np valueTag
                   {| doc := header rp "" owner;
                      eCurrSection := nilPtr; eCurrKey := nilPtr |} evts)
                (renderEvents np valueTag
                   {| doc := header rp now owner;
                      eCurrSection := nilPtr; eCurrKey := nilPtr |} evts)) as Hrun
      by (intros now; apply renderEvents_sameButClock;
          exists pi, c0, a, body; cbn; by rewrite !Hheader).
    all: setoid_rewrite Href in Hrun.
    all: unfold writeBank, render.
    - right.
      pose proof (Hrun "") as Hself. rewrite Href in Hself.
      destruct Hself as (pi' & c0' & a' & body' & Hd & _).
      exists (beforeClock pi' c0' a'), (afterClock body'). intros now.
      specialize (Hrun now). unfold aligned in Hrun.
      destruct (renderEvents np valueTag
                  {| doc := header rp now owner;
                     eCurrSection := nilPtr; eCurrKey := nilPtr |} evts)
        as [c|]; [|done].
      destruct Hrun as (pi2 & c2 & a2 & body2 & Hd1 & Hd2 & _).
      rewrite Hd in Hd1. injection Hd1 as -> -> -> ->.
      cbn. by rewrite Hd2, write_stamped.
    - left. exists why. intros now.
      specialize (Hrun now). unfold aligned in Hrun.
      destruct (renderEvents np valueTag
                  {| doc := header rp now owner;
                     eCurrSection := nilPtr; eCurrKey := nilPtr |} evts)
        as [c|why']; [done|].
      cbn. by subst. }
  split; intros np bank; apply Hclock.
Qed.

(** * Properties of session construction *)

Section SessionFacts.
Import repm.
Context {ProtocolT DetailsT InitDataT AttrEvtsT MetadataT TrackerT : Type}.
Variable d : @Decoder ProtocolT DetailsT InitDataT AttrEvtsT MetadataT TrackerT.

Lemma newRepBody_exits mpq game message tracker :
  exists closeMPQ exit,
    newRepBody d mpq game message tracker = Leave closeMPQ exit /\
    wellLeft mpq closeMPQ exit.
Proof.
  unfold newRepBody, readWithBackup, readSection, call, ret, sbind.
  repeat match goal with
         | |- context [match ?x with _ => _ end] =>
             lazymatch x with
             | context [match _ with _ => _ end] => fail
             | _ => destruct x
             end
         end;
    (eexists _, _; split; [reflexivity|]); cbn; try done.
Qed.

(** The body panics only when a call faults. *)
Lemma faultless_body mpq game message tracker closeMPQ :
  faultless d mpq ->
  newRepBody d mpq game message tracker <> Leave closeMPQ Panicked.
Proof.
  intros (Hu & Hf & Hh & Hp & Hd & Hi & Ha & Hm & Hg & Hs & Ht & Hx).
  unfold newRepBody, readWithBackup, readSection, call, ret, sbind.
  repeat match goal with
         | |- context [match ?x with _ => _ end] =>
             lazymatch x with
             | context [match _ with _ => _ end] => fail
             | _ => destruct x eqn:?
             end
         end;
    try discriminate;
    exfalso;
    solve [ eauto
          | eapply Hf; eauto | eapply Hh; eauto | eapply Hp; eauto
          | eapply Hd; eauto | eapply Hi; eauto | eapply Ha; eauto
          | eapply Hm; eauto | eapply Hg; eauto | eapply Hs; eauto
          | eapply Ht; eauto | eapply Hx; eauto ].
Qed.

Lemma newRep_deferred mpq game message tracker w :
  exists closeMPQ exit,
    newRepBody d mpq game message tracker = Leave closeMPQ exit /\
    wellLeft mpq closeMPQ exit /\
    newRep d mpq game message tracker w = deferred mpq closeMPQ exit w.
Proof.
  destruct (newRepBody_exits mpq game message tracker)
    as (closeMPQ & exit & Hbody & Hwell).
  exists closeMPQ, exit. repeat split; try done.
  unfold newRep. by rewrite Hbody.
Qed.

(** The archive is closed once on every path that returns an error and
    not at all on the path that returns the session. *)
Lemma newRep_closes mpq game message tracker w res w' :
  newRep d mpq game message tracker w = Done (res, w') ->
  (res.2 <> None -> res.1 = None /\ closes w' = S (closes w)) /\
  (res.2 = None ->
   exists rep, res.1 = Some rep /\ m rep = Some mpq /\ w' = w).
Proof.
  destruct (newRep_deferred mpq game message tracker w)
    as (closeMPQ & exit & Hbody & Hwell & ->).
  destruct exit as [[[rep|] [e|]]|]; cbn in *; try done.
  - destruct Hwell as [-> Hm]. intros [= <- <-]. cbn. split; [done|eauto].
  - destruct Hwell as [-> _]. by intros [= <- <-].
  - subst closeMPQ. by intros [= <- <-].
Qed.

End SessionFacts.

(** C7, as stated, fails in its last part: [Close] keeps no record of
    having been called. On the session that [newRep] returns the first
    [Close] closes the archive and the second [Close] calls the archive's
    [Close] again and returns its error. *)
Lemma double_close_reaches_archive :
  exists rep,
    repm.newRep SampleSession.plain SampleSession.fileArchive true true true
      SampleSession.fresh
    = Done ((Some rep, None), SampleSession.fresh) /\
    repm.Close rep SampleSession.fresh = (None, {| repm.closes := 1 |}) /\
    repm.Close rep {| repm.closes := 1 |}
    = (Some repm.errClose, {| repm.closes := 2 |}).
Proof.
  eexists. split; [vm_compute; reflexivity|]. split; reflexivity.
Qed.

(** C7, amended: on every path of [newRep] that returns an error, a
    recovered panic included, the archive handle is closed exactly once and
    no session is returned; on the path that returns the session the handle
    is not closed and the session holds it. [Close] on the session calls the
    handle's [Close] once per call, so a second [Close] reaches the handle a
    second time and returns what the handle returns; [Close] does nothing
    only for a session without a handle. *)
Theorem archive_release
    {ProtocolT DetailsT InitDataT AttrEvtsT MetadataT TrackerT : Type}
    (d : @repm.Decoder ProtocolT DetailsT InitDataT AttrEvtsT MetadataT TrackerT)
    (mpq : repm.MPQ) (game message tracker : bool) (w : repm.World)
    (res : repm.Results) (w' : repm.World) :
  repm.newRep d mpq game message tracker w = Done (res, w') ->
  (res.2 <> None -> res.1 = None /\ repm.closes w' = S (repm.closes w)) /\
  (res.2 = None ->
   exists rep,
     res.1 = Some rep /\ repm.m rep = Some mpq /\ w' = w /\
     repm.Close rep w
       = (repm.closeResult mpq (repm.closes w),
          {| repm.closes := S (repm.closes w) |}) /\
     repm.Close rep (repm.Close rep w).2
       = (repm.closeResult mpq (S (repm.closes w)),
          {| repm.closes := S (S (repm.closes w)) |})) /\
  (forall rep : @repm.Rep ProtocolT DetailsT InitDataT AttrEvtsT MetadataT TrackerT,
     repm.m rep = None -> repm.Close rep w' = (None, w')).
Proof.
  intros Hnew.
  destruct (newRep_closes d mpq game message tracker w res w' Hnew)
    as [Herr Hok].
  split; [exact Herr|]. split.
  - intros Hnone. destruct (Hok Hnone) as (rep & Hrep & Hm & ->).
    exists rep. repeat split; try done.
    + unfold repm.Close. by rewrite Hm.
    + unfold repm.Close. by rewrite Hm.
  - intros rep Hm. unfold repm.Close. by rewrite Hm.
Qed.

Lemma archive_release_witness :
  (repm.newRep SampleSession.faulting SampleSession.fileArchive true true true
     SampleSession.fresh
   = Done ((None, Some repm.ErrDecoding), {| repm.closes := 1 |}) /\
   (None : option (@repm.Rep unit unit unit unit unit unit)) = None /\
   repm.closes {| repm.closes := 1 |} = S (repm.closes SampleSession.fresh)) /\
  (exists rep,
     repm.newRep SampleSession.plain SampleSession.fileArchive true true true
       SampleSession.fresh
     = Done ((Some rep, None), SampleSession.fresh) /\
     repm.m rep = Some SampleSession.fileArchive /\
     repm.Close rep (repm.Close rep SampleSession.fresh).2
     = (Some repm.errClose, {| repm.closes := 2 |})).
Proof.
  split.
  - split; [reflexivity|].
    refine (proj1 (archive_release SampleSession.faulting SampleSession.fileArchive
                     true true true SampleSession.fresh
                     (None, Some repm.ErrDecoding) {| repm.closes := 1 |}
                     eq_refl) _).
    discriminate.
  - destruct (proj1 (proj2 (archive_release SampleSession.plain
                              SampleSession.fileArchive true true true
                              SampleSession.fresh _ _ eq_refl)) eq_refl)
      as (rep & Hrep & Hm & _ & _ & Hclose).
    exists rep. cbn in Hrep. injection Hrep as <-.
    split; [reflexivity|]. split; [exact Hm|exact Hclose].
Defined.

(** * Further properties of bank reconstruction *)

Lemma reached_atLoop0 evts : Forall atLoop0 (reached evts).
Proof.
  induction evts as [|evt evts IH]; cbn [reached]; [constructor|].
  destruct (Z.ltb_spec 0 (Loop evt)); constructor; [|done].
  unfold atLoop0. lia.
Qed.

Lemma isBankEvent_split evt :
  isBankEvent evt = true ->
  EvtTypeName evt <> EvtTypeBankFile ->
  isContentEvent evt = true.
Proof.
  unfold isBankEvent, isContentEvent. cbn [existsb]. intros H Hf.
  rewrite (bool_decide_eq_false_2 _ Hf) in H. exact H.
Qed.

Lemma isBankEvent_file evt :
  EvtTypeName evt = EvtTypeBankFile -> isBankEvent evt = true.
Proof.
  unfold isBankEvent. cbn [existsb]. intros ->. reflexivity.
Qed.

Section PassFacts.
Context {O : Type}.
Variable rp : Rep.
Variable bucketOf : Event -> Z.
Variable ownerOf : Event -> Outcome O.

Local Abbreviation collect1 := (collect rp bucketOf ownerOf).
Local Abbreviation route1 := (route rp bucketOf ownerOf).

(** The pass acts on the bank events it reaches and on nothing else. *)
Lemma collect_bankEvents evts st :
  collect1 evts st = collect1 (bankEvents evts) st.
Proof.
  revert st. induction evts as [|evt evts IH]; intros st; [reflexivity|].
  unfold bankEvents. cbn [collect reached].
  destruct (Z.ltb_spec 0 (Loop evt)) as [Hl|Hl]; [reflexivity|].
  rewrite filter_cons.
  destruct (isBankEvent evt) eqn:Hb; cbn [negb].
  - rewrite decide_True by done. cbn [collect].
    destruct (Z.ltb_spec 0 (Loop evt)); [lia|]. rewrite Hb. cbn [negb].
    destruct (route1 st evt); simpl; [apply IH|reflexivity].
  - rewrite decide_False by (by intros [=]). apply IH.
Qed.

(** A property of the state that every step of the loop keeps holds when
    the loop is left; [seen] lists the events gone through. *)
Lemma collect_invariant (I : list Event -> Collected O -> Prop) :
  (forall seen st evt st',
     I seen st -> atLoop0 evt -> isBankEvent evt = true ->
     route1 st evt = Done st' -> I (seen ++ [evt])%list st') ->
  (forall seen st evt,
     I seen st -> atLoop0 evt -> isBankEvent evt = false ->
     I (seen ++ [evt])%list st) ->
  forall evts seen st st',
    I seen st -> collect1 evts st = Done st' -> I (seen ++ reached evts)%list st'.
Proof.
  intros Hroute Hskip. induction evts as [|evt evts IH]; intros seen st st' HI.
  - intros [= <-]. cbn [reached]. by rewrite app_nil_r.
  - cbn [collect reached].
    destruct (Z.ltb_spec 0 (Loop evt)) as [Hl|Hl].
    { intros [= <-]. by rewrite app_nil_r. }
    rewrite (cons_middle evt), app_assoc.
    destruct (isBankEvent evt) eqn:Hb; cbn [negb].
    + destruct (route1 st evt) as [st1|] eqn:Hr; simpl; [|discriminate].
      apply IH. by apply (Hroute seen st evt).
    + apply IH. by apply Hskip.
Qed.

(** The slice of maps keeps its length. *)
Lemma route_length st evt st' :
  route1 st evt = Done st' -> length (banks st') = length (banks st).
Proof.
  unfold route.
  destruct (decide (EvtTypeName evt = EvtTypeBankFile)).
  - destruct (ownerOf evt); simpl; [|discriminate].
    destruct (index _ _); simpl; [|discriminate].
    intros [= <-]. simpl. apply length_insert.
  - destruct (index _ _); simpl; [|discriminate].
    destruct (_ !! _) as [[?|]|]; intros [= <-]; try reflexivity.
    simpl. apply length_insert.
Qed.

Lemma collect_length evts st st' :
  collect1 evts st = Done st' -> length (banks st') = length (banks st).
Proof.
  intros H.
  apply (collect_invariant (fun _ s => length (banks s) = length (banks st)))
    with (evts := evts) (seen := []) (st := st); try done.
  intros seen s evt s' Hs _ _ Hr. by rewrite (route_length _ _ _ Hr).
Qed.

(** Every entry of every map is a well-formed bank. *)
Lemma route_wellFormed st evt st' :
  isBankEvent evt = true ->
  Forall (map_Forall (wellFormed rp ownerOf)) (banks st) ->
  route1 st evt = Done st' ->
  Forall (map_Forall (wellFormed rp ownerOf)) (banks st').
Proof.
  intros Hb Hst. unfold route.
  destruct (decide (EvtTypeName evt = EvtTypeBankFile)) as [Hf|Hf].
  - destruct (ownerOf evt) as [owner|] eqn:Ho; simpl; [|discriminate].
    destruct (index (banks st) (bucketOf evt)) as [bucket|] eqn:Hi; simpl; [|discriminate].
    intros [= <-]. simpl. apply index_Done in Hi as [_ Hi].
    apply Forall_insert; [done|].
    apply map_Forall_insert_2.
    + unfold NewBank. rewrite decide_True by done.
      eexists _, evt, []. repeat split; done.
    + by apply (Forall_lookup_1 _ _ _ _ Hst Hi).
  - destruct (index (banks st) (bucketOf evt)) as [bucket|] eqn:Hi; simpl; [|discriminate].
    apply index_Done in Hi as [_ Hi].
    pose proof (Forall_lookup_1 _ _ _ _ Hst Hi) as Hbucket.
    destruct (bucket !! bankNameCurr st) as [[bank|]|] eqn:Hcurr;
      intros [= <-]; try done.
    simpl. apply Forall_insert; [done|].
    apply map_Forall_insert_2; [|done].
    destruct (Hbucket _ _ Hcurr)
      as (bank' & file & rest & [= <-] & Hr & Hn & He & Hfile & Hname & Hown & Hrest).
    rewrite (AddGameEvent_content bank evt) by (by apply isBankEvent_split).
    eexists _, file, (rest ++ [evt])%list. simpl.
    repeat split; try done.
    + unfold appended. simpl. by rewrite He.
    + apply Forall_app. split; [done|].
      constructor; [|constructor]. by apply isBankEvent_split.
Qed.

Lemma inOrder_more seen (st : Collected O) evt :
  inOrder bucketOf seen st -> inOrder bucketOf (seen ++ [evt])%list st.
Proof.
  intros H i bucket name bank Hi Hn.
  rewrite !filter_app. by apply sublist_inserts_r, (H i bucket name).
Qed.

Lemma route_inOrder seen st evt st' :
  isBankEvent evt = true ->
  inOrder bucketOf seen st ->
  route1 st evt = Done st' ->
  inOrder bucketOf (seen ++ [evt])%list st'.
Proof.
  intros Hb Hst. unfold route.
  assert (forall (i : nat) l,
            Z.of_nat i = bucketOf evt ->
            sublist l (filter (fun e => bucketOf e = Z.of_nat i)
                         (filter (fun e => isBankEvent e = true) seen)) ->
            sublist (l ++ [evt])%list
              (filter (fun e => bucketOf e = Z.of_nat i)
                 (filter (fun e => isBankEvent e = true) (seen ++ [evt])%list)))
    as Hsnoc.
  { intros i l Hi Hl. rewrite !filter_app.
    apply sublist_app; [done|].
    rewrite (filter_cons _ evt), decide_True by done.
    rewrite filter_nil, (filter_cons _ evt), decide_True by done.
    by rewrite filter_nil. }
  assert (forall bucket' name',
            (0 <= bucketOf evt)%Z ->
            banks st !! Z.to_nat (bucketOf evt) = Some bucket' ->
            forall entry,
            (forall bank, entry = Some bank ->
               sublist (GameEvents bank)
                 (filter (fun e => bucketOf e = bucketOf evt)
                    (filter (fun e => isBankEvent e = true) (seen ++ [evt])%list))) ->
            inOrder bucketOf (seen ++ [evt])%list
              {| banks := <[Z.to_nat (bucketOf evt) := <[name' := entry]> bucket']> (banks st);
                 bankNameCurr := name' |}) as Hset.
  { intros bucket' name' Hpos Hi entry Hentry i bucket name bank. simpl.
    pose proof (lookup_lt_Some _ _ _ Hi) as Hlen.
    destruct (decide (i = Z.to_nat (bucketOf evt))) as [->|Hne].
    - rewrite list_lookup_insert_eq by done. intros [= <-].
      rewrite Z2Nat.id by done.
      destruct (decide (name = name')) as [->|Hnn].
      + rewrite lookup_insert_eq. intros [= ->]. by apply Hentry.
      + rewrite lookup_insert_ne by done. intros Hn.
        pose proof (Hst _ _ _ _ Hi Hn) as Hsub.
        rewrite Z2Nat.id in Hsub by done.
        rewrite !filter_app. by apply sublist_inserts_r.
    - rewrite list_lookup_insert_ne by done. intros Hi' Hn.
      by apply (inOrder_more seen st evt Hst i bucket name). }
  destruct (decide (EvtTypeName evt = EvtTypeBankFile)) as [Hf|Hf].
  - destruct (ownerOf evt) as [owner|]; simpl; [|discriminate].
    destruct (index (banks st) (bucketOf evt)) as [bucket|] eqn:Hi; simpl; [|discriminate].
    intros [= <-]. apply index_Done in Hi as [Hpos Hi].
    apply (Hset bucket _ Hpos Hi).
    unfold NewBank. rewrite decide_True by done. intros bank [= <-]. simpl.
    specialize (Hsnoc (Z.to_nat (bucketOf evt)) []).
    rewrite Z2Nat.id in Hsnoc by done.
    apply Hsnoc; [done|apply sublist_nil_l].
  - destruct (index (banks st) (bucketOf evt)) as [bucket|] eqn:Hi; simpl; [|discriminate].
    destruct (bucket !! bankNameCurr st) as [[bank|]|] eqn:Hcurr;
      intros [= <-]; try by apply inOrder_more.
    apply index_Done in Hi as [Hpos Hi].
    apply (Hset bucket (bankNameCurr st) Hpos Hi). intros bank' [= <-].
    rewrite (AddGameEvent_content bank evt) by (by apply isBankEvent_split).
    simpl.
    specialize (Hsnoc (Z.to_nat (bucketOf evt)) (GameEvents bank)).
    rewrite Z2Nat.id in Hsnoc by done.
    apply Hsnoc; [done|].
    pose proof (Hst _ _ _ _ Hi Hcurr) as Hsub.
    by rewrite Z2Nat.id in Hsub by done.
Qed.

(** When the loop runs to its end. [n] is the number of maps. *)
Lemma route_completes st evt :
  (forall e, (0 <= bucketOf e < Z.of_nat (length (banks st)))%Z -> completes (ownerOf e)) ->
  completes (route1 st evt) <->
  (0 <= bucketOf evt < Z.of_nat (length (banks st)))%Z.
Proof.
  intros Hown. unfold route.
  assert (completes (index (banks st) (bucketOf evt)) <->
          (0 <= bucketOf evt < Z.of_nat (length (banks st)))%Z) as Hidx.
  { unfold index. destruct (Z.ltb_spec (bucketOf evt) 0); simpl; [lia|].
    destruct (banks st !! Z.to_nat (bucketOf evt)) eqn:Hl; simpl.
    - apply lookup_lt_Some in Hl. lia.
    - apply lookup_ge_None in Hl. lia. }
  destruct (decide (EvtTypeName evt = EvtTypeBankFile)).
  - split.
    + destruct (ownerOf evt); simpl; [|done].
      destruct (index (banks st) (bucketOf evt)); simpl; [|done].
      intros _. by apply Hidx.
    + intros Hr. specialize (Hown evt Hr).
      destruct (ownerOf evt); simpl; [|done].
      apply Hidx in Hr. by destruct (index (banks st) (bucketOf evt)).
  - rewrite <- Hidx.
    destruct (index (banks st) (bucketOf evt)); simpl; [|done].
    by destruct (_ !! _) as [[?|]|].
Qed.

Lemma collect_completes (n : nat) evts st :
  (forall e, (0 <= bucketOf e < Z.of_nat n)%Z -> completes (ownerOf e)) ->
  length (banks st) = n ->
  completes (collect1 evts st) <->
  Forall (fun evt => (0 <= bucketOf evt < Z.of_nat n)%Z) (bankEvents evts).
Proof.
  intros Hown. revert st. unfold bankEvents.
  induction evts as [|evt evts IH]; intros st Hn; cbn [collect reached].
  - rewrite filter_nil. split; [constructor|done].
  - destruct (Z.ltb_spec 0 (Loop evt)) as [Hl|Hl].
    { rewrite filter_nil. split; [constructor|done]. }
    rewrite filter_cons.
    destruct (isBankEvent evt) eqn:Hb; cbn [negb].
    + rewrite decide_True by done. rewrite Forall_cons.
      pose proof (route_completes st evt) as Hr. rewrite Hn in Hr.
      specialize (Hr Hown).
      destruct (route1 st evt) as [st1|] eqn:Hst1; simpl.
      * rewrite IH by (by rewrite (route_length _ _ _ Hst1)).
        simpl in Hr. tauto.
      * simpl in Hr. tauto.
    + rewrite decide_False by (by intros [=]). by apply IH.
Qed.

End PassFacts.

(** X1. The pass over the game events acts on the bank events before the
    first event past loop 0 and on nothing else: events of other types are
    skipped, and whatever follows the first event with a loop above 0 is
    never read, bank events at loop 0 included. *)
Theorem pass_reads_reached_bank_events {O} (rp : Rep) (bucketOf : Event -> Z)
    (ownerOf : Event -> Outcome O) (st : Collected O)
    (pre : list Event) (evt : Event) (post : list Event) :
  Forall atLoop0 pre ->
  (0 < Loop evt)%Z ->
  collect rp bucketOf ownerOf (pre ++ evt :: post) st
  = collect rp bucketOf ownerOf (filter (fun e => isBankEvent e = true) pre) st.
Proof.
  intros Hpre Hl.
  assert (reached (pre ++ evt :: post) = pre) as Hcut.
  { induction Hpre as [|e pre He _ IH]; cbn [app reached].
    - by destruct (Z.ltb_spec 0 (Loop evt)); [|lia].
    - unfold atLoop0 in He. destruct (Z.ltb_spec 0 (Loop e)); [lia|].
      by rewrite IH. }
  rewrite collect_bankEvents. unfold bankEvents. by rewrite Hcut.
Qed.

Lemma pass_reads_reached_bank_events_witness :
  collect (Sample.replay []) ByPlayer.bucketOf (ByPlayer.ownerOf (Sample.replay []))
    ([Sample.fileA0; Cases.cameraUpdate] ++ Cases.lateKey :: [Sample.section0])
    (start 2)
  = collect (Sample.replay []) ByPlayer.bucketOf (ByPlayer.ownerOf (Sample.replay []))
      (filter (fun e => isBankEvent e = true) [Sample.fileA0; Cases.cameraUpdate])
      (start 2).
Proof.
  apply (pass_reads_reached_bank_events (Sample.replay []) ByPlayer.bucketOf
           (ByPlayer.ownerOf (Sample.replay [])) (start 2)
           [Sample.fileA0; Cases.cameraUpdate] Cases.lateKey [Sample.section0]).
  - repeat constructor; vm_compute; discriminate.
  - vm_compute. reflexivity.
Defined.

Lemma finish_Done {O} (c : Outcome (Collected O)) bs :
  finish c = Done bs <-> exists st, c = Done st /\ banks st = bs.
Proof.
  destruct c as [st|]; simpl; split.
  - intros [= <-]. by exists st.
  - by intros (st' & [= <-] & <-).
  - discriminate.
  - by intros (st' & [=] & _).
Qed.

Lemma collect_wellFormed {O} rp bucketOf (ownerOf : Event -> Outcome O) n evts st :
  collect rp bucketOf ownerOf evts (start n) = Done st ->
  Forall (map_Forall (wellFormed rp ownerOf)) (banks st).
Proof.
  intros H.
  apply (collect_invariant rp bucketOf ownerOf
           (fun _ s => Forall (map_Forall (wellFormed rp ownerOf)) (banks s)))
    with (evts := evts) (seen := []) (st := start n); try done.
  - intros seen s evt s' Hs _ Hb Hr. by apply (route_wellFormed rp bucketOf ownerOf s evt).
  - simpl. apply Forall_replicate. apply map_Forall_empty.
Qed.

Lemma collect_inOrder {O} rp bucketOf (ownerOf : Event -> Outcome O) n evts st :
  collect rp bucketOf ownerOf evts (start n) = Done st ->
  inOrder bucketOf (reached evts) st.
Proof.
  intros H.
  apply (collect_invariant rp bucketOf ownerOf (inOrder bucketOf))
    with (evts := evts) (seen := []) (st := start n); try done.
  - intros seen s evt s' Hs _ Hb Hr. by apply (route_inOrder rp bucketOf ownerOf seen s evt).
  - intros seen s evt Hs _ _. by apply inOrder_more.
  - intros i bucket name bank Hi. simpl in Hi.
    apply lookup_replicate in Hi as [-> _]. by rewrite lookup_empty.
Qed.

(** X2. Every entry of every map [NewBanksFromReplay] returns is a bank, never
    [nil]: it is filed under its own name, its first event is the [BankFile]
    event that carries that name and gave the bank its owner, and all events
    after the first are bank-content events. Both revisions are instances,
    with their own [bucketOf] and [ownerOf]. *)
Theorem stored_banks_wellformed {O} (rp : Rep) (bucketOf : Event -> Z)
    (ownerOf : Event -> Outcome O) (n : nat)
    (bs : list (gmap string (option (Bank O)))) :
  collectAll rp bucketOf ownerOf n = Done bs ->
  forall (i : nat) bucket name entry,
    bs !! i = Some bucket ->
    bucket !! name = Some entry ->
    wellFormed rp ownerOf name entry.
Proof.
  unfold collectAll. intros H i bucket name entry Hi Hn.
  apply finish_Done in H as (st & Hst & <-).
  pose proof (collect_wellFormed _ _ _ _ _ _ Hst) as Hall.
  rewrite Forall_lookup in Hall.
  exact (Hall i bucket Hi name entry Hn).
Qed.

Lemma stored_banks_wellformed_witness :
  exists bs bucket entry,
    ByPlayer.NewBanksFromReplay
      (Sample.replay [Sample.fileA0; Sample.section0; Sample.key0]) = Done bs /\
    bs !! 0%nat = Some bucket /\
    bucket !! "A" = Some entry /\
    wellFormed (Sample.replay [Sample.fileA0; Sample.section0; Sample.key0])
      (ByPlayer.ownerOf (Sample.replay [Sample.fileA0; Sample.section0; Sample.key0]))
      "A" entry.
Proof.
  eexists _, _, _.
  split; [vm_compute; reflexivity|].
  split; [vm_compute; reflexivity|].
  split; [vm_compute; reflexivity|].
  refine (stored_banks_wellformed
            (Sample.replay [Sample.fileA0; Sample.section0; Sample.key0])
            ByPlayer.bucketOf
            (ByPlayer.ownerOf
               (Sample.replay [Sample.fileA0; Sample.section0; Sample.key0]))
            2 _ _ 0%nat _ "A" _ _ _).
  - vm_compute; reflexivity.
  - vm_compute; reflexivity.
  - vm_compute; reflexivity.
Defined.

(** X3. The events a returned bank holds are bank events the loop reached
    that were filed into the bank's own bucket (in [bank.go]: events whose
    user id is the index of the map), and the bank holds them in stream
    order: its event list is a subsequence of those events. *)
Theorem stored_events_in_stream_order {O} (rp : Rep) (bucketOf : Event -> Z)
    (ownerOf : Event -> Outcome O) (n : nat)
    (bs : list (gmap string (option (Bank O)))) :
  collectAll rp bucketOf ownerOf n = Done bs ->
  forall (i : nat) bucket name bank,
    bs !! i = Some bucket ->
    bucket !! name = Some (Some bank) ->
    sublist (GameEvents bank)
      (filter (fun evt => bucketOf evt = Z.of_nat i) (bankEvents (GameEvts rp))).
Proof.
  unfold collectAll. intros H i bucket name bank Hi Hn.
  apply finish_Done in H as (st & Hst & <-).
  exact (collect_inOrder _ _ _ _ _ _ Hst i bucket name bank Hi Hn).
Qed.

Lemma stored_events_in_stream_order_witness :
  exists bs bucket bank,
    ByPlayer.NewBanksFromReplay
      (Sample.replay [Sample.fileA0; Sample.fileB1; Sample.int1; Cases.lateKey])
      = Done bs /\
    bs !! 1%nat = Some bucket /\
    bucket !! "B" = Some (Some bank) /\
    sublist (GameEvents bank)
      (filter (fun evt => ByPlayer.bucketOf evt = Z.of_nat 1)
         (bankEvents [Sample.fileA0; Sample.fileB1; Sample.int1; Cases.lateKey])).
Proof.
  eexists _, _, _.
  split; [vm_compute; reflexivity|].
  split; [vm_compute; reflexivity|].
  split; [vm_compute; reflexivity|].
  refine (stored_events_in_stream_order
            (Sample.replay [Sample.fileA0; Sample.fileB1; Sample.int1; Cases.lateKey])
            ByPlayer.bucketOf
            (ByPlayer.ownerOf
               (Sample.replay [Sample.fileA0; Sample.fileB1; Sample.int1; Cases.lateKey]))
            2 _ _ 1%nat _ "B" _ _ _).
  - vm_compute; reflexivity.
  - vm_compute; reflexivity.
  - vm_compute; reflexivity.
Defined.

(** X4. [NewBanksFromReplay] in [bank.go] runs to its end exactly when every
    bank event the loop reaches carries a user id that names a player, an
    index into [Details.Players()]; any other user id, negative ones
    included, makes an index expression panic. *)
Theorem ByPlayer_completes_iff (rp : Rep) :
  completes (ByPlayer.NewBanksFromReplay rp) <->
  Forall (namesPlayer rp) (bankEvents (GameEvts rp)).
Proof.
  unfold ByPlayer.NewBanksFromReplay, collectAll, namesPlayer.
  rewrite <- (collect_completes rp ByPlayer.bucketOf (ByPlayer.ownerOf rp)
                (length (Players rp)) (GameEvts rp) (start (length (Players rp)))).
  - by destruct (collect _ _ _ _ _).
  - intros e He. unfold ByPlayer.ownerOf, ByPlayer.bucketOf, index in *.
    destruct (Z.ltb_spec (UserID e) 0); [lia|].
    destruct (Players rp !! Z.to_nat (UserID e)) eqn:Hl; [done|].
    apply lookup_ge_None in Hl. lia.
  - simpl. apply length_replicate.
Qed.

(** X5. The slice [NewBanksFromReplay] returns has the length it was made
    with: one map per player in [bank.go], one map per lobby slot in the
    slot-keyed revision, whatever the events are. *)
Theorem one_map_per_bucket {O} (rp : Rep) (bucketOf : Event -> Z)
    (ownerOf : Event -> Outcome O) (n : nat)
    (bs : list (gmap string (option (Bank O)))) :
  collectAll rp bucketOf ownerOf n = Done bs -> length bs = n.
Proof.
  unfold collectAll. intros H.
  apply finish_Done in H as (st & Hst & <-).
  rewrite (collect_length _ _ _ _ _ _ Hst). simpl. apply length_replicate.
Qed.

Lemma one_map_per_bucket_witness :
  exists bs,
    BySlot.NewBanksFromReplay (Sample.replay [Sample.fileA0; Sample.section0])
      = Done bs /\
    length bs = length (Slots (Sample.replay [Sample.fileA0; Sample.section0])).
Proof.
  eexists. split; [vm_compute; reflexivity|].
  refine (one_map_per_bucket
            (Sample.replay [Sample.fileA0; Sample.section0])
            (BySlot.bucketOf (Sample.replay [Sample.fileA0; Sample.section0]))
            (BySlot.ownerOf (Sample.replay [Sample.fileA0; Sample.section0]))
            2 _ _).
  vm_compute; reflexivity.
Defined.

(** ** The lookup tables of the slot-keyed revision *)

Lemma slotsByUserID_lookup slots (i0 : Z) ret uid ps :
  BySlot.slotsByUserID slots i0 ret !! uid = Some ps <->
  (exists pre post,
     slots = (pre ++ BySlot.slot ps :: post)%list /\
     BySlot.slotIndex ps = (i0 + Z.of_nat (length pre))%Z /\
     SlotUserID (BySlot.slot ps) = uid /\
     ToonHandle (BySlot.slot ps) <> "" /\
     Forall (fun s => ~ (SlotUserID s = uid /\ ToonHandle s <> "")) post) \/
  (ret !! uid = Some ps /\
   Forall (fun s => ~ (SlotUserID s = uid /\ ToonHandle s <> "")) slots).
Proof.
  revert i0 ret. induction slots as [|s rest IH]; intros i0 ret.
  - cbn [BySlot.slotsByUserID]. split.
    + intros H. right. by split.
    + intros [(pre & post & Hnil & _)|[H _]]; [|done].
      by destruct pre.
  - cbn [BySlot.slotsByUserID]. rewrite IH. clear IH. split.
    + intros [(pre & post & -> & Hi & Hu & Ht & Hpost)|[Hret Hrest]].
      * left. exists (s :: pre), post. repeat split; try done.
        simpl. lia.
      * destruct (decide (ToonHandle s = "")) as [He|Hne].
        { right. split; [done|]. constructor; [|done]. tauto. }
        destruct (decide (SlotUserID s = uid)) as [Hu|Hu].
        { rewrite <- Hu, lookup_insert_eq in Hret. injection Hret as <-.
          left. exists [], rest. simpl. repeat split; try done. lia. }
        rewrite lookup_insert_ne in Hret by done.
        right. split; [done|]. constructor; [|done]. tauto.
    + intros [(pre & post & Hs & Hi & Hu & Ht & Hpost)|[Hret Hall]].
      * destruct pre as [|s' pre]; simpl in Hs; injection Hs as -> ->.
        { right. split; [|done].
          rewrite decide_False by done. rewrite Hu, lookup_insert_eq.
          f_equal. destruct ps as [sl ix]. simpl in *. f_equal. lia. }
        left. exists pre, post. repeat split; try done.
        simpl in Hi. lia.
      * apply Forall_cons in Hall as [Hs Hrest].
        right. split; [|done].
        destruct (decide (ToonHandle s = "")); [done|].
        rewrite lookup_insert_ne; [done|]. tauto.
Qed.

Lemma playersByToon_lookup players ret toon p :
  BySlot.playersByToon players ret !! toon = Some p <->
  lastPlayerOf players toon p \/
  (ret !! toon = Some p /\ Forall (fun q => Toon q = toon -> toon = "") players).
Proof.
  unfold lastPlayerOf.
  revert ret. induction players as [|q rest IH]; intros ret.
  - cbn [BySlot.playersByToon]. split.
    + intros H. right. by split.
    + intros [(pre & post & Hnil & _)|[H _]]; [|done].
      by destruct pre.
  - cbn [BySlot.playersByToon]. rewrite IH. clear IH. split.
    + intros [(pre & post & -> & Ht & Hne & Hpost)|[Hret Hrest]].
      * left. by exists (q :: pre), post.
      * destruct (decide (Toon q = "")) as [He|Hne].
        { right. split; [done|]. constructor; [|done]. congruence. }
        destruct (decide (Toon q = toon)) as [Hu|Hu].
        { rewrite <- Hu, lookup_insert_eq in Hret. injection Hret as <-.
          left. exists [], rest. repeat split; try done; try congruence.
          apply Forall_forall. intros x Hx Hxt.
          rewrite Forall_forall in Hrest. specialize (Hrest x Hx Hxt). congruence. }
        rewrite lookup_insert_ne in Hret by done.
        right. split; [done|]. constructor; [|done]. done.
    + intros [(pre & post & Hs & Ht & Hne & Hpost)|[Hret Hall]].
      * destruct pre as [|q' pre]; simpl in Hs; injection Hs as -> ->.
        { right. split.
          - rewrite decide_False by congruence. by rewrite Ht, lookup_insert_eq.
          - apply Forall_forall. intros x Hx Hxt.
            rewrite Forall_forall in Hpost. by destruct (Hpost x Hx). }
        left. by exists pre, post.
      * apply Forall_cons in Hall as [Hs Hrest].
        right. split; [|done].
        destruct (decide (Toon q = "")); [done|].
        rewrite lookup_insert_ne; [done|]. intros Hq. specialize (Hs Hq). by subst.
Qed.

Lemma findSlotByUserID_in_lobby rp uid ps :
  BySlot.findSlotByUserID rp !! uid = Some ps ->
  (0 <= BySlot.slotIndex ps)%Z /\
  Slots rp !! Z.to_nat (BySlot.slotIndex ps) = Some (BySlot.slot ps) /\
  SlotUserID (BySlot.slot ps) = uid /\
  ToonHandle (BySlot.slot ps) <> "".
Proof.
  unfold BySlot.findSlotByUserID. rewrite slotsByUserID_lookup.
  intros [(pre & post & Hs & Hi & Hu & Ht & _)|[Hempty _]].
  - split; [lia|]. split; [|done].
    rewrite Hs, Hi, Z.add_0_l, Nat2Z.id. by apply list_lookup_middle.
  - by rewrite lookup_empty in Hempty.
Qed.

Lemma findPlayerByToonHandle_in_details rp toon p :
  BySlot.findPlayerByToonHandle rp !! toon = Some p ->
  p ∈ Players rp /\ Toon p = toon /\ toon <> "".
Proof.
  unfold BySlot.findPlayerByToonHandle. rewrite playersByToon_lookup.
  intros [(pre & post & Hs & Ht & Hne & _)|[Hempty _]].
  - split; [|done]. rewrite Hs. apply elem_of_app. right. left.
  - by rewrite lookup_empty in Hempty.
Qed.

Lemma bucketOf_in_lobby rp evt :
  Slots rp <> [] ->
  (0 <= BySlot.bucketOf rp evt < Z.of_nat (length (Slots rp)))%Z.
Proof.
  intros Hne. unfold BySlot.bucketOf, BySlot.slotOf.
  destruct (BySlot.findSlotByUserID rp !! UserID evt) as [ps|] eqn:Hl; simpl.
  - apply findSlotByUserID_in_lobby in Hl as (Hpos & Hl & _).
    apply lookup_lt_Some in Hl. lia.
  - destruct (Slots rp); [done|]. simpl. lia.
Qed.

(** X6. [findSlotByUserID] of the slot-keyed revision holds, for a user id,
    the last lobby slot with that user id among the slots that have a toon
    handle, together with the position of that slot in the lobby; it holds
    nothing for a user id that only slots without a toon handle carry. *)
Theorem findSlotByUserID_lookup (rp : Rep) (uid : Z) (ps : BySlot.PlayerSlot) :
  BySlot.findSlotByUserID rp !! uid = Some ps <-> lastSlotOf (Slots rp) uid ps.
Proof.
  unfold BySlot.findSlotByUserID, lastSlotOf.
  rewrite slotsByUserID_lookup. split.
  - intros [(pre & post & Hs & Hi & H)|[Hempty _]].
    + exists pre, post. split; [done|]. split; [lia|done].
    + by rewrite lookup_empty in Hempty.
  - intros (pre & post & Hs & Hi & H). left.
    exists pre, post. split; [done|]. split; [lia|done].
Qed.

(** X7. [findPlayerByToonHandle] of the slot-keyed revision holds, for a
    toon, the last player of the details with that toon; players with an
    empty toon are left out, so the empty toon is never a key. *)
Theorem findPlayerByToonHandle_lookup (rp : Rep) (toon : string) (p : Player) :
  BySlot.findPlayerByToonHandle rp !! toon = Some p <->
  lastPlayerOf (Players rp) toon p.
Proof.
  unfold BySlot.findPlayerByToonHandle.
  rewrite playersByToon_lookup. split.
  - intros [H|[Hempty _]]; [done|].
    by rewrite lookup_empty in Hempty.
  - intros H. by left.
Qed.

(** X8. [NewBanksFromReplay] of the slot-keyed revision runs to its end
    exactly when the lobby has a slot or the loop reaches no bank event: an
    event of a user without a slot reads the zero value of the table, index
    0, which is in range as soon as there is one slot. *)
Theorem BySlot_completes_iff (rp : Rep) :
  completes (BySlot.NewBanksFromReplay rp) <->
  Slots rp <> [] \/ bankEvents (GameEvts rp) = [].
Proof.
  unfold BySlot.NewBanksFromReplay, collectAll.
  assert (completes
            (collect rp (BySlot.bucketOf rp) (BySlot.ownerOf rp) (GameEvts rp)
               (start (length (Slots rp)))) <->
          Forall (fun evt => (0 <= BySlot.bucketOf rp evt
                              < Z.of_nat (length (Slots rp)))%Z)
            (bankEvents (GameEvts rp))) as Hrun.
  { apply collect_completes; [done|]. simpl. apply length_replicate. }
  transitivity (completes
                  (collect rp (BySlot.bucketOf rp) (BySlot.ownerOf rp)
                     (GameEvts rp) (start (length (Slots rp))))).
  { by destruct (collect _ _ _ _ _). }
  rewrite Hrun. split.
  - intros Hall. destruct (Slots rp) as [|s slots] eqn:Hs; [|by left].
    right. destruct (bankEvents (GameEvts rp)) as [|evt evts]; [done|].
    apply Forall_cons in Hall as [Hevt _]. simpl in Hevt. lia.
  - intros [Hne| ->]; [|constructor].
    apply Forall_forall. intros evt _. by apply bucketOf_in_lobby.
Qed.

Lemma stored_bank_opening {O} rp bucketOf (ownerOf : Event -> Outcome O) n bs
    (i : nat) bucket name bank :
  collectAll rp bucketOf ownerOf n = Done bs ->
  bs !! i = Some bucket ->
  bucket !! name = Some (Some bank) ->
  exists file rest,
    GameEvents bank = file :: rest /\
    EvtTypeName file = EvtTypeBankFile /\
    ownerOf file = Done (Owner bank) /\
    Forall (fun evt => bucketOf evt = Z.of_nat i) (GameEvents bank).
Proof.
  unfold collectAll. intros H Hi Hn.
  apply finish_Done in H as (st & Hst & <-).
  pose proof (collect_wellFormed _ _ _ _ _ _ Hst) as Hall.
  rewrite Forall_lookup in Hall.
  destruct (Hall i bucket Hi name _ Hn)
    as (bank' & file & rest & [= <-] & _ & _ & He & Hf & _ & Hown & _).
  exists file, rest. repeat split; try done.
  pose proof (collect_inOrder _ _ _ _ _ _ Hst i bucket name bank Hi Hn) as Hsub.
  apply Forall_forall. intros evt Hevt.
  apply (elem_of_sublist _ _ _ Hevt) in Hsub.
  by apply list_elem_of_filter in Hsub as [Hb _].
Qed.

(** X9. In [bank.go] the banks of the map at index [i] belong to the player
    at index [i] of the details: that player is the owner of each of them,
    and every event they hold carries the user id [i]. *)
Theorem ByPlayer_bank_owner (rp : Rep)
    (bs : list (gmap string (option (Bank Player)))) (i : nat)
    (bucket : gmap string (option (Bank Player))) (name : string)
    (bank : Bank Player) :
  ByPlayer.NewBanksFromReplay rp = Done bs ->
  bs !! i = Some bucket ->
  bucket !! name = Some (Some bank) ->
  Players rp !! i = Some (Owner bank) /\
  Forall (fun evt => UserID evt = Z.of_nat i) (GameEvents bank).
Proof.
  intros H Hi Hn.
  destruct (stored_bank_opening rp ByPlayer.bucketOf (ByPlayer.ownerOf rp) _ _ _ _ _ _
              H Hi Hn) as (file & rest & He & _ & Hown & Hall).
  split; [|exact Hall].
  rewrite He in Hall. apply Forall_cons in Hall as [Hfile _].
  unfold ByPlayer.ownerOf in Hown. apply index_Done in Hown as [_ Hown].
  unfold ByPlayer.bucketOf in Hfile. by rewrite Hfile, Nat2Z.id in Hown.
Qed.

Lemma ByPlayer_bank_owner_witness :
  exists bs bucket bank,
    ByPlayer.NewBanksFromReplay
      (Sample.replay [Sample.fileA0; Sample.fileB1; Sample.int1]) = Done bs /\
    bs !! 1%nat = Some bucket /\
    bucket !! "B" = Some (Some bank) /\
    Players (Sample.replay [Sample.fileA0; Sample.fileB1; Sample.int1]) !! 1%nat
      = Some (Owner bank) /\
    Forall (fun evt => UserID evt = Z.of_nat 1) (GameEvents bank).
Proof.
  eexists _, _, _.
  split; [vm_compute; reflexivity|].
  split; [vm_compute; reflexivity|].
  split; [vm_compute; reflexivity|].
  refine (ByPlayer_bank_owner
            (Sample.replay [Sample.fileA0; Sample.fileB1; Sample.int1])
            _ 1%nat _ "B" _ _ _ _).
  - vm_compute; reflexivity.
  - vm_compute; reflexivity.
  - vm_compute; reflexivity.
Defined.

(** X10. In the slot-keyed revision a bank of the map at index [i] is owned
    by the lobby slot at index [i], a slot with a toon handle whose user id
    is the one of the bank's [BankFile] event; or that user has no such slot,
    and the bank sits in the map at index 0 with the zero slot and the zero
    player as owner. The owner player is the zero player or a player of the
    details whose toon is the toon handle of the owner slot. *)
Theorem BySlot_bank_owner (rp : Rep)
    (bs : list (gmap string (option (Bank (Slot * Player))))) (i : nat)
    (bucket : gmap string (option (Bank (Slot * Player)))) (name : string)
    (bank : Bank (Slot * Player)) :
  BySlot.NewBanksFromReplay rp = Done bs ->
  bs !! i = Some bucket ->
  bucket !! name = Some (Some bank) ->
  exists file,
    head (GameEvents bank) = Some file /\
    ((Slots rp !! i = Some (BySlot.UserSlot bank) /\
      SlotUserID (BySlot.UserSlot bank) = UserID file /\
      ToonHandle (BySlot.UserSlot bank) <> "") \/
     (BySlot.findSlotByUserID rp !! UserID file = None /\
      i = 0%nat /\
      Owner bank = (BySlot.zeroSlot, BySlot.zeroPlayer))) /\
    (snd (Owner bank) = BySlot.zeroPlayer \/
     (snd (Owner bank) ∈ Players rp /\
      Toon (snd (Owner bank)) = ToonHandle (BySlot.UserSlot bank))).
Proof.
  intros H Hi Hn.
  destruct (stored_bank_opening rp (BySlot.bucketOf rp) (BySlot.ownerOf rp)
              _ _ _ _ _ _ H Hi Hn) as (file & rest & He & _ & Hown & Hall).
  exists file. split; [by rewrite He|].
  rewrite He in Hall. apply Forall_cons in Hall as [Hfile _].
  unfold BySlot.ownerOf in Hown. injection Hown as Hown.
  unfold BySlot.bucketOf in Hfile. unfold BySlot.UserSlot.
  rewrite <- Hown. cbn [fst snd].
  unfold BySlot.slotOf in *.
  destruct (BySlot.findSlotByUserID rp !! UserID file) as [ps|] eqn:Hl;
    cbn [default from_option id] in *.
  - apply findSlotByUserID_in_lobby in Hl as (Hpos & Hl & Hu & Ht).
    split.
    + left. rewrite Hfile, Nat2Z.id in Hl. done.
    + destruct (BySlot.findPlayerByToonHandle rp !! ToonHandle (BySlot.slot ps))
        as [p|] eqn:Hp; cbn [default from_option id]; [|by left].
      apply findPlayerByToonHandle_in_details in Hp as (Hin & Htoon & _).
      by right.
  - change (BySlot.slot BySlot.zeroPlayerSlot) with BySlot.zeroSlot.
    assert (BySlot.findPlayerByToonHandle rp !! ToonHandle BySlot.zeroSlot = None)
      as Hnone.
    { destruct (BySlot.findPlayerByToonHandle rp !! ToonHandle BySlot.zeroSlot)
        as [p|] eqn:Hp; [|done].
      by apply findPlayerByToonHandle_in_details in Hp as (_ & _ & Hne). }
    rewrite Hnone. cbn [default from_option id]. split; [|by left].
    right. split; [done|]. split; [|done].
    simpl in Hfile. lia.
Qed.

Lemma BySlot_bank_owner_witness :
  exists bs bucket bank,
    BySlot.NewBanksFromReplay
      (Sample.replay [Sample.fileA0; Sample.fileB1; Sample.int1]) = Done bs /\
    bs !! 1%nat = Some bucket /\
    bucket !! "B" = Some (Some bank) /\
    exists file,
      head (GameEvents bank) = Some file /\
      ((Slots (Sample.replay [Sample.fileA0; Sample.fileB1; Sample.int1]) !! 1%nat
          = Some (BySlot.UserSlot bank) /\
        SlotUserID (BySlot.UserSlot bank) = UserID file /\
        ToonHandle (BySlot.UserSlot bank) <> "") \/
       (BySlot.findSlotByUserID
          (Sample.replay [Sample.fileA0; Sample.fileB1; Sample.int1])
          !! UserID file = None /\
        1%nat = 0%nat /\
        Owner bank = (BySlot.zeroSlot, BySlot.zeroPlayer))) /\
      (snd (Owner bank) = BySlot.zeroPlayer \/
       (snd (Owner bank)
          ∈ Players (Sample.replay [Sample.fileA0; Sample.fileB1; Sample.int1]) /\
        Toon (snd (Owner bank)) = ToonHandle (BySlot.UserSlot bank))).
Proof.
  eexists _, _, _.
  split; [vm_compute; reflexivity|].
  split; [vm_compute; reflexivity|].
  split; [vm_compute; reflexivity|].
  refine (BySlot_bank_owner
            (Sample.replay [Sample.fileA0; Sample.fileB1; Sample.int1])
            _ 1%nat _ "B" _ _ _ _).
  - vm_compute; reflexivity.
  - vm_compute; reflexivity.
  - vm_compute; reflexivity.
Defined.

(** X12. A [BankFile] event that the loop reaches and whose bucket exists
    starts its bank over: whatever the bucket held under the name of the
    event, after the event it holds a bank with that one event, and the name
    is the current bank name. Events collected earlier for a bank of the
    same name of the same user are dropped. *)
Theorem bank_file_starts_over {O} (rp : Rep) (bucketOf : Event -> Z)
    (ownerOf : Event -> Outcome O) (n : nat) (pre : list Event) (evt : Event)
    (st : Collected O) :
  Forall atLoop0 pre ->
  atLoop0 evt ->
  EvtTypeName evt = EvtTypeBankFile ->
  collect rp bucketOf ownerOf (pre ++ [evt]) (start n) = Done st ->
  bankNameCurr st = Stringv (fields evt) ["name"] /\
  exists bucket bank,
    index (banks st) (bucketOf evt) = Done bucket /\
    bucket !! Stringv (fields evt) ["name"] = Some (Some bank) /\
    GameEvents bank = [evt].
Proof.
  intros Hpre Hevt Hf. rewrite collect_app by done.
  destruct (collect rp bucketOf ownerOf pre (start n)) as [st1|]; [|discriminate].
  cbn [obind collect]. unfold atLoop0 in Hevt.
  destruct (Z.ltb_spec 0 (Loop evt)); [lia|].
  rewrite (isBankEvent_file evt Hf). cbn [negb]. unfold route.
  rewrite decide_True by done.
  destruct (ownerOf evt) as [owner|]; cbn [obind]; [|discriminate].
  destruct (index (banks st1) (bucketOf evt)) as [bucket|] eqn:Hi; cbn [obind];
    [|discriminate].
  intros [= <-]. cbn [setBank bankNameCurr banks]. split; [done|].
  apply index_Done in Hi as [Hpos Hi].
  eexists _, _. split; [|split].
  - apply index_Done. split; [done|].
    apply list_lookup_insert_eq. by apply lookup_lt_Some in Hi.
  - rewrite lookup_insert_eq. unfold NewBank. by rewrite decide_True.
  - done.
Qed.

Lemma bank_file_starts_over_witness :
  exists st,
    collect (Sample.replay []) ByPlayer.bucketOf (ByPlayer.ownerOf (Sample.replay []))
      ([Sample.fileA0; Sample.section0; Sample.key0] ++ [Reopened.fileA0again])
      (start 2) = Done st /\
    bankNameCurr st = Stringv (fields Reopened.fileA0again) ["name"] /\
    exists bucket bank,
      index (banks st) (ByPlayer.bucketOf Reopened.fileA0again) = Done bucket /\
      bucket !! Stringv (fields Reopened.fileA0again) ["name"] = Some (Some bank) /\
      GameEvents bank = [Reopened.fileA0again].
Proof.
  eexists. split; [vm_compute; reflexivity|].
  refine (bank_file_starts_over (Sample.replay []) ByPlayer.bucketOf
            (ByPlayer.ownerOf (Sample.replay [])) 2
            [Sample.fileA0; Sample.section0; Sample.key0] Reopened.fileA0again
            _ _ _ _ _).
  - repeat constructor; vm_compute; discriminate.
  - vm_compute; discriminate.
  - reflexivity.
  - vm_compute; reflexivity.
Defined.

(** * Further properties of rendering *)

Lemma fmt02X_byte (n : Z) :
  (0 <= n <= 255)%Z ->
  exists a b x y,
    fmt02X (VInt n) = String a (String b EmptyString) /\
    hexDigit a = Some x /\ hexDigit b = Some y /\ (16 * x + y)%Z = n.
Proof.
  intros Hn.
  pose (check := fun n =>
          match fmt02X (VInt n) with
          | String a (String b EmptyString) =>
              match hexDigit a, hexDigit b with
              | Some x, Some y => (16 * x + y =? n)%Z
              | _, _ => false
              end
          | _ => false
          end).
  assert (forallb check (seqZ 0 256) = true) as Hall by (vm_compute; reflexivity).
  rewrite forallb_forall in Hall.
  assert (check n = true) as Hc.
  { apply Hall. apply list_elem_of_In, elem_of_seqZ. lia. }
  unfold check in Hc.
  destruct (fmt02X (VInt n)) as [|a [|b [|]]]; try done.
  destruct (hexDigit a) as [x|] eqn:Ha; [|done].
  destruct (hexDigit b) as [y|] eqn:Hb; [|done].
  exists a, b, x, y. split; [done|]. split; [done|]. split; [done|].
  by apply Z.eqb_eq.
Qed.

(** X13. The value of a [Signature] element, for a signature of bytes: two
    upper-case hexadecimal digits per byte, in order, so that the text reads
    back into the signature. *)
Theorem signature_hex_reads_back (signature : list Val) :
  Forall isByte signature ->
  String.length (signatureHex signature) = (2 * length signature)%nat /\
  hexPairs (signatureHex signature) = Some signature.
Proof.
  unfold signatureHex.
  induction 1 as [|v vs (n & -> & Hn) _ [IHl IHp]]; [done|].
  destruct (fmt02X_byte n Hn) as (a & b & x & y & Hfmt & Ha & Hb & Hxy).
  cbn [map joinAll]. rewrite Hfmt.
  change (String a (String b "") +:+ joinAll (map fmt02X vs))
    with (String a (String b (joinAll (map fmt02X vs)))).
  split.
  - cbn [String.length]. rewrite IHl. cbn [length]. lia.
  - cbn [hexPairs]. by rewrite Ha, Hb, IHp, Hxy.
Qed.

Lemma signature_hex_reads_back_witness :
  String.length (signatureHex [VInt 1; VInt 171; VInt 255]) = (2 * 3)%nat /\
  hexPairs (signatureHex [VInt 1; VInt 171; VInt 255])
  = Some [VInt 1; VInt 171; VInt 255].
Proof.
  apply (signature_hex_reads_back [VInt 1; VInt 171; VInt 255]).
  repeat constructor; eexists; (split; [reflexivity|lia]).
Defined.

Lemma bare_alterAt (path : list nat) (g : Token -> Token) (t : Token) :
  path <> [] \/ (forall t', bare (g t') = bare t') ->
  bare (alterAt path g t) = bare t.
Proof.
  destruct path as [|i rest]; cbn [alterAt].
  - intros [H|H]; [done|apply H].
  - intros _. by destruct t.
Qed.

Lemma map_bare_alter (f : Token -> Token) (j : nat) (l : list Token) :
  (forall t, bare (f t) = bare t) ->
  map bare (alter f j l) = map bare l.
Proof.
  intros Hf. revert j. induction l as [|t l IH]; intros [|j]; cbn; try done.
  - by rewrite Hf.
  - by rewrite IH.
Qed.

Lemma alter_body (f : Token -> Token) (i : nat) (hdr body : list Token) :
  (length hdr <= i)%nat ->
  alter f i (hdr ++ body)%list = (hdr ++ alter f (i - length hdr)%nat body)%list.
Proof.
  revert i. induction hdr as [|t hdr IH]; intros i Hi; cbn [app length].
  - by rewrite Nat.sub_0_r.
  - destruct i as [|i]; [simpl in Hi; lia|].
    cbn. f_equal. apply IH. simpl in Hi. lia.
Qed.

(** Creating a token under a pointer into the body leaves the tags and
    attributes of the children of the [Bank] element as they are. *)
Lemma create_below np tok p pi a hdr body d' p' :
  below (length hdr) p ->
  create np tok p (bankDoc pi a (hdr ++ body)%list) = Done (d', p') ->
  exists body',
    d' = bankDoc pi a (hdr ++ body')%list /\
    map bare body' = map bare body /\
    strictlyBelow (length hdr) p'.
Proof.
  destruct p as [| |path]; cbn [create below].
  - intros _. destruct np; [discriminate|]. intros [= <- <-]. by exists body.
  - intros _ [= <- <-]. by exists body.
  - destruct path as [|[|[|?]] [|i rest]]; try done.
    intros Hi [= <- <-].
    exists (alter (alterAt rest (addChild tok)) (i - length hdr)%nat body).
    split; [|split].
    + unfold bankDoc. cbn. by rewrite alter_body.
    + apply map_bare_alter. intros t. apply bare_alterAt.
      right. by intros [].
    + cbn. by destruct rest.
Qed.

Lemma CreateAttr_strictlyBelow key value p pi a hdr body d' :
  strictlyBelow (length hdr) p ->
  CreateAttr key value p (bankDoc pi a (hdr ++ body)%list) = Done d' ->
  exists body',
    d' = bankDoc pi a (hdr ++ body')%list /\
    map bare body' = map bare body.
Proof.
  destruct p as [| |path]; cbn [CreateAttr strictlyBelow]; try done.
  - intros _ [= <-]. by exists body.
  - destruct path as [|[|[|?]] [|i [|j rest]]]; try done.
    intros Hi [= <-].
    exists (alter (alterAt (j :: rest) (onAttr (setAttr key value)))
              (i - length hdr)%nat body).
    split.
    + unfold bankDoc. cbn. by rewrite alter_body.
    + apply map_bare_alter. intros t. apply bare_alterAt. by left.
Qed.

(** Creating an element under the [Bank] element appends it to the body. *)
Lemma create_root np tok pi a hdr body :
  create np tok root (bankDoc pi a (hdr ++ body)%list)
  = Done (bankDoc pi a (hdr ++ body ++ [tok])%list,
          at_ [1%nat; (length hdr + length body)%nat]).
Proof.
  unfold root, bankDoc. cbn.
  by rewrite <- app_assoc, length_app.
Qed.

Lemma CreateAttr_last key value tag pi a hdr body :
  CreateAttr key value (at_ [1%nat; (length hdr + length body)%nat])
    (bankDoc pi a (hdr ++ body ++ [Element tag [] []])%list)
  = Done (bankDoc pi a (hdr ++ body ++ [Element tag [(key, value)] []])).
Proof.
  unfold bankDoc. cbn. do 3 f_equal.
  rewrite alter_body by lia.
  replace (length hdr + length body - length hdr)%nat with (length body + 0)%nat by lia.
  by rewrite alter_app_r.
Qed.

Lemma strictlyBelow_below h p : strictlyBelow h p -> below h p.
Proof.
  destruct p as [| |path]; try done.
  by destruct path as [|[|[|?]] [|i [|j rest]]].
Qed.

Section Framed.
Variable np : NilParent.
Variable valueTag : Event -> string.
Variable pi : Token.
Variable a : list (string * string).
Variable hdr : list Token.

Lemma renderValue_framed body c evt c' :
  framed pi a hdr body c ->
  renderValue np valueTag c evt = Done c' ->
  exists body',
    framed pi a hdr body' c' /\ map bare body' = map bare body.
Proof.
  intros (Hdoc & Hsec & Hkey). unfold renderValue.
  destruct (decide (Int (fields evt) ["type"] = 7)).
  { intros [= <-]. by exists body. }
  unfold CreateElement. rewrite Hdoc.
  destruct (create np _ (eCurrKey c) _) as [[d1 p1]|] eqn:Hc; simpl; [|discriminate].
  apply create_below in Hc as (body1 & -> & Hb1 & Hp1);
    [|by apply strictlyBelow_below].
  destruct (index valueKinds _) as [kind|]; simpl; [|discriminate].
  destruct (CreateAttr kind _ p1 _) as [d2|] eqn:Ha; simpl; [|discriminate].
  apply CreateAttr_strictlyBelow in Ha as (body2 & -> & Hb2); [|done].
  intros [= <-]. exists body2. split; [done|]. by rewrite Hb2.
Qed.

Lemma renderEvent_framed body c evt c' :
  framed pi a hdr body c ->
  renderEvent np valueTag c evt = Done c' ->
  exists body',
    framed pi a hdr body' c' /\
    map bare body' = (map bare body ++ topLevel evt)%list.
Proof.
  intros (Hdoc & Hsec & Hkey). unfold renderEvent, topLevel.
  destruct (decide (EvtTypeName evt = EvtTypeBankSection)) as [Hs|Hs].
  { unfold CreateElement. rewrite Hdoc, create_root. cbn [obind fst snd].
    rewrite CreateAttr_last. cbn [obind]. intros [= <-].
    eexists (body ++ [_])%list. split.
    - split; [reflexivity|]. split; [|done]. cbn. lia.
    - by rewrite map_app. }
  destruct (decide (EvtTypeName evt = EvtTypeBankKey)) as [Hk|Hk].
  { unfold CreateElement. rewrite Hdoc.
    destruct (create np _ (eCurrSection c) _) as [[d1 p1]|] eqn:Hc; cbn [obind fst snd];
      [|discriminate].
    apply create_below in Hc as (body1 & -> & Hb1 & Hp1); [|done].
    destruct (CreateAttr "name" _ p1 _) as [d2|] eqn:Ha; cbn [obind fst snd]; [|discriminate].
    apply CreateAttr_strictlyBelow in Ha as (body2 & -> & Hb2); [|done].
    rewrite app_nil_r.
    destruct (Value (fields evt) ["type"]).
    - intros Hv. apply (renderValue_framed body2) in Hv as (body3 & Hf & Hb3).
      + exists body3. split; [done|]. by rewrite Hb3, Hb2.
      + done.
    - intros [= <-]. exists body2. split; [done|]. by rewrite Hb2. }
  destruct (decide (EvtTypeName evt = EvtTypeBankValue)) as [Hv|Hv].
  { intros Hr. apply (renderValue_framed body) in Hr as (body1 & Hf & Hb1); [|done].
    exists body1. by rewrite app_nil_r. }
  destruct (decide (EvtTypeName evt = EvtTypeBankSignature)) as [Hg|Hg].
  { unfold CreateElement. rewrite Hdoc, create_root. cbn [obind fst snd].
    destruct (0 <? length (Array (fields evt) ["signature"]))%nat.
    - rewrite CreateAttr_last. cbn [obind]. intros [= <-].
      eexists (body ++ [_])%list. split.
      + split; [reflexivity|]. split; [|done]. cbn. lia.
      + by rewrite map_app.
    - cbn [obind]. intros [= <-].
      eexists (body ++ [_])%list. split.
      + split; [reflexivity|]. split; [|done]. cbn. lia.
      + by rewrite map_app. }
  intros [= <-]. exists body. by rewrite app_nil_r.
Qed.

Lemma renderEvents_framed evts body c c' :
  framed pi a hdr body c ->
  renderEvents np valueTag c evts = Done c' ->
  exists body',
    framed pi a hdr body' c' /\
    map bare body' = (map bare body ++ concat (map topLevel evts))%list.
Proof.
  revert body c. induction evts as [|evt evts IH]; intros body c Hf.
  - intros [= <-]. exists body. by rewrite app_nil_r.
  - cbn [renderEvents map concat].
    destruct (renderEvent np valueTag c evt) as [c1|] eqn:Hr; simpl; [|discriminate].
    apply (renderEvent_framed body) in Hr as (body1 & Hf1 & Hb1); [|done].
    intros Hrest. apply (IH body1) in Hrest as (body2 & Hf2 & Hb2); [|done].
    exists body2. split; [done|]. by rewrite Hb2, Hb1, app_assoc.
Qed.

End Framed.

(** X14. The document [WriteTo] builds, whenever it builds one: the
    processing instruction, then the [Bank] element with its version
    attribute; below it the seven comments, untouched by the events, and
    then one element per [BankSection] and [BankSignature] event, in the
    order of the events, as [Section] with the name of the event or as
    [Signature] with the hexadecimal value. Keys and values never become
    children of the [Bank] element and never change the name of a section. *)
Theorem WriteTo_top_level (np : NilParent) (valueTag : Event -> string)
    (rp : Rep) (now owner : string) (evts : list Event) (tree : Token) :
  render np valueTag rp now owner evts = Done tree ->
  exists body,
    tree = bankDoc xmlDecl [("version", "1")] (comments rp now owner ++ body) /\
    map bare body = concat (map topLevel evts).
Proof.
  unfold render.
  destruct (renderEvents np valueTag _ evts) as [c|] eqn:Hr; simpl; [|discriminate].
  intros [= <-].
  apply (renderEvents_framed np valueTag xmlDecl [("version", "1")]
           (comments rp now owner) evts []) in Hr.
  - destruct Hr as (body & (Hdoc & _) & Hb). exists body. split; [done|].
    by rewrite Hb.
  - split; [|done]. cbn [doc]. by rewrite app_nil_r.
Qed.

Lemma WriteTo_top_level_witness :
  exists tree body,
    render NilParentPanics Sample.tagValue (Sample.replay []) Sample.now Sample.owner
      [Sample.fileA0; Sample.section0; Sample.key0; Sample.int0; Sample.signature0]
      = Done tree /\
    tree = bankDoc xmlDecl [("version", "1")]
             (comments (Sample.replay []) Sample.now Sample.owner ++ body) /\
    map bare body
    = [Element "Section" [("name", "stats")] [];
       Element "Signature" [("value", "01ABFF")] []].
Proof.
  destruct (WriteTo_top_level NilParentPanics Sample.tagValue (Sample.replay [])
              Sample.now Sample.owner
              [Sample.fileA0; Sample.section0; Sample.key0; Sample.int0;
               Sample.signature0] _ eq_refl) as (body & Htree & Hbody).
  eexists _, body. split; [reflexivity|]. split; [exact Htree|exact Hbody].
Defined.

(** ** The nesting of the rendered document *)

Lemma isLeaf_onAttr f t : isLeaf t -> isLeaf (onAttr f t).
Proof. intros (tag & a & ->). by eexists _, _. Qed.

Lemma isKeyElement_onAttr f t : isKeyElement t -> isKeyElement (onAttr f t).
Proof. intros (a & vals & -> & Hv). by eexists _, vals. Qed.

Lemma isKeyElement_onChildren g t :
  (forall vals, Forall isLeaf vals -> Forall isLeaf (g vals)) ->
  isKeyElement t -> isKeyElement (onChildren g t).
Proof.
  intros Hg (a & vals & -> & Hv). eexists a, (g vals). split; [done|]. by apply Hg.
Qed.

Lemma isSectionElement_onChildren g t :
  (forall keys, Forall isKeyElement keys -> Forall isKeyElement (g keys)) ->
  isSectionElement t -> isSectionElement (onChildren g t).
Proof.
  intros Hg (tag & a & keys & -> & Htag & Hk).
  eexists tag, a, (g keys). split; [done|]. split; [done|]. by apply Hg.
Qed.

Lemma Forall_alter_keep {A} (P : A -> Prop) (f : A -> A) (i : nat) (l : list A) :
  (forall x, P x -> P (f x)) -> Forall P l -> Forall P (alter f i l).
Proof.
  intros Hf Hl. apply Forall_alter; [done|]. intros x _. apply Hf.
Qed.

Section Nested.
Variable np : NilParent.
Variable valueTag : Event -> string.
Variable pi : Token.
Variable a : list (string * string).
Variable hdr : list Token.

(** A key is put below a section. *)
Lemma create_key p body d' p' :
  Forall isSectionElement body ->
  sectionPtr (length hdr) p ->
  create np (Element "Key" [] []) p (bankDoc pi a (hdr ++ body)%list) = Done (d', p') ->
  exists body',
    d' = bankDoc pi a (hdr ++ body')%list /\
    Forall isSectionElement body' /\
    keyPtr (length hdr) p'.
Proof.
  intros Hbody. destruct p as [| |path]; cbn [create sectionPtr].
  - intros _. destruct np; [discriminate|]. intros [= <- <-]. by exists body.
  - intros _ [= <- <-]. by exists body.
  - destruct path as [|[|[|?]] [|i [|? ?]]]; try done.
    intros Hi [= <- <-].
    exists (alter (addChild (Element "Key" [] [])) (i - length hdr)%nat body).
    split; [|split].
    + unfold bankDoc. cbn. by rewrite alter_body.
    + apply Forall_alter_keep; [|done]. intros t Ht.
      apply isSectionElement_onChildren; [|done].
      intros keys Hk. apply Forall_app. split; [done|].
      constructor; [|done]. by eexists [], [].
    + done.
Qed.

(** An attribute is set on a key. *)
Lemma CreateAttr_key key value p body d' :
  Forall isSectionElement body ->
  keyPtr (length hdr) p ->
  CreateAttr key value p (bankDoc pi a (hdr ++ body)%list) = Done d' ->
  exists body',
    d' = bankDoc pi a (hdr ++ body')%list /\ Forall isSectionElement body'.
Proof.
  intros Hbody. destruct p as [| |path]; cbn [CreateAttr keyPtr]; try done.
  - intros _ [= <-]. by exists body.
  - destruct path as [|[|[|?]] [|i [|j [|? ?]]]]; try done.
    intros Hi [= <-].
    exists (alter (alterAt [j] (onAttr (setAttr key value))) (i - length hdr)%nat body).
    split.
    + unfold bankDoc. cbn. by rewrite alter_body.
    + apply Forall_alter_keep; [|done]. intros t Ht. cbn [alterAt].
      apply isSectionElement_onChildren; [|done].
      intros keys Hk. apply Forall_alter_keep; [|done].
      intros k. apply isKeyElement_onAttr.
Qed.

(** A value is put below a key. *)
Lemma create_value tag p body d' p' :
  Forall isSectionElement body ->
  keyPtr (length hdr) p ->
  create np (Element tag [] []) p (bankDoc pi a (hdr ++ body)%list) = Done (d', p') ->
  exists body',
    d' = bankDoc pi a (hdr ++ body')%list /\
    Forall isSectionElement body' /\
    valuePtr (length hdr) p'.
Proof.
  intros Hbody. destruct p as [| |path]; cbn [create keyPtr].
  - intros _. destruct np; [discriminate|]. intros [= <- <-]. by exists body.
  - intros _ [= <- <-]. by exists body.
  - destruct path as [|[|[|?]] [|i [|j [|? ?]]]]; try done.
    intros Hi [= <- <-].
    exists (alter (alterAt [j] (addChild (Element tag [] []))) (i - length hdr)%nat body).
    split; [|split].
    + unfold bankDoc. cbn. by rewrite alter_body.
    + apply Forall_alter_keep; [|done]. intros t Ht. cbn [alterAt].
      apply isSectionElement_onChildren; [|done].
      intros keys Hk. apply Forall_alter_keep; [|done].
      intros k. apply isKeyElement_onChildren.
      intros vals Hv. apply Forall_app. split; [done|].
      constructor; [|done]. by eexists _, _.
    + done.
Qed.

(** An attribute is set on a value. *)
Lemma CreateAttr_value key value p body d' :
  Forall isSectionElement body ->
  valuePtr (length hdr) p ->
  CreateAttr key value p (bankDoc pi a (hdr ++ body)%list) = Done d' ->
  exists body',
    d' = bankDoc pi a (hdr ++ body')%list /\ Forall isSectionElement body'.
Proof.
  intros Hbody. destruct p as [| |path]; cbn [CreateAttr valuePtr]; try done.
  - intros _ [= <-]. by exists body.
  - destruct path as [|[|[|?]] [|i [|j [|k [|? ?]]]]]; try done.
    intros Hi [= <-].
    exists (alter (alterAt [j; k] (onAttr (setAttr key value)))
              (i - length hdr)%nat body).
    split.
    + unfold bankDoc. cbn. by rewrite alter_body.
    + apply Forall_alter_keep; [|done]. intros t Ht. cbn [alterAt].
      apply isSectionElement_onChildren; [|done].
      intros keys Hk. apply Forall_alter_keep; [|done].
      intros t'. apply isKeyElement_onChildren.
      intros vals Hv. apply Forall_alter_keep; [|done].
      intros v. apply isLeaf_onAttr.
Qed.

Lemma renderValue_nested body c evt c' :
  nested pi a hdr body c ->
  renderValue np valueTag c evt = Done c' ->
  exists body', nested pi a hdr body' c'.
Proof.
  intros (Hdoc & Hbody & Hsec & Hkey). unfold renderValue.
  destruct (decide (Int (fields evt) ["type"] = 7)).
  { intros [= <-]. by exists body. }
  unfold CreateElement. rewrite Hdoc.
  destruct (create np _ (eCurrKey c) _) as [[d1 p1]|] eqn:Hc; cbn [obind fst snd];
    [|discriminate].
  apply create_value in Hc as (body1 & -> & Hb1 & Hp1); [|done..].
  destruct (index valueKinds _) as [kind|]; cbn [obind]; [|discriminate].
  destruct (CreateAttr kind _ p1 _) as [d2|] eqn:Ha; cbn [obind]; [|discriminate].
  apply CreateAttr_value in Ha as (body2 & -> & Hb2); [|done..].
  intros [= <-]. by exists body2.
Qed.

Lemma renderEvent_nested body c evt c' :
  nested pi a hdr body c ->
  renderEvent np valueTag c evt = Done c' ->
  exists body', nested pi a hdr body' c'.
Proof.
  intros (Hdoc & Hbody & Hsec & Hkey). unfold renderEvent.
  assert (forall tag attrs,
            tag = "Section" \/ tag = "Signature" ->
            Forall isSectionElement (body ++ [Element tag attrs []])%list) as Hnew.
  { intros tag attrs Htag. apply Forall_app. split; [done|].
    constructor; [|done]. by eexists tag, attrs, []. }
  destruct (decide (EvtTypeName evt = EvtTypeBankSection)) as [Hs|Hs].
  { unfold CreateElement. rewrite Hdoc, create_root. cbn [obind fst snd].
    rewrite CreateAttr_last. cbn [obind]. intros [= <-].
    eexists (body ++ [_])%list. split; [reflexivity|].
    split; [apply Hnew; by left|]. split; [|done]. cbn. lia. }
  destruct (decide (EvtTypeName evt = EvtTypeBankKey)) as [Hk|Hk].
  { unfold CreateElement. rewrite Hdoc.
    destruct (create np _ (eCurrSection c) _) as [[d1 p1]|] eqn:Hc;
      cbn [obind fst snd]; [|discriminate].
    apply create_key in Hc as (body1 & -> & Hb1 & Hp1); [|done..].
    destruct (CreateAttr "name" _ p1 _) as [d2|] eqn:Ha; cbn [obind]; [|discriminate].
    apply CreateAttr_key in Ha as (body2 & -> & Hb2); [|done..].
    destruct (Value (fields evt) ["type"]).
    - intros Hv. by apply (renderValue_nested body2) in Hv.
    - intros [= <-]. by exists body2. }
  destruct (decide (EvtTypeName evt = EvtTypeBankValue)) as [Hv|Hv].
  { intros Hr. by apply (renderValue_nested body) in Hr. }
  destruct (decide (EvtTypeName evt = EvtTypeBankSignature)) as [Hg|Hg].
  { unfold CreateElement. rewrite Hdoc, create_root. cbn [obind fst snd].
    destruct (0 <? length (Array (fields evt) ["signature"]))%nat.
    - rewrite CreateAttr_last. cbn [obind]. intros [= <-].
      eexists (body ++ [_])%list. split; [reflexivity|].
      split; [apply Hnew; by right|]. split; [|done]. cbn. lia.
    - cbn [obind]. intros [= <-].
      eexists (body ++ [_])%list. split; [reflexivity|].
      split; [apply Hnew; by right|]. split; [|done]. cbn. lia. }
  intros [= <-]. by exists body.
Qed.

Lemma renderEvents_nested evts body c c' :
  nested pi a hdr body c ->
  renderEvents np valueTag c evts = Done c' ->
  exists body', nested pi a hdr body' c'.
Proof.
  revert body c. induction evts as [|evt evts IH]; intros body c Hn.
  - intros [= <-]. by exists body.
  - cbn [renderEvents].
    destruct (renderEvent np valueTag c evt) as [c1|] eqn:Hr; cbn [obind];
      [|discriminate].
    apply (renderEvent_nested body) in Hr as (body1 & Hn1); [|done].
    by apply (IH body1).
Qed.

End Nested.

(** X15. The document [WriteTo] builds is nested as a bank is: below the
    comments, every child of the [Bank] element is a [Section] or
    [Signature] element, every child of those is a [Key] element, and every
    child of a key is an element without children. No value is written
    outside a key and no key outside a section, whatever the order of the
    events. *)
Theorem WriteTo_nesting (np : NilParent) (valueTag : Event -> string)
    (rp : Rep) (now owner : string) (evts : list Event) (tree : Token) :
  render np valueTag rp now owner evts = Done tree ->
  exists body,
    tree = bankDoc xmlDecl [("version", "1")] (comments rp now owner ++ body) /\
    Forall isSectionElement body.
Proof.
  unfold render.
  destruct (renderEvents np valueTag _ evts) as [c|] eqn:Hr; cbn [obind];
    [|discriminate].
  intros [= <-].
  apply (renderEvents_nested np valueTag xmlDecl [("version", "1")]
           (comments rp now owner) evts []) in Hr.
  - destruct Hr as (body & Hdoc & Hbody & _). by exists body.
  - split; [|by split]. cbn [doc]. by rewrite app_nil_r.
Qed.

Lemma WriteTo_nesting_witness :
  exists tree body,
    render NilParentDetaches Sample.tagName (Sample.replay []) Sample.now Sample.owner
      [Sample.fileA0; Sample.key0; Sample.section0; Sample.key0; Sample.int0;
       Sample.signature0; Sample.keyInline0]
      = Done tree /\
    tree = bankDoc xmlDecl [("version", "1")]
             (comments (Sample.replay []) Sample.now Sample.owner ++ body) /\
    Forall isSectionElement body.
Proof.
  pose proof (WriteTo_nesting NilParentDetaches Sample.tagName (Sample.replay [])
                Sample.now Sample.owner
                [Sample.fileA0; Sample.key0; Sample.section0; Sample.key0; Sample.int0;
                 Sample.signature0; Sample.keyInline0] _
                ltac:(vm_compute; reflexivity)) as H.
  destruct H as (body & Htree & Hbody).
  eexists _, body. split; [vm_compute; reflexivity|].
  split; [exact Htree|exact Hbody].
Defined.

(** * Further properties of session construction *)

Section BuiltFacts.
Import repm.
Context {ProtocolT DetailsT InitDataT AttrEvtsT MetadataT TrackerT : Type}.
Variable d : @Decoder ProtocolT DetailsT InitDataT AttrEvtsT MetadataT TrackerT.

Local Abbreviation Rep0 :=
  (@Rep ProtocolT DetailsT InitDataT AttrEvtsT MetadataT TrackerT).
Local Abbreviation Results0 :=
  (@Results ProtocolT DetailsT InitDataT AttrEvtsT MetadataT TrackerT).

(** A statement that does not return a session itself hands a value on
    when the body goes on to return one. *)
Lemma sbind_session {A B} (c : Step Results0 A) (k : A -> Step Results0 B)
    closeMPQ (rep : Rep0) err :
  sbind c k = Leave closeMPQ (Returned (Some rep, err)) ->
  (forall cm' rep' err', c <> Leave cm' (Returned (Some rep', err'))) ->
  exists a, c = Go a /\ k a = Leave closeMPQ (Returned (Some rep, err)).
Proof.
  destruct c as [a|cm' exit]; cbn [sbind].
  - intros H _. by exists a.
  - intros [= -> ->] H. by destruct (H closeMPQ rep err).
Qed.

Lemma call_Go {A} closeMPQ (c : Call A) (a : A) :
  call (R := Results0) closeMPQ c = Go a <-> c = Returns a.
Proof. destruct c; cbn; split; congruence. Qed.

Lemma call_no_session {A} closeMPQ (c : Call A) cm' (rep' : Rep0) (err' : option RepError) :
  call (R := Results0) closeMPQ c <> Leave cm' (Returned (Some rep', err')).
Proof. by destruct c. Qed.

Lemma readSection_Go closeMPQ mpq h bytes :
  readSection (ProtocolT := ProtocolT) (DetailsT := DetailsT)
    (InitDataT := InitDataT) (AttrEvtsT := AttrEvtsT) (MetadataT := MetadataT)
    (TrackerT := TrackerT) closeMPQ mpq h = Go bytes ->
  reads mpq h bytes.
Proof.
  unfold readSection, reads, fileOf, call, ret, sbind.
  destruct (FileByHash mpq _ _ _) as [f|]; [|discriminate].
  destruct (failed f) eqn:Hf; [discriminate|].
  intros [= <-]. by exists f.
Qed.

Lemma readSection_no_session closeMPQ mpq h cm' (rep' : Rep0) (err' : option RepError) :
  readSection closeMPQ mpq h <> Leave cm' (Returned (Some rep', err')).
Proof.
  unfold readSection, call, ret, sbind.
  destruct (FileByHash mpq _ _ _) as [f|]; [|discriminate].
  by destruct (failed f).
Qed.

Lemma readWithBackup_Go closeMPQ mpq h b bytes :
  readWithBackup (ProtocolT := ProtocolT) (DetailsT := DetailsT)
    (InitDataT := InitDataT) (AttrEvtsT := AttrEvtsT) (MetadataT := MetadataT)
    (TrackerT := TrackerT) closeMPQ mpq h b = Go bytes ->
  heldOrBackup mpq h b bytes.
Proof.
  unfold readWithBackup, heldOrBackup, holds, unusable, reads, fileOf,
    call, ret, sbind.
  destruct (FileByHash mpq h.1.1 h.1.2 h.2) as [f|]; [|discriminate].
  destruct (failed f) eqn:Hf; cbn [orb].
  - destruct (FileByHash mpq b.1.1 b.1.2 b.2) as [f'|]; [|discriminate].
    destruct (failed f') eqn:Hf'; cbn [orb]; [discriminate|].
    destruct (Nat.eqb_spec (len (data f')) 0); [discriminate|].
    intros [= <-]. right. split; [exists f; auto|].
    split; [by exists f'|done].
  - destruct (Nat.eqb_spec (len (data f)) 0) as [He|Hne].
    + destruct (FileByHash mpq b.1.1 b.1.2 b.2) as [f'|]; [|discriminate].
      destruct (failed f') eqn:Hf'; cbn [orb]; [discriminate|].
      destruct (Nat.eqb_spec (len (data f')) 0); [discriminate|].
      intros [= <-]. right. split; [exists f; auto|].
      split; [by exists f'|done].
    + intros [= <-]. left. split; [by exists f|done].
Qed.

Lemma readWithBackup_no_session closeMPQ mpq h b cm' (rep' : Rep0) (err' : option RepError) :
  readWithBackup closeMPQ mpq h b <> Leave cm' (Returned (Some rep', err')).
Proof.
  unfold readWithBackup, call, ret, sbind.
  destruct (FileByHash mpq h.1.1 h.1.2 h.2) as [f|]; [|discriminate].
  destruct (failed f || _).
  - destruct (FileByHash mpq b.1.1 b.1.2 b.2) as [f'|]; [|discriminate].
    by destruct (failed f' || _).
  - discriminate.
Qed.

(** The one succeeding [return] of [newRep] and what has happened before
    it is reached. *)
Lemma newRepBody_session mpq game message tracker closeMPQ (rep : Rep0) err :
  newRepBody d mpq game message tracker = Leave closeMPQ (Returned (Some rep, err)) ->
  builtFrom d mpq game message tracker rep /\ err = None /\ closeMPQ = false.
Proof.
  unfold newRepBody. intros H.
  apply sbind_session in H as (userData & Eu & H); [|apply call_no_session].
  apply call_Go in Eu.
  apply sbind_session in H as (header & Eh & H); [|apply call_no_session].
  apply call_Go in Eh.
  destruct header as [h|]; [|discriminate].
  apply sbind_session in H as (p0 & Ep0 & H); [|apply call_no_session].
  apply call_Go in Ep0.
  apply sbind_session in H as (p1 & Ep1 & H);
    [|intros; destruct p0; [discriminate|apply call_no_session]].
  destruct p1 as [p|]; [|discriminate].
  assert (chosenProtocol d h p) as Hp.
  { destruct p0 as [p0|].
    - injection Ep1 as ->. by left.
    - apply call_Go in Ep1. by right. }
  apply sbind_session in H as (bytesD & Ed & H); [|apply readWithBackup_no_session].
  apply readWithBackup_Go in Ed.
  apply sbind_session in H as (details & Edd & H); [|apply call_no_session].
  apply call_Go in Edd.
  apply sbind_session in H as (bytesI & Ei & H); [|apply readWithBackup_no_session].
  apply readWithBackup_Go in Ei.
  apply sbind_session in H as (initData & Eid & H); [|apply call_no_session].
  apply call_Go in Eid.
  apply sbind_session in H as (bytesA & Ea & H); [|apply readSection_no_session].
  apply readSection_Go in Ea.
  apply sbind_session in H as (attrEvts & Ead & H); [|apply call_no_session].
  apply call_Go in Ead.
  apply sbind_session in H as (bytesM & Em & H); [|apply readSection_no_session].
  apply readSection_Go in Em.
  apply sbind_session in H as (metadata & Emd & H).
  2:{ intros. destruct bytesM as [b|]; [|discriminate].
      unfold sbind, call, ret. destruct (Unmarshal d b) as [[md|]|]; discriminate. }
  assert (match bytesM with
          | Some b => exists md, Unmarshal d b = Returns (Some md) /\ metadata = Some md
          | None => metadata = None
          end) as Hmd.
  { destruct bytesM as [b|]; [|by injection Emd].
    unfold sbind, call, ret in Emd.
    destruct (Unmarshal d b) as [[md|]|]; try discriminate.
    injection Emd as <-. by exists md. }
  clear Emd.
  apply sbind_session in H as (gameEvts & Eg & H).
  2:{ intros. destruct game; [|discriminate]. unfold sbind.
      destruct (readSection _ _ _) eqn:Er; [apply call_no_session|].
      intros E. injection E as -> ->. by apply readSection_no_session in Er. }
  assert (streamOf mpq game fileGameEvts (DecodeGameEvts d p) gameEvts.1 gameEvts.2)
    as Hg.
  { unfold streamOf. destruct game; [|by injection Eg as <-].
    unfold sbind in Eg.
    destruct (readSection _ _ _) as [bytes|] eqn:Er; [|discriminate].
    apply readSection_Go in Er. apply call_Go in Eg.
    exists bytes. split; [done|]. by destruct gameEvts. }
  clear Eg.
  apply sbind_session in H as (messageEvts & Es & H).
  2:{ intros. destruct message; [|discriminate]. unfold sbind.
      destruct (readSection _ _ _) eqn:Er; [apply call_no_session|].
      intros E. injection E as -> ->. by apply readSection_no_session in Er. }
  assert (streamOf mpq message fileMessageEvts (DecodeMessageEvts d p)
            messageEvts.1 messageEvts.2) as Hs.
  { unfold streamOf. destruct message; [|by injection Es as <-].
    unfold sbind in Es.
    destruct (readSection _ _ _) as [bytes|] eqn:Er; [|discriminate].
    apply readSection_Go in Er. apply call_Go in Es.
    exists bytes. split; [done|]. by destruct messageEvts. }
  clear Es.
  apply sbind_session in H as (trackerEvts & Et & H).
  2:{ intros. destruct tracker; [|discriminate]. unfold sbind.
      destruct (readSection _ _ _) eqn:Er.
      - destruct (call _ (DecodeTrackerEvts _ _ _)) eqn:Ec.
        + destruct (call _ (trackerInit _ _ _)) eqn:Ei'; [discriminate|].
          intros E. injection E as -> ->. by apply call_no_session in Ei'.
        + intros E. injection E as -> ->. by apply call_no_session in Ec.
      - intros E. injection E as -> ->. by apply readSection_no_session in Er. }
  assert (if tracker then
            exists bytes evts t,
              reads mpq fileTrackerEvts bytes /\
              DecodeTrackerEvts d p bytes = Returns (evts, trackerEvts.2) /\
              trackerInit d evts initData = Returns t /\
              trackerEvts.1 = Some t
          else trackerEvts.1 = None /\ trackerEvts.2 = false) as Ht.
  { destruct tracker; [|by injection Et as <-].
    unfold sbind in Et.
    destruct (readSection _ _ _) as [bytes|] eqn:Er; [|discriminate].
    apply readSection_Go in Er.
    destruct (call _ (DecodeTrackerEvts _ _ _)) as [evts|] eqn:Ec; [|discriminate].
    apply call_Go in Ec.
    destruct (call _ (trackerInit _ _ _)) as [t|] eqn:Ei'; [|discriminate].
    apply call_Go in Ei'. injection Et as <-.
    exists bytes, evts.1, t. cbn. split; [done|]. split; [by destruct evts|done]. }
  clear Et.
  unfold ret in H. injection H as <- <- <-.
  split; [|done].
  exists userData, h, p, bytesD, details, bytesI, initData, bytesA, attrEvts, bytesM.
  cbn. repeat (split; [done|]). done.
Qed.

(** The results of [newRep] hold a session exactly when they hold no
    error, and the session is the one the body returned. *)
Lemma newRep_session mpq game message tracker w (rep : Rep0) err w' :
  newRep d mpq game message tracker w = Done ((Some rep, err), w') ->
  builtFrom d mpq game message tracker rep /\ err = None /\ w' = w.
Proof.
  unfold newRep.
  destruct (newRepBody d mpq game message tracker) as [[]|closeMPQ exit] eqn:Hbody.
  unfold deferred. destruct exit as [res|]; [|discriminate].
  intros [= -> Hw].
  apply newRepBody_session in Hbody as (Hb & He & ->).
  by subst.
Qed.

Lemma reads_readSection closeMPQ mpq h bytes :
  reads mpq h bytes ->
  readSection (ProtocolT := ProtocolT) (DetailsT := DetailsT)
    (InitDataT := InitDataT) (AttrEvtsT := AttrEvtsT) (MetadataT := MetadataT)
    (TrackerT := TrackerT) closeMPQ mpq h = Go bytes.
Proof.
  intros (f & Hf & Hok & ->). unfold readSection, fileOf in *.
  rewrite Hf. cbn. by rewrite Hok.
Qed.

Lemma heldOrBackup_readWithBackup closeMPQ mpq h b bytes :
  heldOrBackup mpq h b bytes ->
  readWithBackup (ProtocolT := ProtocolT) (DetailsT := DetailsT)
    (InitDataT := InitDataT) (AttrEvtsT := AttrEvtsT) (MetadataT := MetadataT)
    (TrackerT := TrackerT) closeMPQ mpq h b = Go bytes.
Proof.
  unfold heldOrBackup, holds, unusable, reads, readWithBackup, fileOf.
  intros [[(f & Hf & Hok & ->) Hlen]
         |[(f & Hf & Hbad) [(f' & Hf' & Hok' & ->) Hlen']]].
  - rewrite Hf. cbn. rewrite Hok. cbn.
    by destruct (Nat.eqb_spec (len (data f)) 0).
  - rewrite Hf. cbn.
    assert (failed f || (len (data f) =? 0)%nat = true) as ->.
    { destruct Hbad as [->| ->]; [done|]. apply orb_true_r. }
    rewrite Hf'. cbn. rewrite Hok'. cbn.
    by destruct (Nat.eqb_spec (len (data f')) 0).
Qed.

End BuiltFacts.

(** X16. [newRep] returns a session exactly when the header decodes, a
    protocol is found for its base build or else for the latest build, the
    details and the init data are read from their sections or, when those
    give an error or no data, from their backups, the attributes and the
    metadata are read without an error (the metadata may be absent, but must
    parse when present) and no call faults. The session then holds what was
    decoded, the archive and no error; each event stream is decoded only when
    asked for, and a decoding error in a stream is recorded in its flag
    without failing the construction. *)
Theorem session_iff
    {ProtocolT DetailsT InitDataT AttrEvtsT MetadataT TrackerT : Type}
    (d : @repm.Decoder ProtocolT DetailsT InitDataT AttrEvtsT MetadataT TrackerT)
    (mpq : repm.MPQ) (game message tracker : bool) (w : repm.World)
    (rep : @repm.Rep ProtocolT DetailsT InitDataT AttrEvtsT MetadataT TrackerT) :
  (exists err w', repm.newRep d mpq game message tracker w = Done ((Some rep, err), w'))
  <-> builtFrom d mpq game message tracker rep.
Proof.
  split.
  { intros (err & w' & H). by apply newRep_session in H as (Hb & _). }
  intros (userData & h & p & bytesD & details & bytesI & initData & bytesA
          & attrEvts & bytesM & Hu & Hh & Hp & Hd & Hdd & Hi & Hid & Ha & Had
          & Hm & Hmd & Hg & Hs & Ht & Hmpq & Hprot & Hhead & Hdet & Hinit & Hattr).
  exists None, w. unfold repm.newRep, repm.newRepBody.
  rewrite Hu. cbn [repm.call repm.sbind]. rewrite Hh. cbn [repm.call repm.sbind].
  destruct Hp as [Hp|[Hp1 Hp2]].
  all: rewrite ?Hp, ?Hp1; cbn [repm.call repm.sbind]; rewrite ?Hp2;
    cbn [repm.call repm.sbind].
  all: rewrite (heldOrBackup_readWithBackup true mpq fileDetails fileDetailsBackup
                  bytesD Hd); cbn [repm.call repm.sbind].
  all: rewrite Hdd; cbn [repm.call repm.sbind].
  all: rewrite (heldOrBackup_readWithBackup true mpq fileInitData fileInitDataBackup
                  bytesI Hi); cbn [repm.call repm.sbind].
  all: rewrite Hid; cbn [repm.call repm.sbind].
  all: rewrite (reads_readSection true mpq fileAttributes bytesA Ha);
    cbn [repm.call repm.sbind].
  all: rewrite Had; cbn [repm.call repm.sbind].
  all: rewrite (reads_readSection true mpq fileMetadata bytesM Hm);
    cbn [repm.call repm.sbind].
  all: destruct rep as [rm rprot rhead rdet rinit rattr rmeta rgame rmsg rtrk
                          rgerr rmerr rterr]; cbn in Hmd, Hg, Hs, Ht, Hmpq, Hprot,
                          Hhead, Hdet, Hinit, Hattr; subst.
  all: destruct bytesM as [b|]; [destruct Hmd as (md & Hmd & ->); rewrite Hmd|subst];
    cbn [repm.call repm.sbind].
  all: unfold streamOf in Hg, Hs.
  all: destruct game; [destruct Hg as (bytesG & Hrg & Hg);
                       rewrite (reads_readSection true mpq fileGameEvts bytesG Hrg);
                       cbn [repm.call repm.sbind]; rewrite Hg
                      |destruct Hg as [-> ->]]; cbn [repm.call repm.sbind].
  all: destruct message; [destruct Hs as (bytesS & Hrs & Hs);
                          rewrite (reads_readSection true mpq fileMessageEvts bytesS Hrs);
                          cbn [repm.call repm.sbind]; rewrite Hs
                         |destruct Hs as [-> ->]]; cbn [repm.call repm.sbind].
  all: destruct tracker; [destruct Ht as (bytesT & evts & t & Hrt & Ht & Hti & ->);
                          rewrite (reads_readSection true mpq fileTrackerEvts bytesT Hrt);
                          cbn [repm.call repm.sbind]; rewrite Ht;
                          cbn [repm.call repm.sbind fst snd]; rewrite Hti
                         |destruct Ht as [-> ->]]; cbn [repm.call repm.sbind].
  all: reflexivity.
Qed.

Section Avoids.
Import repm.
Context {ProtocolT DetailsT InitDataT AttrEvtsT MetadataT TrackerT : Type}.

Local Abbreviation Results1 :=
  (@Results ProtocolT DetailsT InitDataT AttrEvtsT MetadataT TrackerT).

Lemma avoids_sbind {A B} e (c : Step Results1 A) (k : A -> Step Results1 B) :
  avoids e c -> (forall a, avoids e (k a)) -> avoids e (sbind c k).
Proof.
  intros Hc Hk cm r. destruct c as [a|cm' exit]; cbn [sbind]; [apply Hk|].
  intros [= -> ->]. by apply (Hc cm r).
Qed.

Lemma avoids_call {A} e cm (c : Call A) : avoids e (call (R := Results1) cm c).
Proof. intros cm' r. by destruct c. Qed.

Lemma avoids_Go {A} e (a : A) : avoids e (Go (R := Results1) a).
Proof. by intros cm' r. Qed.

Lemma avoids_readSection e cm mpq h :
  e <> ErrInvalidRepFile ->
  avoids e (readSection (ProtocolT := ProtocolT) (DetailsT := DetailsT)
              (InitDataT := InitDataT) (AttrEvtsT := AttrEvtsT)
              (MetadataT := MetadataT) (TrackerT := TrackerT) cm mpq h).
Proof.
  intros He cm' r. unfold readSection, call, ret, sbind.
  destruct (FileByHash mpq _ _ _) as [f|]; [|discriminate].
  destruct (failed f); [|discriminate]. by intros [= _ _ <-].
Qed.

Lemma avoids_readWithBackup e cm mpq h b :
  e <> ErrInvalidRepFile ->
  avoids e (readWithBackup (ProtocolT := ProtocolT) (DetailsT := DetailsT)
              (InitDataT := InitDataT) (AttrEvtsT := AttrEvtsT)
              (MetadataT := MetadataT) (TrackerT := TrackerT) cm mpq h b).
Proof.
  intros He cm' r. unfold readWithBackup, call, ret, sbind.
  destruct (FileByHash mpq h.1.1 h.1.2 h.2) as [f|]; [|discriminate].
  destruct (failed f || _); [|discriminate].
  destruct (FileByHash mpq b.1.1 b.1.2 b.2) as [f'|]; [|discriminate].
  destruct (failed f' || _); [|discriminate]. by intros [= _ _ <-].
Qed.

End Avoids.

Ltac avoid_step :=
  first
    [ apply avoids_call
    | apply avoids_Go
    | apply avoids_readSection; discriminate
    | apply avoids_readWithBackup; discriminate
    | apply avoids_sbind; [|intros ?]
    | match goal with
      | |- avoids _ (match ?x with _ => _ end) => destruct x
      | |- avoids _ (repm.sbind (match ?x with _ => _ end) _) => destruct x
      | |- avoids _ (repm.ret _ _ _) => intros ? ?; discriminate
      end ].


(** X18. A session that [NewFromFile] or [New] returns comes without an
    error, holds the archive it was opened from, and carries tracker events:
    [TrackerEvts] is not [nil], so that a caller may read
    [r.TrackerEvts.Evts] and [Close] reaches the archive. *)
Theorem full_session_carries_tracker
    {ProtocolT DetailsT InitDataT AttrEvtsT MetadataT TrackerT : Type}
    (d : @repm.Decoder ProtocolT DetailsT InitDataT AttrEvtsT MetadataT TrackerT)
    (opened : option repm.MPQ) (w w' : repm.World)
    (rep : @repm.Rep ProtocolT DetailsT InitDataT AttrEvtsT MetadataT TrackerT)
    (err : option repm.RepError) :
  repm.NewFromFile d opened w = Done ((Some rep, err), w') \/
  repm.New d opened w = Done ((Some rep, err), w') ->
  err = None /\ w' = w /\ repm.m rep = opened /\ repm.TrackerEvts rep <> None.
Proof.
  unfold repm.NewFromFile, repm.NewFromFileEvts, repm.New, repm.NewEvts.
  destruct opened as [mpq|]; [|by intros [H|H]].
  intros H.
  assert (repm.newRep d mpq true true true w = Done ((Some rep, err), w')) as Hnew
    by (by destruct H).
  apply newRep_session in Hnew as (Hb & -> & ->).
  destruct Hb as (userData & h & p & bytesD & details & bytesI & initData & bytesA
                  & attrEvts & bytesM & _ & _ & _ & _ & _ & _ & _ & _ & _ & _ & _
                  & _ & _ & Ht & Hmpq & _).
  destruct Ht as (bytes & evts & t & _ & _ & _ & Ht).
  repeat split; try done. by rewrite Ht.
Qed.

Lemma full_session_carries_tracker_witness :
  exists rep,
    repm.NewFromFile SampleSession.plain (Some SampleSession.fileArchive)
      SampleSession.fresh
    = Done ((Some rep, None), SampleSession.fresh) /\
    repm.m rep = Some SampleSession.fileArchive /\
    repm.TrackerEvts rep <> None.
Proof.
  eexists. split; [vm_compute; reflexivity|].
  refine (proj2 (proj2 (full_session_carries_tracker SampleSession.plain
                          (Some SampleSession.fileArchive) SampleSession.fresh
                          SampleSession.fresh _ None _))).
  left. vm_compute. reflexivity.
Defined.


(** * Properties of the preprocessing of tracker events *)

Lemma int64_small (x : Z) :
  (- 2 ^ 63 <= x < 2 ^ 63)%Z -> trackerevts.int64 x = x.
Proof.
  intros Hx. unfold trackerevts.int64, trackerevts.wrap.
  change (64 - 1)%Z with 63%Z.
  rewrite Z.mod_small; lia.
Qed.

Lemma int32_small (x : Z) :
  (- 2 ^ 31 <= x < 2 ^ 31)%Z -> trackerevts.int32 x = x.
Proof.
  intros Hx. unfold trackerevts.int32, trackerevts.wrap.
  change (32 - 1)%Z with 31%Z.
  rewrite Z.mod_small; lia.
Qed.

Section InitFacts.
Import trackerevts.
Variable h : Host.
Variable rep : InitData.

Local Abbreviation readSetup0 := (readSetup h).
Local Abbreviation readEvent0 := (readEvent h rep).

(** The first loop: a player gets the descriptor of the first setup event
    that names it. *)
Lemma readSetup_lookup evts t pid :
  pidPlayerDescMap (readSetup0 evts t) !! pid =
  match pidPlayerDescMap t !! pid with
  | Some pd => Some pd
  | None => pidPlayerDescMap (readSetup0 evts {| pidPlayerDescMap := ∅; pidStats := ∅ |}) !! pid
  end.
Proof.
  revert t. induction evts as [|e evts IH]; intros t;
    cbn [readSetup pidPlayerDescMap].
  - rewrite lookup_empty. by destruct (pidPlayerDescMap t !! pid).
  - destruct (0 <? Loop e)%Z.
    { cbn [pidPlayerDescMap]. rewrite lookup_empty.
      by destruct (pidPlayerDescMap t !! pid). }
    destruct (negb _); [apply IH|].
    rewrite lookup_empty. cbv iota.
    destruct (pidPlayerDescMap t !! Int (fields e) ["playerId"]) as [pd0|] eqn:Hpd0.
    + rewrite IH.
      rewrite (IH {| pidPlayerDescMap := <[_ := _]> ∅; pidStats := _ |}).
      cbn [pidPlayerDescMap].
      destruct (decide (Int (fields e) ["playerId"] = pid)) as [<-|Hne].
      * by rewrite Hpd0.
      * rewrite lookup_insert_ne by done. by rewrite lookup_empty.
    + rewrite IH.
      rewrite (IH {| pidPlayerDescMap := <[_ := _]> ∅; pidStats := _ |}).
      cbn [pidPlayerDescMap].
      destruct (decide (Int (fields e) ["playerId"] = pid)) as [<-|Hne].
      * by rewrite !lookup_insert_eq, Hpd0.
      * rewrite !lookup_insert_ne by done. by rewrite lookup_empty.
Qed.

Lemma readSetup_firstSetup evts pid :
  match pidPlayerDescMap (readSetup0 evts {| pidPlayerDescMap := ∅; pidStats := ∅ |})
          !! pid with
  | Some pd => exists e, firstSetup h evts pid e /\ pd = newPlayerDesc e
  | None => forall e, ~ firstSetup h evts pid e
  end.
Proof.
  unfold firstSetup.
  induction evts as [|e evts IH]; cbn [readSetup reached pidPlayerDescMap].
  - rewrite lookup_empty. intros e (pre & post & Hnil & _). by destruct pre.
  - destruct (Z.ltb_spec 0 (Loop e)) as [Hl|Hl].
    { cbn [pidPlayerDescMap]. rewrite lookup_empty.
      intros e' (pre & post & Hnil & _). by destruct pre. }
    destruct (Z.eqb_spec (ID h e) (TrackerEvtIDPlayerSetup h)) as [Hid|Hid];
      cbn [negb].
    + rewrite lookup_empty. cbv iota. rewrite readSetup_lookup.
      cbn [pidPlayerDescMap].
      destruct (decide (Int (fields e) ["playerId"] = pid)) as [Hp|Hp].
      * rewrite Hp, lookup_insert_eq. exists e. split; [|done].
        exists [], (reached evts). by repeat split.
      * rewrite lookup_insert_ne by done. rewrite lookup_empty.
        destruct (pidPlayerDescMap (readSetup0 evts _) !! pid) as [pd|].
        { destruct IH as (e' & (pre & post & Hr & Hi & Hpid & Hpre) & ->).
          exists e'. split; [|done].
          exists (e :: pre), post. rewrite Hr. repeat split; try done.
          constructor; [|done]. by intros _. }
        intros e' (pre & post & Hr & Hi & Hpid & Hpre).
        destruct pre as [|e0 pre]; simpl in Hr; injection Hr as -> Hr.
        { done. }
        apply (IH e'). exists pre, post. repeat split; try done.
        by apply Forall_cons in Hpre as [_ Hpre].
    + destruct (pidPlayerDescMap (readSetup0 evts _) !! pid) as [pd|].
      { destruct IH as (e' & (pre & post & Hr & Hi & Hpid & Hpre) & ->).
        exists e'. split; [|done].
        exists (e :: pre), post. rewrite Hr. repeat split; try done.
        constructor; [|done]. by intros Hid'. }
      intros e' (pre & post & Hr & Hi & Hpid & Hpre).
      destruct pre as [|e0 pre]; simpl in Hr; injection Hr as -> Hr.
      { done. }
      apply (IH e'). exists pre, post. repeat split; try done.
      by apply Forall_cons in Hpre as [_ Hpre].
Qed.

(** Every descriptor comes with statistics that start at zero. *)
Lemma readSetup_stats evts t pid :
  (forall pid, pidStats t !! pid
               = (fun _ => {| samples := 0; unspents := 0; incomes := 0;
                              supCapped := 0 |}) <$> pidPlayerDescMap t !! pid) ->
  pidStats (readSetup0 evts t) !! pid
  = (fun _ => {| samples := 0; unspents := 0; incomes := 0; supCapped := 0 |})
      <$> pidPlayerDescMap (readSetup0 evts t) !! pid.
Proof.
  revert t. induction evts as [|e evts IH]; intros t Ht; cbn [readSetup]; [done|].
  destruct (0 <? Loop e)%Z; [done|].
  destruct (negb _); [by apply IH|].
  destruct (pidPlayerDescMap t !! Int (fields e) ["playerId"]) eqn:Hpd0;
    [by apply IH|].
  apply IH. intros pid'. cbn [pidStats pidPlayerDescMap].
  destruct (decide (Int (fields e) ["playerId"] = pid')) as [<-|Hne].
  - by rewrite !lookup_insert_eq.
  - by rewrite !lookup_insert_ne.
Qed.

(** The second loop, seen from one player: the descriptor takes the start
    location of each event that gives one, the statistics take each sample. *)
Lemma readEvent_lookup t e pid :
  pidPlayerDescMap (readEvent0 t e) !! pid
  = (fun pd => if givesStart h pid e then located h rep pd e else pd)
      <$> pidPlayerDescMap t !! pid /\
  pidStats (readEvent0 t e) !! pid
  = (fun st => if isSample h pid e then sampled st e else st) <$> pidStats t !! pid.
Proof.
  unfold readEvent, readStats, readBorn, givesStart, isSample.
  assert (forall {A} (o : option A), o = (fun x => x) <$> o) as Hid
    by (by intros A []).
  split.
  - assert (pidPlayerDescMap
              (if (ID h e =? TrackerEvtIDPlayerStats h)%Z
               then match pidStats (readBorn h rep t e) !! Int (fields e) ["playerId"] with
                    | Some st =>
                        {| pidPlayerDescMap := pidPlayerDescMap (readBorn h rep t e);
                           pidStats := <[Int (fields e) ["playerId"] := sampled st e]>
                                         (pidStats (readBorn h rep t e)) |}
                    | None => readBorn h rep t e
                    end
               else readBorn h rep t e)
            = pidPlayerDescMap (readBorn h rep t e)) as Hsame.
    { destruct (_ =? _)%Z; [|done]. by destruct (_ !! _). }
    unfold readBorn in Hsame. rewrite Hsame. clear Hsame.
    destruct ((Loop e =? 0)%Z && (ID h e =? TrackerEvtIDUnitBorn h)%Z);
      cbn [andb]; [|apply Hid].
    destruct (isMainBuilding _); cbn [andb]; [|apply Hid].
    destruct (Z.eqb_spec (Int (fields e) ["controlPlayerId"]) pid) as [->|Hne].
    + destruct (pidPlayerDescMap t !! pid) as [pd|] eqn:Hpd;
        cbn [pidPlayerDescMap]; [|by rewrite Hpd].
      by rewrite lookup_insert_eq.
    + destruct (pidPlayerDescMap t !! Int (fields e) ["controlPlayerId"]);
        cbn [pidPlayerDescMap]; [|apply Hid].
      rewrite lookup_insert_ne by done. apply Hid.
  - assert (pidStats (readBorn h rep t e) = pidStats t) as Hsame.
    { unfold readBorn. destruct (_ && _); [|done].
      destruct (isMainBuilding _); [|done]. by destruct (_ !! _). }
    fold (readBorn h rep t e). rewrite Hsame.
    destruct (ID h e =? TrackerEvtIDPlayerStats h)%Z; cbn [andb];
      [|by rewrite Hsame; apply Hid].
    destruct (Z.eqb_spec (Int (fields e) ["playerId"]) pid) as [->|Hne].
    + destruct (pidStats t !! pid) as [st|] eqn:Hst; cbn [pidStats];
        [|by rewrite Hsame, Hst].
      by rewrite lookup_insert_eq.
    + destruct (pidStats t !! Int (fields e) ["playerId"]); cbn [pidStats];
        [|rewrite Hsame; apply Hid].
      rewrite lookup_insert_ne by done. apply Hid.
Qed.

Lemma foldl_readEvent_lookup evts t pid :
  pidPlayerDescMap (foldl readEvent0 t evts) !! pid
  = (fun pd => foldl (fun pd e => if givesStart h pid e then located h rep pd e else pd)
                 pd evts) <$> pidPlayerDescMap t !! pid /\
  pidStats (foldl readEvent0 t evts) !! pid
  = (fun st => foldl (fun st e => if isSample h pid e then sampled st e else st)
                 st evts) <$> pidStats t !! pid.
Proof.
  revert t. induction evts as [|e evts IH]; intros t; cbn [foldl].
  - split; by destruct (_ !! _).
  - destruct (IH (readEvent0 t e)) as [-> ->].
    destruct (readEvent_lookup t e pid) as [-> ->].
    split; by destruct (_ !! _).
Qed.

Lemma finished_lookup t pid :
  finished h t !! pid = finish h (pidStats t !! pid) <$> pidPlayerDescMap t !! pid.
Proof.
  unfold finished. rewrite map_lookup_imap. by destruct (pidPlayerDescMap t !! pid).
Qed.

(** A start location changes nothing else of a descriptor, and the last
    event that gives one decides. *)
Lemma foldl_located pid pd evts :
  let pd' := foldl (fun pd e => if givesStart h pid e then located h rep pd e else pd)
               pd evts in
  PlayerID pd' = PlayerID pd /\ SlotID pd' = SlotID pd /\ UserID pd' = UserID pd /\
  SQ pd' = SQ pd /\ SupplyCappedPercent pd' = SupplyCappedPercent pd /\
  match last (filter (fun e => givesStart h pid e = true) evts) with
  | Some e =>
      StartLocX pd' = Int (fields e) ["x"] /\
      StartLocY pd' = Int (fields e) ["y"] /\
      StartDir pd' = clockOf h (int64 (Int (fields e) ["y"] - cy rep))
                       (int64 (Int (fields e) ["x"] - cx rep))
  | None =>
      StartLocX pd' = StartLocX pd /\ StartLocY pd' = StartLocY pd /\
      StartDir pd' = StartDir pd
  end.
Proof.
  revert pd. induction evts as [|e evts IH]; intros pd; cbn [foldl].
  - by rewrite filter_nil.
  - rewrite filter_cons. cbn zeta in IH.
    destruct (givesStart h pid e) eqn:Hg.
    + rewrite decide_True by done.
      specialize (IH (located h rep pd e)). cbn [located PlayerID SlotID UserID SQ
        SupplyCappedPercent StartLocX StartLocY StartDir] in IH.
      destruct IH as (-> & -> & -> & -> & -> & IH).
      repeat (split; [done|]).
      rewrite last_cons.
      by destruct (last (filter _ evts)).
    + rewrite decide_False by (by intros [=]). apply IH.
Qed.

(** The statistics count the samples of a player and those in which the
    supply is capped, as long as the counters do not overflow. *)
Lemma foldl_sampled pid st evts :
  (0 <= samples st)%Z -> (0 <= supCapped st)%Z ->
  (samples st + Z.of_nat (length evts) < 2 ^ 63)%Z ->
  (supCapped st + Z.of_nat (length evts) < 2 ^ 63)%Z ->
  let st' := foldl (fun st e => if isSample h pid e then sampled st e else st)
               st evts in
  samples st' = (samples st
                 + Z.of_nat (length (filter (fun e => isSample h pid e = true) evts)))%Z /\
  supCapped st' = (supCapped st
                   + Z.of_nat (length (filter (fun e => isCapped e = true)
                                         (filter (fun e => isSample h pid e = true)
                                            evts))))%Z.
Proof.
  revert st. induction evts as [|e evts IH]; intros st Hs Hc Hsn Hcn; cbn [foldl].
  - rewrite !filter_nil. cbn. lia.
  - rewrite filter_cons. cbn zeta in IH. cbn [length] in Hsn, Hcn.
    destruct (isSample h pid e) eqn:Hg.
    + rewrite decide_True by done. rewrite filter_cons.
      assert (samples (sampled st e) = samples st + 1)%Z as Hs1.
      { cbn [sampled samples]. apply int64_small. lia. }
      assert (supCapped (sampled st e)
              = if isCapped e then (supCapped st + 1)%Z else supCapped st) as Hc1.
      { cbn [sampled supCapped]. unfold isCapped.
        destruct (_ <=? _)%Z; [|done]. apply int64_small. lia. }
      destruct (IH (sampled st e)) as [-> ->].
      * lia.
      * rewrite Hc1. destruct (isCapped e); lia.
      * lia.
      * rewrite Hc1. destruct (isCapped e); lia.
      * rewrite Hs1, Hc1. cbn [length].
        destruct (isCapped e) eqn:Hcap.
        -- rewrite decide_True by done. cbn [length]. lia.
        -- rewrite decide_False by (by intros [=]). lia.
    + rewrite decide_False by (by intros [=]). apply IH; lia.
Qed.

(** What [init] makes of a player: the descriptor of its first setup event,
    with the start locations and the statistics of the second loop. *)
Lemma descriptors_lookup evts pid :
  match descriptors h rep evts !! pid with
  | Some pd =>
      exists e,
        firstSetup h evts pid e /\
        pd = finish h
               (Some (foldl (fun st e => if isSample h pid e then sampled st e else st)
                        {| samples := 0; unspents := 0; incomes := 0; supCapped := 0 |}
                        evts))
               (foldl (fun pd e => if givesStart h pid e then located h rep pd e else pd)
                  (newPlayerDesc e) evts)
  | None => forall e, ~ firstSetup h evts pid e
  end.
Proof.
  unfold descriptors. cbn zeta.
  rewrite finished_lookup.
  destruct (foldl_readEvent_lookup evts
              (readSetup0 evts {| pidPlayerDescMap := ∅; pidStats := ∅ |}) pid)
    as [-> ->].
  rewrite (readSetup_stats evts _ pid) by (intros ?; cbn; by rewrite !lookup_empty).
  pose proof (readSetup_firstSetup evts pid) as Hfirst.
  destruct (pidPlayerDescMap (readSetup0 evts _) !! pid) as [pd1|]; cbn.
  - destruct Hfirst as (e & He & ->). by exists e.
  - done.
Qed.

Lemma init_Done evts pm tm :
  init h rep evts = Done (pm, tm) <->
  pm = descriptors h rep evts /\
  fillToon rep (ranged h (map_to_list (descriptors h rep evts))) ∅ = Done tm.
Proof.
  unfold init. cbn zeta.
  destruct (fillToon rep _ ∅) as [tm'|]; simpl; split.
  - by intros [= <- <-].
  - by intros [-> [= ->]].
  - discriminate.
  - by intros [_ [=]].
Qed.

Lemma firstSetup_unique evts pid e e' :
  firstSetup h evts pid e -> firstSetup h evts pid e' -> e = e'.
Proof.
  intros (pre & post & Hr & Hi & Hp & Hpre) (pre' & post' & Hr' & Hi' & Hp' & Hpre').
  rewrite Hr in Hr'. clear Hr. revert pre' Hr' Hpre'.
  induction pre as [|x pre IH]; intros [|x' pre'] Hr' Hpre'; simpl in Hr'.
  - by injection Hr'.
  - injection Hr' as <- _. apply Forall_cons in Hpre' as [Hx _]. by destruct (Hx Hi).
  - injection Hr' as -> _. apply Forall_cons in Hpre as [Hx _]. by destruct (Hx Hi').
  - injection Hr' as <- Hr'. apply Forall_cons in Hpre as [_ Hpre].
    apply Forall_cons in Hpre' as [_ Hpre']. by apply (IH Hpre pre').
Qed.

Lemma finish_keeps st pd :
  PlayerID (finish h st pd) = PlayerID pd /\
  SlotID (finish h st pd) = SlotID pd /\
  UserID (finish h st pd) = UserID pd /\
  StartLocX (finish h st pd) = StartLocX pd /\
  StartLocY (finish h st pd) = StartLocY pd /\
  StartDir (finish h st pd) = StartDir pd.
Proof.
  unfold finish. destruct st as [st|]; [|done]. by destruct (samples st =? 0)%Z.
Qed.

Lemma fillToon_completes pds ret :
  completes (fillToon rep pds ret) <->
  Forall (fun p => inLobby rep (SlotID p.2)) pds.
Proof.
  unfold inLobby.
  revert ret. induction pds as [|[pid pd] pds IH]; intros ret; cbn [fillToon].
  - split; [constructor|done].
  - rewrite Forall_cons. cbn [snd]. unfold index.
    destruct (Z.ltb_spec (SlotID pd) 0); cbn [obind].
    { simpl. split; [done|]. intros [Hr _]. lia. }
    destruct (Slots rep !! Z.to_nat (SlotID pd)) as [slot|] eqn:Hs; cbn [obind].
    + rewrite IH. apply lookup_lt_Some in Hs. split; [|tauto].
      intros Hall. split; [lia|done].
    + apply lookup_ge_None in Hs. simpl. split; [done|]. intros [Hr _]. lia.
Qed.

Lemma fillToon_lookup pds ret tm :
  fillToon rep pds ret = Done tm ->
  (forall toon pd,
     tm !! toon = Some pd ->
     ret !! toon = Some pd \/
     exists pid slot,
       (pid, pd) ∈ pds /\ index (Slots rep) (SlotID pd) = Done slot /\
       ToonHandle slot = toon) /\
  (forall toon, is_Some (ret !! toon) -> is_Some (tm !! toon)) /\
  (forall pid pd,
     (pid, pd) ∈ pds ->
     exists slot,
       index (Slots rep) (SlotID pd) = Done slot /\ is_Some (tm !! ToonHandle slot)).
Proof.
  revert ret. induction pds as [|[pid pd] pds IH]; intros ret; cbn [fillToon].
  - intros [= <-]. split; [by left|]. split; [done|].
    intros pid pd Hin. by apply elem_of_nil in Hin.
  - destruct (index (Slots rep) (SlotID pd)) as [slot|] eqn:Hs; cbn [obind];
      [|discriminate].
    intros Hfill. destruct (IH _ Hfill) as (Hfrom & Hkeep & Hall).
    split; [|split].
    + intros toon pd' Htm. destruct (Hfrom toon pd' Htm) as [Hret|Hin].
      * destruct (decide (ToonHandle slot = toon)) as [Heq|Hne].
        -- rewrite Heq, lookup_insert_eq in Hret. injection Hret as <-.
           right. exists pid, slot. split; [left|done].
        -- rewrite lookup_insert_ne in Hret by done. by left.
      * destruct Hin as (pid' & slot' & Hin & Hidx & Ht).
        right. exists pid', slot'. split; [by right|done].
    + intros toon Hsome. apply Hkeep.
      destruct (decide (ToonHandle slot = toon)) as [Heq|Hne].
      * rewrite Heq, lookup_insert_eq. by eexists.
      * by rewrite lookup_insert_ne.
    + intros pid' pd' Hin. apply elem_of_cons in Hin as [[= -> ->]|Hin].
      * exists slot. split; [done|]. apply Hkeep.
        rewrite lookup_insert_eq. by eexists.
      * by apply Hall in Hin.
Qed.

End InitFacts.

(** X19. [init] keeps one descriptor per player: a player has a descriptor
    exactly when a [PlayerSetup] event names it before the first event past
    loop 0, and the player, slot and user ids of the descriptor are those of
    the first such event; later setup events for the same player change
    nothing. *)
Theorem descriptor_of_first_setup (h : trackerevts.Host)
    (rep : trackerevts.InitData) (evts : list Event)
    (pm : gmap Z trackerevts.PlayerDesc) (tm : gmap string trackerevts.PlayerDesc)
    (pid : Z) :
  trackerevts.init h rep evts = Done (pm, tm) ->
  match pm !! pid with
  | Some pd =>
      exists e,
        firstSetup h evts pid e /\
        trackerevts.PlayerID pd = pid /\
        trackerevts.SlotID pd = Int (fields e) ["slotId"] /\
        trackerevts.UserID pd = Int (fields e) ["userId"]
  | None => forall e, ~ firstSetup h evts pid e
  end.
Proof.
  intros Hinit. apply init_Done in Hinit as [-> _].
  pose proof (descriptors_lookup h rep evts pid) as Hd.
  destruct (trackerevts.descriptors h rep evts !! pid) as [pd|]; [|done].
  destruct Hd as (e & He & ->). exists e. split; [done|].
  destruct (finish_keeps h
              (Some (foldl (fun st e => if isSample h pid e
                                        then trackerevts.sampled st e else st)
                       {| trackerevts.samples := 0; trackerevts.unspents := 0;
                          trackerevts.incomes := 0; trackerevts.supCapped := 0 |}
                       evts))
              (foldl (fun pd e => if givesStart h pid e
                                  then trackerevts.located h rep pd e else pd)
                 (trackerevts.newPlayerDesc e) evts))
    as (-> & -> & -> & _).
  destruct (foldl_located h rep pid (trackerevts.newPlayerDesc e) evts)
    as (-> & -> & -> & _).
  destruct He as (pre & post & _ & _ & Hp & _). by rewrite <- Hp.
Qed.

Lemma descriptor_of_first_setup_witness :
  exists pm tm pd e,
    trackerevts.init TrackerCases.host TrackerCases.lobby TrackerCases.game
      = Done (pm, tm) /\
    pm !! 1 = Some pd /\
    firstSetup TrackerCases.host TrackerCases.game 1 e /\
    trackerevts.PlayerID pd = 1 /\
    trackerevts.SlotID pd = Int (fields e) ["slotId"] /\
    trackerevts.UserID pd = Int (fields e) ["userId"].
Proof.
  pose proof (descriptor_of_first_setup TrackerCases.host TrackerCases.lobby
                TrackerCases.game
                (trackerevts.descriptors TrackerCases.host TrackerCases.lobby
                   TrackerCases.game)
                _ 1 ltac:(vm_compute; reflexivity)) as H.
  destruct (trackerevts.descriptors TrackerCases.host TrackerCases.lobby
              TrackerCases.game !! 1) as [pd|] eqn:Hpd; [|by vm_compute in Hpd].
  destruct H as (e & H). eexists _, _, pd, e.
  split; [vm_compute; reflexivity|]. split; [exact Hpd|exact H].
Defined.

Lemma init_completes h rep evts :
  visitsAll h ->
  completes (trackerevts.init h rep evts) <->
  forall pid pd,
    trackerevts.descriptors h rep evts !! pid = Some pd ->
    inLobby rep (trackerevts.SlotID pd).
Proof.
  intros Hperm.
  transitivity (completes
                  (trackerevts.fillToon rep
                     (trackerevts.ranged h
                        (map_to_list (trackerevts.descriptors h rep evts))) ∅)).
  { unfold trackerevts.init. cbn zeta.
    by destruct (trackerevts.fillToon rep _ ∅). }
  rewrite fillToon_completes, Forall_forall. split.
  - intros H pid pd Hpd. apply (H (pid, pd)).
    rewrite (Hperm _). by apply elem_of_map_to_list.
  - intros H [pid pd] Hin. rewrite (Hperm _) in Hin.
    apply elem_of_map_to_list in Hin. by apply (H pid).
Qed.

(** X20. [init] runs to its end exactly when the slot id of the first setup
    event of every player is an index into the lobby slots; otherwise the
    index expression of the last loop panics, whatever the order in which
    the map is ranged over. *)
Theorem init_completes_iff (h : trackerevts.Host) (rep : trackerevts.InitData)
    (evts : list Event) :
  visitsAll h ->
  completes (trackerevts.init h rep evts) <->
  forall pid e, firstSetup h evts pid e -> inLobby rep (Int (fields e) ["slotId"]).
Proof.
  intros Hperm. rewrite (init_completes h rep evts Hperm).
  assert (forall pid pd e,
            trackerevts.descriptors h rep evts !! pid = Some pd ->
            firstSetup h evts pid e ->
            trackerevts.SlotID pd = Int (fields e) ["slotId"]) as Hslot.
  { intros pid pd e Hpd He.
    pose proof (descriptors_lookup h rep evts pid) as Hd. rewrite Hpd in Hd.
    destruct Hd as (e' & He' & ->).
    rewrite (firstSetup_unique h evts pid e e' He He').
    destruct (finish_keeps h
                (Some (foldl (fun st e => if isSample h pid e
                                          then trackerevts.sampled st e else st)
                         {| trackerevts.samples := 0; trackerevts.unspents := 0;
                            trackerevts.incomes := 0; trackerevts.supCapped := 0 |}
                         evts))
                (foldl (fun pd e => if givesStart h pid e
                                    then trackerevts.located h rep pd e else pd)
                   (trackerevts.newPlayerDesc e') evts))
      as (_ & -> & _).
    by destruct (foldl_located h rep pid (trackerevts.newPlayerDesc e') evts)
      as (_ & -> & _). }
  split.
  - intros H pid e He.
    pose proof (descriptors_lookup h rep evts pid) as Hd.
    destruct (trackerevts.descriptors h rep evts !! pid) as [pd|] eqn:Hpd.
    + rewrite <- (Hslot pid pd e Hpd He). by apply (H pid).
    + by destruct (Hd e).
  - intros H pid pd Hpd.
    pose proof (descriptors_lookup h rep evts pid) as Hd. rewrite Hpd in Hd.
    destruct Hd as (e & He & _).
    rewrite (Hslot pid pd e Hpd He). by apply (H pid).
Qed.

Lemma init_completes_iff_witness :
  completes (trackerevts.init TrackerCases.host TrackerCases.lobby TrackerCases.game)
  <->
  forall pid e,
    firstSetup TrackerCases.host TrackerCases.game pid e ->
    inLobby TrackerCases.lobby (Int (fields e) ["slotId"]).
Proof.
  apply (init_completes_iff TrackerCases.host TrackerCases.lobby TrackerCases.game).
  intros l. reflexivity.
Defined.

(** X21. [ToonPlayerDescMap] holds descriptors of [PIDPlayerDescMap] only,
    each under the toon handle of the lobby slot its slot id names; and the
    toon handle of every descriptor is a key of the map. Descriptors whose
    slots share a toon handle, the empty one of computer players included,
    share one entry. *)
Theorem toon_map_entries (h : trackerevts.Host) (rep : trackerevts.InitData)
    (evts : list Event)
    (pm : gmap Z trackerevts.PlayerDesc) (tm : gmap string trackerevts.PlayerDesc) :
  visitsAll h ->
  trackerevts.init h rep evts = Done (pm, tm) ->
  (forall toon pd,
     tm !! toon = Some pd ->
     exists pid slot,
       pm !! pid = Some pd /\
       index (trackerevts.Slots rep) (trackerevts.SlotID pd) = Done slot /\
       ToonHandle slot = toon) /\
  (forall pid pd,
     pm !! pid = Some pd ->
     exists slot,
       index (trackerevts.Slots rep) (trackerevts.SlotID pd) = Done slot /\
       is_Some (tm !! ToonHandle slot)).
Proof.
  intros Hperm Hinit. apply init_Done in Hinit as [-> Hfill].
  destruct (fillToon_lookup rep _ _ _ Hfill) as (Hfrom & _ & Hall).
  split.
  - intros toon pd Htm. destruct (Hfrom toon pd Htm) as [Hempty|Hin].
    + by rewrite lookup_empty in Hempty.
    + destruct Hin as (pid & slot & Hin & Hidx & Ht).
      exists pid, slot. split; [|done].
      rewrite (Hperm _) in Hin. by apply elem_of_map_to_list.
  - intros pid pd Hpd. apply (Hall pid).
    rewrite (Hperm _). by apply elem_of_map_to_list.
Qed.

Lemma toon_map_entries_witness :
  exists pm tm pd,
    trackerevts.init TrackerCases.host TrackerCases.lobby TrackerCases.game
      = Done (pm, tm) /\
    tm !! "1-S2-1-200" = Some pd /\
    exists pid slot,
      pm !! pid = Some pd /\
      index (trackerevts.Slots TrackerCases.lobby) (trackerevts.SlotID pd)
        = Done slot /\
      ToonHandle slot = "1-S2-1-200".
Proof.
  eexists _, _, _.
  split; [vm_compute; reflexivity|].
  split; [vm_compute; reflexivity|].
  refine (proj1 (toon_map_entries TrackerCases.host TrackerCases.lobby
                   TrackerCases.game _ _ _ _) "1-S2-1-200" _ _).
  - intros l. reflexivity.
  - vm_compute; reflexivity.
  - vm_compute; reflexivity.
Defined.

(** X22. The supply-capped percentage of a player is the share, in whole
    percent, of the player's statistics samples in which the supply used has
    reached the supply made; it lies between 0 and 100. A player without a
    sample keeps 0 for the percentage and for the SQ: nothing is divided by
    zero. The counters are 64 bits wide; the bound on the number of events
    keeps them from wrapping around. *)
Theorem supply_capped_percent (h : trackerevts.Host) (rep : trackerevts.InitData)
    (evts : list Event)
    (pm : gmap Z trackerevts.PlayerDesc) (tm : gmap string trackerevts.PlayerDesc)
    (pid : Z) (pd : trackerevts.PlayerDesc) :
  trackerevts.init h rep evts = Done (pm, tm) ->
  pm !! pid = Some pd ->
  (Z.of_nat (length evts) < 2 ^ 56)%Z ->
  let n := Z.of_nat (length (filter (fun e => isSample h pid e = true) evts)) in
  let c := Z.of_nat (length (filter (fun e => isCapped e = true)
                               (filter (fun e => isSample h pid e = true) evts))) in
  (n = 0%Z -> trackerevts.SQ pd = 0%Z /\ trackerevts.SupplyCappedPercent pd = 0%Z) /\
  (n <> 0%Z -> trackerevts.SupplyCappedPercent pd = (c * 100 / n)%Z) /\
  (0 <= trackerevts.SupplyCappedPercent pd <= 100)%Z.
Proof.
  intros Hinit Hpd Hlen n c. apply init_Done in Hinit as [-> _].
  pose proof (descriptors_lookup h rep evts pid) as Hd. rewrite Hpd in Hd.
  destruct Hd as (e & _ & ->).
  destruct (foldl_sampled h pid
              {| trackerevts.samples := 0; trackerevts.unspents := 0;
                 trackerevts.incomes := 0; trackerevts.supCapped := 0 |} evts)
    as [Hs Hc]; cbn [trackerevts.samples trackerevts.supCapped]; try lia.
  fold n in Hs. fold c in Hc. rewrite Z.add_0_l in Hs, Hc.
  destruct (foldl_located h rep pid (trackerevts.newPlayerDesc e) evts)
    as (_ & _ & _ & Hsq & Hcap & _).
  cbn [trackerevts.newPlayerDesc trackerevts.SQ trackerevts.SupplyCappedPercent]
    in Hsq, Hcap.
  assert (0 <= c <= n)%Z as Hcn.
  { unfold c, n. split; [lia|]. apply inj_le, length_filter. }
  assert (Z.of_nat (length (filter (fun e => isSample h pid e = true) evts))
          <= Z.of_nat (length evts))%Z as Hn by apply inj_le, length_filter.
  fold n in Hn.
  unfold trackerevts.finish. rewrite Hs.
  destruct (Z.eqb_spec n 0) as [Hz|Hnz].
  - rewrite Hsq, Hcap. split; [done|]. split; [done|lia].
  - cbn [trackerevts.SQ trackerevts.SupplyCappedPercent]. rewrite Hc.
    assert (0 <= c * 100 / n <= 100)%Z as Hrange.
    { split; [apply Z.div_pos; lia|].
      apply Z.div_le_upper_bound; lia. }
    rewrite (int64_small (c * 100)) by lia.
    rewrite (Z.quot_div_nonneg (c * 100) n) by lia.
    rewrite (int64_small (c * 100 / n)) by lia.
    rewrite int32_small by lia.
    split; [done|]. split; [done|lia].
Qed.

Lemma supply_capped_percent_witness :
  exists pm tm pd,
    trackerevts.init TrackerCases.host TrackerCases.lobby TrackerCases.game
      = Done (pm, tm) /\
    pm !! 1 = Some pd /\
    trackerevts.SupplyCappedPercent pd = (1 * 100 / 3)%Z /\
    (0 <= trackerevts.SupplyCappedPercent pd <= 100)%Z.
Proof.
  eexists _, _, _.
  split; [vm_compute; reflexivity|].
  split; [vm_compute; reflexivity|].
  pose proof (supply_capped_percent TrackerCases.host TrackerCases.lobby
                TrackerCases.game _ _ 1 _
                ltac:(vm_compute; reflexivity) ltac:(vm_compute; reflexivity)
                ltac:(vm_compute; reflexivity)) as (_ & Hpct & Hrange).
  split; [|exact Hrange]. apply Hpct. vm_compute. discriminate.
Defined.

(** X23. The start location of a player is the position of the last
    [UnitBorn] event at loop 0 of a main building under the player's
    control, and the start direction is the clock value of that position
    seen from the center of the map; a player without such an event keeps
    zero for all three. Events at later loops and other unit types give no
    start location. *)
Theorem start_location (h : trackerevts.Host) (rep : trackerevts.InitData)
    (evts : list Event)
    (pm : gmap Z trackerevts.PlayerDesc) (tm : gmap string trackerevts.PlayerDesc)
    (pid : Z) (pd : trackerevts.PlayerDesc) :
  trackerevts.init h rep evts = Done (pm, tm) ->
  pm !! pid = Some pd ->
  match last (filter (fun e => givesStart h pid e = true) evts) with
  | Some e =>
      trackerevts.StartLocX pd = Int (fields e) ["x"] /\
      trackerevts.StartLocY pd = Int (fields e) ["y"] /\
      trackerevts.StartDir pd
      = trackerevts.clockOf h
          (trackerevts.int64
             (Int (fields e) ["y"] - Z.quot (trackerevts.MapSizeY rep) 2))
          (trackerevts.int64
             (Int (fields e) ["x"] - Z.quot (trackerevts.MapSizeX rep) 2))
  | None =>
      trackerevts.StartLocX pd = 0%Z /\ trackerevts.StartLocY pd = 0%Z /\
      trackerevts.StartDir pd = 0%Z
  end.
Proof.
  intros Hinit Hpd. apply init_Done in Hinit as [-> _].
  pose proof (descriptors_lookup h rep evts pid) as Hd. rewrite Hpd in Hd.
  destruct Hd as (e & _ & ->).
  destruct (finish_keeps h
              (Some (foldl (fun st e => if isSample h pid e
                                        then trackerevts.sampled st e else st)
                       {| trackerevts.samples := 0; trackerevts.unspents := 0;
                          trackerevts.incomes := 0; trackerevts.supCapped := 0 |}
                       evts))
              (foldl (fun pd e => if givesStart h pid e
                                  then trackerevts.located h rep pd e else pd)
                 (trackerevts.newPlayerDesc e) evts))
    as (_ & _ & _ & -> & -> & ->).
  destruct (foldl_located h rep pid (trackerevts.newPlayerDesc e) evts)
    as (_ & _ & _ & _ & _ & Hloc).
  by destruct (last (filter _ evts)).
Qed.

Lemma start_location_witness :
  exists pm tm pd,
    trackerevts.init TrackerCases.host TrackerCases.lobby TrackerCases.game
      = Done (pm, tm) /\
    pm !! 1 = Some pd /\
    trackerevts.StartLocX pd = 20%Z /\ trackerevts.StartLocY pd = 140%Z.
Proof.
  eexists _, _, _.
  split; [vm_compute; reflexivity|].
  split; [vm_compute; reflexivity|].
  pose proof (start_location TrackerCases.host TrackerCases.lobby
                TrackerCases.game _ _ 1 _
                ltac:(vm_compute; reflexivity) ltac:(vm_compute; reflexivity))
    as H.
  vm_compute in H. destruct H as (Hx & Hy & _). by split.
Defined.

Lemma foldl_sums (h : trackerevts.Host) pid st evts :
  Forall (fun e => isSample h pid e = true -> modest e) evts ->
  (Z.abs (trackerevts.unspents st) + Z.of_nat (length evts) * 2 ^ 32 < 2 ^ 63)%Z ->
  (Z.abs (trackerevts.incomes st) + Z.of_nat (length evts) * 2 ^ 32 < 2 ^ 63)%Z ->
  let st' := foldl (fun st e => if isSample h pid e
                                then trackerevts.sampled st e else st) st evts in
  trackerevts.unspents st'
  = (trackerevts.unspents st
     + sumZ (map unspentOf (filter (fun e => isSample h pid e = true) evts)))%Z /\
  trackerevts.incomes st'
  = (trackerevts.incomes st
     + sumZ (map incomeOf (filter (fun e => isSample h pid e = true) evts)))%Z.
Proof.
  intros Hall. revert st.
  induction Hall as [|e evts He _ IH]; intros st Hu Hi; cbn [foldl].
  - rewrite filter_nil. cbn. lia.
  - rewrite filter_cons. cbn zeta in IH. cbn [length] in Hu, Hi.
    destruct (isSample h pid e) eqn:Hg.
    + rewrite decide_True by done. cbn [map sumZ foldr].
      destruct (He eq_refl) as [Hue Hie].
      assert (trackerevts.unspents (trackerevts.sampled st e)
              = trackerevts.unspents st + unspentOf e)%Z as Hu1.
      { cbn [trackerevts.sampled trackerevts.unspents]. fold (unspentOf e).
        rewrite (int64_small (unspentOf e)) by lia. apply int64_small. lia. }
      assert (trackerevts.incomes (trackerevts.sampled st e)
              = trackerevts.incomes st + incomeOf e)%Z as Hi1.
      { cbn [trackerevts.sampled trackerevts.incomes]. fold (incomeOf e).
        rewrite (int64_small (incomeOf e)) by lia. apply int64_small. lia. }
      destruct (IH (trackerevts.sampled st e)) as [-> ->].
      * rewrite Hu1. lia.
      * rewrite Hi1. lia.
      * rewrite Hu1, Hi1. fold (sumZ (map unspentOf (filter (fun e => isSample h pid e = true) evts))).
        fold (sumZ (map incomeOf (filter (fun e => isSample h pid e = true) evts))).
        lia.
    + rewrite decide_False by (by intros [=]). apply IH; lia.
Qed.

Lemma sumZ_bound (f : Event -> Z) (l : list Event) :
  Forall (fun e => (- 2 ^ 32 <= f e < 2 ^ 32)%Z) l ->
  (Z.abs (sumZ (map f l)) <= Z.of_nat (length l) * 2 ^ 32)%Z.
Proof.
  induction 1 as [|e l He _ IH]; cbn [map sumZ foldr length]; [lia|].
  fold (sumZ (map f l)). lia.
Qed.

(** X24. The SQ of a player with samples is [calcSQ] applied to the integer
    averages of the unspent resources and of the income over the player's
    samples, minerals plus vespene each, the quotients truncated toward
    zero. The sums are 64 bits wide; values in the range of 32 bits and
    fewer than 2^30 events keep them from wrapping around. *)
Theorem sq_of_integer_averages (h : trackerevts.Host) (rep : trackerevts.InitData)
    (evts : list Event)
    (pm : gmap Z trackerevts.PlayerDesc) (tm : gmap string trackerevts.PlayerDesc)
    (pid : Z) (pd : trackerevts.PlayerDesc) :
  trackerevts.init h rep evts = Done (pm, tm) ->
  pm !! pid = Some pd ->
  (Z.of_nat (length evts) < 2 ^ 30)%Z ->
  Forall (fun e => isSample h pid e = true -> modest e) evts ->
  filter (fun e => isSample h pid e = true) evts <> [] ->
  trackerevts.SQ pd
  = trackerevts.calcSQ h
      (Z.quot (sumZ (map unspentOf (filter (fun e => isSample h pid e = true) evts)))
         (Z.of_nat (length (filter (fun e => isSample h pid e = true) evts))))
      (Z.quot (sumZ (map incomeOf (filter (fun e => isSample h pid e = true) evts)))
         (Z.of_nat (length (filter (fun e => isSample h pid e = true) evts)))).
Proof.
  intros Hinit Hpd Hlen Hmod Hne. apply init_Done in Hinit as [-> _].
  pose proof (descriptors_lookup h rep evts pid) as Hd. rewrite Hpd in Hd.
  destruct Hd as (e & _ & ->).
  set (samples := filter (fun e => isSample h pid e = true) evts) in *.
  destruct (foldl_sampled h pid
              {| trackerevts.samples := 0; trackerevts.unspents := 0;
                 trackerevts.incomes := 0; trackerevts.supCapped := 0 |} evts)
    as [Hs _]; cbn [trackerevts.samples trackerevts.supCapped]; try lia.
  destruct (foldl_sums h pid
              {| trackerevts.samples := 0; trackerevts.unspents := 0;
                 trackerevts.incomes := 0; trackerevts.supCapped := 0 |} evts Hmod)
    as [Hu Hi]; cbn [trackerevts.unspents trackerevts.incomes]; try lia.
  fold samples in Hs, Hu, Hi. rewrite Z.add_0_l in Hs, Hu, Hi.
  assert (0 < Z.of_nat (length samples))%Z as Hpos.
  { destruct samples; [done|]. cbn [length]. lia. }
  assert (Z.of_nat (length samples) <= Z.of_nat (length evts))%Z as Hn
    by apply inj_le, length_filter.
  assert (Forall modest samples) as Hms.
  { apply Forall_forall. intros x Hx. unfold samples in Hx.
    apply list_elem_of_filter in Hx as [Hsx Hin].
    rewrite Forall_forall in Hmod. by apply Hmod. }
  pose proof (sumZ_bound unspentOf samples) as Hub.
  pose proof (sumZ_bound incomeOf samples) as Hib.
  assert (Forall (fun e => (- 2 ^ 32 <= unspentOf e < 2 ^ 32)%Z) samples) as Hu32
    by (eapply Forall_impl; [exact Hms|]; by intros x [? ?]).
  assert (Forall (fun e => (- 2 ^ 32 <= incomeOf e < 2 ^ 32)%Z) samples) as Hi32
    by (eapply Forall_impl; [exact Hms|]; by intros x [? ?]).
  specialize (Hub Hu32). specialize (Hib Hi32).
  unfold trackerevts.finish. rewrite Hs.
  destruct (Z.eqb_spec (Z.of_nat (length samples)) 0) as [Hz|_]; [lia|].
  cbn [trackerevts.SQ]. rewrite Hu, Hi.
  assert (forall s n : Z, (0 < n)%Z -> (Z.abs s < 2 ^ 63)%Z ->
                          trackerevts.int64 (Z.quot s n) = Z.quot s n) as Hq.
  { intros s n Hn0 Hs0. apply int64_small.
    assert (Z.abs (Z.quot s n) <= Z.abs s)%Z; [|lia].
    rewrite <- Z.quot_abs by lia. rewrite (Z.abs_eq n) by lia.
    apply Z.quot_le_upper_bound; [lia|]. nia. }
  rewrite !Hq by lia. done.
Qed.

Lemma sq_of_integer_averages_witness :
  exists pm tm pd,
    trackerevts.init TrackerCases.host TrackerCases.lobby TrackerCases.game
      = Done (pm, tm) /\
    pm !! 1 = Some pd /\
    trackerevts.SQ pd
    = trackerevts.calcSQ TrackerCases.host (Z.quot (50 + 50 + 50) 3)
        (Z.quot (300 + 300 + 300) 3).
Proof.
  eexists _, _, _.
  split; [vm_compute; reflexivity|].
  split; [vm_compute; reflexivity|].
  pose proof (sq_of_integer_averages TrackerCases.host TrackerCases.lobby
                TrackerCases.game _ _ 1 _
                ltac:(vm_compute; reflexivity) ltac:(vm_compute; reflexivity)
                ltac:(vm_compute; reflexivity)) as H.
  apply H.
  - unfold modest. apply (bool_decide_unpack _). vm_compute. reflexivity.
  - vm_compute. discriminate.
Defined.

(** X25. Where [newRep] preprocesses the tracker events with [init], a
    session that carries tracker events holds descriptors whose slot ids all
    are indices into the lobby slots of the session's init data: a slot id
    outside the lobby makes [init] panic, and a panic leaves [newRep] without
    a session. *)
Theorem session_descriptors_in_lobby
    {ProtocolT DetailsT AttrEvtsT MetadataT : Type}
    (h : trackerevts.Host)
    (d : @repm.Decoder ProtocolT DetailsT trackerevts.InitData AttrEvtsT MetadataT
           (gmap Z trackerevts.PlayerDesc * gmap string trackerevts.PlayerDesc))
    (mpq : repm.MPQ) (game message : bool) (w w' : repm.World)
    (rep : @repm.Rep ProtocolT DetailsT trackerevts.InitData AttrEvtsT MetadataT
             (gmap Z trackerevts.PlayerDesc * gmap string trackerevts.PlayerDesc))
    (err : option repm.RepError) :
  (forall evts i, repm.trackerInit d evts i = initCall h evts i) ->
  visitsAll h ->
  repm.newRep d mpq game message true w = Done ((Some rep, err), w') ->
  exists i pm tm,
    repm.InitData rep = Some i /\
    repm.TrackerEvts rep = Some (pm, tm) /\
    forall pid pd, pm !! pid = Some pd -> inLobby i (trackerevts.SlotID pd).
Proof.
  intros Hinit Hperm Hnew.
  apply newRep_session in Hnew as (Hb & _ & _).
  destruct Hb as (userData & hd & p & bytesD & details & bytesI & initData & bytesA
                  & attrEvts & bytesM & _ & _ & _ & _ & _ & _ & _ & _ & _ & _ & _
                  & _ & _ & Ht & _ & _ & _ & _ & Hi & _).
  destruct Ht as (bytes & evts & [pm tm] & _ & _ & Hcall & Ht).
  exists initData, pm, tm. split; [done|]. split; [done|].
  rewrite Hinit in Hcall. unfold initCall in Hcall.
  destruct (trackerevts.init h initData evts) as [t|] eqn:Hrun; [|discriminate].
  injection Hcall as ->.
  assert (completes (trackerevts.init h initData evts)) as Hc by (by rewrite Hrun).
  pose proof (proj1 (init_completes h initData evts Hperm) Hc) as Hall.
  apply init_Done in Hrun as [-> _]. exact Hall.
Qed.

Lemma session_descriptors_in_lobby_witness :
  exists rep,
    repm.newRep TrackerCases.decoder SampleSession.fileArchive true true true
      SampleSession.fresh
    = Done ((Some rep, None), SampleSession.fresh) /\
    exists i pm tm,
      repm.InitData rep = Some i /\
      repm.TrackerEvts rep = Some (pm, tm) /\
      forall pid pd, pm !! pid = Some pd -> inLobby i (trackerevts.SlotID pd).
Proof.
  eexists. split; [vm_compute; reflexivity|].
  refine (session_descriptors_in_lobby TrackerCases.host TrackerCases.decoder
            SampleSession.fileArchive true true SampleSession.fresh
            SampleSession.fresh _ None _ _ _).
  - intros evts i. reflexivity.
  - intros l. reflexivity.
  - vm_compute. reflexivity.
Defined.

(** * Properties of fault containment *)

Section ContainFacts.
Import repm.
Context {ProtocolT DetailsT InitDataT AttrEvtsT MetadataT TrackerT : Type}.
Variable d : @Decoder ProtocolT DetailsT InitDataT AttrEvtsT MetadataT TrackerT.

Local Abbreviation Results2 :=
  (@Results ProtocolT DetailsT InitDataT AttrEvtsT MetadataT TrackerT).

(** *** How a panic and a value come out of a sequence of statements *)

Lemma sbind_Panicked {A B} (c : Step Results2 A) (k : A -> Step Results2 B) cm :
  sbind c k = Leave cm Panicked ->
  c = Leave cm Panicked \/ exists a, c = Go a /\ k a = Leave cm Panicked.
Proof.
  destruct c as [a|cm' exit]; cbn [sbind].
  - intros H. right. by exists a.
  - intros [= -> ->]. by left.
Qed.

Lemma sbind_Go_inv {A B} (c : Step Results2 A) (k : A -> Step Results2 B) b :
  sbind c k = Go b -> exists a, c = Go a /\ k a = Go b.
Proof. destruct c as [a|cm' exit]; cbn [sbind]; [by exists a|discriminate]. Qed.

Lemma call_Panicked {A} closeMPQ (c : Call A) cm :
  call (R := Results2) closeMPQ c = Leave cm Panicked -> c = Faults.
Proof. by destruct c. Qed.

Lemma readSection_Panicked closeMPQ mpq h cm :
  readSection (ProtocolT := ProtocolT) (DetailsT := DetailsT)
    (InitDataT := InitDataT) (AttrEvtsT := AttrEvtsT) (MetadataT := MetadataT)
    (TrackerT := TrackerT) closeMPQ mpq h = Leave cm Panicked ->
  fileOf mpq h = Faults.
Proof.
  unfold readSection, fileOf, call, ret, sbind.
  destruct (FileByHash mpq _ _ _) as [f|]; [|done].
  by destruct (failed f).
Qed.

Lemma readWithBackup_Panicked closeMPQ mpq h b cm :
  readWithBackup (ProtocolT := ProtocolT) (DetailsT := DetailsT)
    (InitDataT := InitDataT) (AttrEvtsT := AttrEvtsT) (MetadataT := MetadataT)
    (TrackerT := TrackerT) closeMPQ mpq h b = Leave cm Panicked ->
  fileOf mpq h = Faults \/ (unusable mpq h /\ fileOf mpq b = Faults).
Proof.
  unfold readWithBackup, unusable, fileOf, call, ret, sbind.
  destruct (FileByHash mpq h.1.1 h.1.2 h.2) as [f|]; [|by left].
  destruct (failed f || _) eqn:Hbad; [|discriminate].
  destruct (FileByHash mpq b.1.1 b.1.2 b.2) as [f'|].
  - by destruct (failed f' || _).
  - intros _. right. split; [|done]. exists f. split; [done|].
    apply orb_true_iff in Hbad as [Hf|Hl]; [by left|right].
    by apply Nat.eqb_eq.
Qed.

Lemma faults_readSection closeMPQ mpq h :
  fileOf mpq h = Faults ->
  readSection (ProtocolT := ProtocolT) (DetailsT := DetailsT)
    (InitDataT := InitDataT) (AttrEvtsT := AttrEvtsT) (MetadataT := MetadataT)
    (TrackerT := TrackerT) closeMPQ mpq h = Leave closeMPQ Panicked.
Proof. unfold readSection, fileOf. by intros ->. Qed.

Lemma faults_readWithBackup closeMPQ mpq h b :
  fileOf mpq h = Faults \/ (unusable mpq h /\ fileOf mpq b = Faults) ->
  readWithBackup (ProtocolT := ProtocolT) (DetailsT := DetailsT)
    (InitDataT := InitDataT) (AttrEvtsT := AttrEvtsT) (MetadataT := MetadataT)
    (TrackerT := TrackerT) closeMPQ mpq h b = Leave closeMPQ Panicked.
Proof.
  unfold readWithBackup, unusable, fileOf.
  intros [->|[(f & -> & Hbad) ->]]; [done|]. cbn [call sbind].
  assert (failed f || (len (data f) =? 0)%nat = true) as ->; [|done].
  destruct Hbad as [->| ->]; [done|]. apply orb_true_r.
Qed.

(** *** The stages of the body of [newRep], forwards *)

Lemma protocol_chosen {B} h p (k : option ProtocolT -> Step Results2 B) :
  chosenProtocol d h p ->
  sbind (call true (GetProtocol d (BaseBuild d h)))
    (fun p0 => sbind (match p0 with
                      | None => call true (GetProtocol d (MaxBaseBuild d))
                      | Some _ => Go p0
                      end) k)
  = k (Some p).
Proof.
  intros [Hp|[Hp1 Hp2]].
  - by rewrite Hp.
  - rewrite Hp1. cbn [call sbind]. by rewrite Hp2.
Qed.

Lemma backed_decoded {A B} mpq h b (decode : option bytes -> Call A) a
    (k : A -> Step Results2 B) :
  decodedBacked mpq h b decode a ->
  sbind (readWithBackup true mpq h b)
    (fun bytes => sbind (call true (decode bytes)) k)
  = k a.
Proof.
  intros (bytes & Hb & Hd).
  rewrite (heldOrBackup_readWithBackup true mpq h b bytes Hb). cbn [sbind].
  by rewrite Hd.
Qed.

Lemma backed_faults {A B} mpq h b (decode : option bytes -> Call A)
    (k : A -> Step Results2 B) :
  decodeBackedFaults mpq h b decode ->
  sbind (readWithBackup true mpq h b)
    (fun bytes => sbind (call true (decode bytes)) k)
  = Leave true Panicked.
Proof.
  intros [Hf|[Hf|(bytes & Hb & Hf)]].
  - by rewrite (faults_readWithBackup true mpq h b (or_introl Hf)).
  - by rewrite (faults_readWithBackup true mpq h b (or_intror Hf)).
  - rewrite (heldOrBackup_readWithBackup true mpq h b bytes Hb). cbn [sbind].
    by rewrite Hf.
Qed.

Lemma section_decoded {A B} mpq h (decode : option bytes -> Call A) :
  decoded mpq h decode ->
  exists a, forall k : A -> Step Results2 B,
    sbind (readSection true mpq h)
      (fun bytes => sbind (call true (decode bytes)) k)
    = k a.
Proof.
  intros (bytes & a & Hb & Hd). exists a. intros k.
  rewrite (reads_readSection true mpq h bytes Hb). cbn [sbind].
  by rewrite Hd.
Qed.

Lemma section_faults {A B} mpq h (decode : option bytes -> Call A)
    (k : A -> Step Results2 B) :
  decodeFaults mpq h decode ->
  sbind (readSection true mpq h)
    (fun bytes => sbind (call true (decode bytes)) k)
  = Leave true Panicked.
Proof.
  intros [Hf|(bytes & Hb & Hf)].
  - by rewrite (faults_readSection true mpq h Hf).
  - rewrite (reads_readSection true mpq h bytes Hb). cbn [sbind].
    by rewrite Hf.
Qed.

Lemma metadata_described {B} mpq :
  described d mpq ->
  exists metadata, forall k : option MetadataT -> Step Results2 B,
    sbind (readSection true mpq fileMetadata)
      (fun bytes =>
         sbind (match bytes with
                | Some b =>
                    sbind (call true (Unmarshal d b))
                      (fun md => match md with
                                 | None => ret true None (Some ErrInvalidRepFile)
                                 | Some md => Go (Some md)
                                 end)
                | None => Go None
                end) k)
    = k metadata.
Proof.
  intros [Hm|(b & md & Hm & Hmd)].
  - exists None. intros k. by rewrite (reads_readSection true mpq _ _ Hm).
  - exists (Some md). intros k.
    rewrite (reads_readSection true mpq _ _ Hm). cbn [sbind].
    by rewrite Hmd.
Qed.

Lemma metadata_faults {B} mpq (k : option MetadataT -> Step Results2 B) :
  metadataFaults d mpq ->
  sbind (readSection true mpq fileMetadata)
    (fun bytes =>
       sbind (match bytes with
              | Some b =>
                  sbind (call true (Unmarshal d b))
                    (fun md => match md with
                               | None => ret true None (Some ErrInvalidRepFile)
                               | Some md => Go (Some md)
                               end)
              | None => Go None
              end) k)
  = Leave true Panicked.
Proof.
  intros [Hf|(b & Hm & Hf)].
  - by rewrite (faults_readSection true mpq _ Hf).
  - rewrite (reads_readSection true mpq _ _ Hm). cbn [sbind].
    by rewrite Hf.
Qed.

Lemma stream_streamed {B} mpq asked h decode :
  streamed mpq asked h decode ->
  exists evts, forall k : list Event * bool -> Step Results2 B,
    sbind (if asked
           then sbind (readSection true mpq h)
                  (fun bytes => call true (decode bytes))
           else Go ([], false)) k
    = k evts.
Proof.
  unfold streamed. destruct asked.
  - intros H. destruct (H eq_refl) as (bytes & a & Hb & Hd). exists a. intros k.
    rewrite (reads_readSection true mpq h bytes Hb). cbn [sbind].
    by rewrite Hd.
  - intros _. by exists ([], false).
Qed.

Lemma stream_faults {B} mpq h decode
    (k : list Event * bool -> Step Results2 B) :
  decodeFaults mpq h decode ->
  sbind (sbind (readSection true mpq h)
           (fun bytes => call true (decode bytes))) k
  = Leave true Panicked.
Proof.
  intros [Hf|(bytes & Hb & Hf)].
  - by rewrite (faults_readSection true mpq h Hf).
  - rewrite (reads_readSection true mpq h bytes Hb). cbn [sbind].
    by rewrite Hf.
Qed.

Lemma tracker_faults {B} mpq p initData
    (k : option TrackerT * bool -> Step Results2 B) :
  trackerFaults d mpq p initData ->
  sbind (sbind (readSection true mpq fileTrackerEvts)
           (fun bytes =>
              sbind (call true (DecodeTrackerEvts d p bytes))
                (fun evts =>
                   sbind (call true (trackerInit d evts.1 initData))
                     (fun t => Go (Some t, evts.2))))) k
  = Leave true Panicked.
Proof.
  intros [[Hf|(bytes & Hb & Hf)]|(bytes & evts & Hb & He & Hf)].
  - by rewrite (faults_readSection true mpq _ Hf).
  - rewrite (reads_readSection true mpq _ bytes Hb). cbn [sbind].
    by rewrite Hf.
  - rewrite (reads_readSection true mpq _ bytes Hb). cbn [sbind].
    rewrite He. cbn [call sbind]. by rewrite Hf.
Qed.

(** A call that is reached and faults leaves the body by a panic, with
    [closeMPQ] set. *)
Lemma faultReached_body mpq game message tracker :
  faultReached d mpq game message tracker ->
  newRepBody d mpq game message tracker = Leave true Panicked.
Proof.
  unfold newRepBody. cbv zeta.
  intros [Hu|[(userData & Hu & Hh)|(h & (userData & Hu & Hh) & H)]].
  { by rewrite Hu. }
  { rewrite Hu. cbn [call sbind]. by rewrite Hh. }
  rewrite Hu. cbn [call sbind]. rewrite Hh. cbn [call sbind].
  destruct H as [[Hp|[Hp1 Hp2]]|(p & Hp & H)].
  { by rewrite Hp. }
  { rewrite Hp1. cbn [call sbind]. by rewrite Hp2. }
  rewrite (protocol_chosen h p _ Hp).
  destruct H as [Hf|[[details Hd] H]].
  { by rewrite (backed_faults mpq fileDetails fileDetailsBackup _ _ Hf). }
  rewrite (backed_decoded mpq fileDetails fileDetailsBackup _ details _ Hd).
  destruct H as [Hf|(initData & Hi & H)].
  { by rewrite (backed_faults mpq fileInitData fileInitDataBackup _ _ Hf). }
  rewrite (backed_decoded mpq fileInitData fileInitDataBackup _ initData _ Hi).
  destruct H as [Hf|[Ha H]].
  { by rewrite (section_faults mpq fileAttributes _ _ Hf). }
  destruct (section_decoded (B := Empty_set) mpq fileAttributes _ Ha)
    as [attrEvts ->].
  destruct H as [Hf|[Hm H]].
  { by rewrite (metadata_faults mpq _ Hf). }
  destruct (metadata_described (B := Empty_set) mpq Hm) as [metadata ->].
  destruct H as [[-> Hf]|[Hg H]].
  { by rewrite (stream_faults mpq fileGameEvts _ _ Hf). }
  destruct (stream_streamed (B := Empty_set) mpq game fileGameEvts _ Hg)
    as [gameEvts ->].
  destruct H as [[-> Hf]|(Hs & -> & Hf)].
  { by rewrite (stream_faults mpq fileMessageEvts _ _ Hf). }
  destruct (stream_streamed (B := Empty_set) mpq message fileMessageEvts _ Hs)
    as [messageEvts ->].
  by rewrite (tracker_faults mpq p initData _ Hf).
Qed.

(** A panic of the body comes from a call that was reached and faulted. *)
Lemma body_faultReached mpq game message tracker cm :
  newRepBody d mpq game message tracker = Leave cm Panicked ->
  faultReached d mpq game message tracker.
Proof.
  unfold newRepBody, faultReached. cbv zeta. intros H.
  apply sbind_Panicked in H as [H|(userData & Eu & H)].
  { left. by apply call_Panicked in H. }
  apply call_Go in Eu.
  apply sbind_Panicked in H as [H|(header & Eh & H)].
  { right; left. apply call_Panicked in H. by exists userData. }
  apply call_Go in Eh.
  destruct header as [h|]; [|discriminate].
  right; right. exists h. split; [by exists userData|].
  apply sbind_Panicked in H as [H|(p0 & Ep0 & H)].
  { left; left. by apply call_Panicked in H. }
  apply call_Go in Ep0.
  apply sbind_Panicked in H as [H|(p1 & Ep1 & H)].
  { destruct p0 as [p0|]; [discriminate|].
    apply call_Panicked in H. left; right. by split. }
  destruct p1 as [p|]; [|discriminate].
  assert (chosenProtocol d h p) as Hp.
  { destruct p0 as [p0|].
    - injection Ep1 as ->. by left.
    - apply call_Go in Ep1. by right. }
  right. exists p. split; [done|]. clear Ep0 Ep1 p0.
  unfold sectionsFault.
  (* details *)
  apply sbind_Panicked in H as [H|(bytesD & Ed & H)].
  { left. apply readWithBackup_Panicked in H as [H|H]; [by left|by right; left]. }
  apply readWithBackup_Go in Ed.
  apply sbind_Panicked in H as [H|(details & Edd & H)].
  { left. right; right. apply call_Panicked in H. by exists bytesD. }
  apply call_Go in Edd.
  right. split; [exists details, bytesD; by split|].
  (* init data *)
  apply sbind_Panicked in H as [H|(bytesI & Ei & H)].
  { left. apply readWithBackup_Panicked in H as [H|H]; [by left|by right; left]. }
  apply readWithBackup_Go in Ei.
  apply sbind_Panicked in H as [H|(initData & Eid & H)].
  { left. right; right. apply call_Panicked in H. by exists bytesI. }
  apply call_Go in Eid.
  right. exists initData. split; [exists bytesI; by split|].
  (* attributes *)
  apply sbind_Panicked in H as [H|(bytesA & Ea & H)].
  { left. left. by apply readSection_Panicked in H. }
  apply readSection_Go in Ea.
  apply sbind_Panicked in H as [H|(attrEvts & Ead & H)].
  { left. right. apply call_Panicked in H. by exists bytesA. }
  apply call_Go in Ead.
  right. split; [exists bytesA, attrEvts; by split|].
  (* metadata *)
  apply sbind_Panicked in H as [H|(bytesM & Em & H)].
  { left. left. by apply readSection_Panicked in H. }
  apply readSection_Go in Em.
  apply sbind_Panicked in H as [H|(metadata & Emd & H)].
  { left. right. destruct bytesM as [b|]; [|discriminate].
    apply sbind_Panicked in H as [H|(md & Emd & H)].
    - apply call_Panicked in H. by exists b.
    - by destruct md. }
  right. split.
  { destruct bytesM as [b|]; [|by left]. right.
    apply sbind_Go_inv in Emd as (md & Emd & Hmd). apply call_Go in Emd.
    destruct md as [md|]; [|discriminate]. by exists b, md. }
  clear Emd.
  unfold streamsFault.
  (* game events *)
  apply sbind_Panicked in H as [H|(gameEvts & Eg & H)].
  { left. destruct game; [|discriminate]. split; [done|].
    apply sbind_Panicked in H as [H|(bytes & Eb & H)].
    - left. by apply readSection_Panicked in H.
    - right. apply readSection_Go in Eb. apply call_Panicked in H.
      by exists bytes. }
  right. split.
  { intros ->. apply sbind_Go_inv in Eg as (bytes & Eb & Eg).
    apply readSection_Go in Eb. apply call_Go in Eg. by exists bytes, gameEvts. }
  clear Eg.
  (* message events *)
  apply sbind_Panicked in H as [H|(messageEvts & Es & H)].
  { left. destruct message; [|discriminate]. split; [done|].
    apply sbind_Panicked in H as [H|(bytes & Eb & H)].
    - left. by apply readSection_Panicked in H.
    - right. apply readSection_Go in Eb. apply call_Panicked in H.
      by exists bytes. }
  right. split.
  { intros ->. apply sbind_Go_inv in Es as (bytes & Eb & Es).
    apply readSection_Go in Eb. apply call_Go in Es.
    by exists bytes, messageEvts. }
  clear Es.
  (* tracker events *)
  apply sbind_Panicked in H as [H|(trackerEvts & Et & H)]; [|discriminate].
  destruct tracker; [|discriminate]. split; [done|].
  unfold trackerFaults, decodeFaults.
  apply sbind_Panicked in H as [H|(bytes & Eb & H)].
  { left. left. by apply readSection_Panicked in H. }
  apply readSection_Go in Eb.
  apply sbind_Panicked in H as [H|(evts & Ee & H)].
  { left. right. apply call_Panicked in H. by exists bytes. }
  apply call_Go in Ee.
  apply sbind_Panicked in H as [H|(t & Et & H)]; [|discriminate].
  apply call_Panicked in H. right. by exists bytes, evts.
Qed.

(** With a [Close] that returns, the deferred function is the one of
    [newRep]. *)
Lemma newRepWith_returning closeFaults mpq game message tracker w :
  closeFaults (closes w) = false ->
  match newRep d mpq game message tracker w with
  | Done r => newRepWith d closeFaults mpq game message tracker w = Returns r
  | Panic _ => False
  end.
Proof.
  intros Hc. unfold newRepWith, newRep, deferredWith, deferred.
  destruct (newRepBody d mpq game message tracker) as [[]|cm exit].
  rewrite Hc, andb_false_r. by destruct exit.
Qed.

End ContainFacts.

(** C4, as stated, fails: a runtime fault can reach the caller of the
    construction. The deferred function of [newRep] calls [m.Close()]
    before [recover()], so a fault of [Close] leaves it unrecovered: where
    [init] faults the caller gets the fault of [Close] and not
    [ErrDecoding], and where the user data holds no header it gets the fault
    and not [ErrInvalidRepFile]. [mpq.New] and [mpq.NewFromFile] are called
    by the wrappers outside [newRep], where nothing recovers a fault. *)
Lemma fault_escapes_construction :
  newRepWith FaultCases.faultsInInit FaultCases.closeFaulting
    SampleSession.fileArchive true true true SampleSession.fresh
  = repm.Faults /\
  newRepWith SampleSession.headerless FaultCases.closeFaulting
    SampleSession.fileArchive true true true SampleSession.fresh
  = repm.Faults /\
  NewEvtsWith SampleSession.plain FaultCases.closeReturning repm.Faults
    true true true SampleSession.fresh
  = repm.Faults /\
  NewFromFileEvtsWith SampleSession.plain FaultCases.closeReturning repm.Faults
    true true true SampleSession.fresh
  = repm.Faults.
Proof. repeat split; vm_compute; reflexivity. Qed.

(** C4, amended. A fault of any call of the body of [newRep] that is
    reached (reading the user data, decoding the header, looking up the
    protocol, reading a section or its backup, decoding the details, the
    init data, the attributes, the metadata and the event streams asked
    for, [init]) is turned into [ErrDecoding] when the [Close] of the
    deferred function returns: [newRep] then returns no session and
    [ErrDecoding], the archive closed once; and [ErrDecoding] is returned
    only after such a fault. User data without a header gives
    [ErrInvalidRepFile], and so does an archive that the reader turns down
    with an error, in both wrappers. The faults that reach the caller are
    those of [Close] in the deferred function, on every path but the one that
    returns the session, and those of [mpq.New] and [mpq.NewFromFile]. *)
Theorem decoding_faults_contained
    {ProtocolT DetailsT InitDataT AttrEvtsT MetadataT TrackerT : Type}
    (d : @repm.Decoder ProtocolT DetailsT InitDataT AttrEvtsT MetadataT TrackerT)
    (closeFaults : nat -> bool) (mpq : repm.MPQ)
    (opening : repm.Call (option repm.MPQ))
    (game message tracker : bool) (w : repm.World) :
  (faultReached d mpq game message tracker ->
   if closeFaults (repm.closes w)
   then newRepWith d closeFaults mpq game message tracker w = repm.Faults
   else newRepWith d closeFaults mpq game message tracker w
        = repm.Returns ((None, Some repm.ErrDecoding),
                        {| repm.closes := S (repm.closes w) |})) /\
  (forall parsedRep w',
     newRepWith d closeFaults mpq game message tracker w
     = repm.Returns ((parsedRep, Some repm.ErrDecoding), w') ->
     faultReached d mpq game message tracker /\
     closeFaults (repm.closes w) = false) /\
  (forall userData,
     repm.UserData mpq = repm.Returns userData ->
     repm.DecodeHeader d userData = repm.Returns None ->
     if closeFaults (repm.closes w)
     then newRepWith d closeFaults mpq game message tracker w = repm.Faults
     else newRepWith d closeFaults mpq game message tracker w
          = repm.Returns ((None, Some repm.ErrInvalidRepFile),
                          {| repm.closes := S (repm.closes w) |})) /\
  (newRepWith d closeFaults mpq game message tracker w = repm.Faults ->
   closeFaults (repm.closes w) = true) /\
  (closeFaults (repm.closes w) = true ->
   newRepWith d closeFaults mpq game message tracker w = repm.Faults \/
   exists rep,
     newRepWith d closeFaults mpq game message tracker w
     = repm.Returns ((Some rep, None), w)) /\
  (NewEvtsWith d closeFaults opening game message tracker w = repm.Faults <->
   opening = repm.Faults \/
   exists mpq',
     opening = repm.Returns (Some mpq') /\
     newRepWith d closeFaults mpq' game message tracker w = repm.Faults) /\
  (NewFromFileEvtsWith d closeFaults opening game message tracker w = repm.Faults <->
   opening = repm.Faults \/
   exists mpq',
     opening = repm.Returns (Some mpq') /\
     newRepWith d closeFaults mpq' game message tracker w = repm.Faults) /\
  (opening = repm.Returns None ->
   NewEvtsWith d closeFaults opening game message tracker w
   = repm.Returns ((None, Some repm.ErrInvalidRepFile), w) /\
   NewFromFileEvtsWith d closeFaults opening game message tracker w
   = repm.Returns ((None, Some repm.ErrInvalidRepFile), w)).
Proof.
  destruct (newRepBody_exits d mpq game message tracker)
    as (cm & exit & Hbody & Hwell).
  split; [|split; [|split; [|split; [|split; [|split; [|split]]]]]].
  - intros Hf. unfold newRepWith, deferredWith.
    rewrite (faultReached_body d mpq game message tracker Hf). cbn [andb].
    by destruct (closeFaults (repm.closes w)).
  - intros parsedRep w'. unfold newRepWith, deferredWith. rewrite Hbody.
    destruct (cm && closeFaults (repm.closes w)) eqn:Hc; [discriminate|].
    destruct exit as [[[rep|] [e|]]|]; cbn in Hwell; try done.
    + destruct Hwell as [_ Hne]. intros [= _ -> _]. done.
    + subst cm. cbn [andb] in Hc. intros _. split; [|done].
      by apply (body_faultReached d mpq game message tracker true).
  - intros userData Hu Hh. unfold newRepWith, deferredWith, repm.newRepBody.
    rewrite Hu. cbn [repm.call repm.sbind]. rewrite Hh.
    cbn [repm.call repm.sbind repm.ret andb].
    by destruct (closeFaults (repm.closes w)).
  - unfold newRepWith, deferredWith. rewrite Hbody.
    destruct cm; cbn [andb].
    + destruct (closeFaults (repm.closes w)); [done|]. by destruct exit.
    + by destruct exit.
  - intros Hc. unfold newRepWith, deferredWith. rewrite Hbody, Hc.
    destruct cm; cbn [andb]; [by left|]. right.
    destruct exit as [[[rep|] [e|]]|]; cbn in Hwell; try done;
      try (by destruct Hwell).
    by exists rep.
  - unfold NewEvtsWith. destruct opening as [[mpq'|]|].
    + split; [intros H; right; by exists mpq'|].
      intros [H|(m' & [= <-] & H)]; [discriminate|done].
    + split; [discriminate|]. by intros [H|(m' & H & _)].
    + split; [by left|done].
  - unfold NewFromFileEvtsWith. destruct opening as [[mpq'|]|].
    + split; [intros H; right; by exists mpq'|].
      intros [H|(m' & [= <-] & H)]; [discriminate|done].
    + split; [discriminate|]. by intros [H|(m' & H & _)].
    + split; [by left|done].
  - by intros ->.
Qed.

Lemma decoding_faults_contained_witness :
  newRepWith FaultCases.faultsInInit FaultCases.closeReturning
    SampleSession.fileArchive true true true SampleSession.fresh
  = repm.Returns ((None, Some repm.ErrDecoding), {| repm.closes := 1 |}) /\
  newRepWith SampleSession.headerless FaultCases.closeReturning
    SampleSession.fileArchive true true true SampleSession.fresh
  = repm.Returns ((None, Some repm.ErrInvalidRepFile), {| repm.closes := 1 |}).
Proof.
  split.
  - refine (proj1 (decoding_faults_contained FaultCases.faultsInInit
                     FaultCases.closeReturning SampleSession.fileArchive
                     repm.Faults true true true SampleSession.fresh) _).
    right; right. exists []. split; [by exists []|].
    right. exists tt. split; [right; by split|].
    right. split.
    { exists tt, (Some [Byte.x7b; Byte.x7d]). split; [|done].
      left. split; [|done]. by eexists. }
    right. exists tt. split.
    { exists (Some [Byte.x7b; Byte.x7d]). split; [|done].
      left. split; [|done]. by eexists. }
    right. split.
    { exists (Some [Byte.x7b; Byte.x7d]), tt. split; [by eexists|done]. }
    right. split.
    { right. exists [Byte.x7b; Byte.x7d], tt. split; [by eexists|done]. }
    right. split.
    { intros _. exists (Some [Byte.x7b; Byte.x7d]), ([], true).
      split; [by eexists|done]. }
    right. split.
    { intros _. exists (Some [Byte.x7b; Byte.x7d]), ([], false).
      split; [by eexists|done]. }
    split; [done|]. right.
    exists (Some [Byte.x7b; Byte.x7d]), ([], false).
    split; [by eexists|]. by split.
  - exact (proj1 (proj2 (proj2 (decoding_faults_contained SampleSession.headerless
                     FaultCases.closeReturning SampleSession.fileArchive
                     repm.Faults true true true SampleSession.fresh)))
             [] eq_refl eq_refl).
Defined.

(** * Properties of the floating-point functions of the tracker events *)

Section ClockFacts.
Import QArith Floats trackerfloat.

Lemma raise_more fuel fuel' angle angle' :
  raise fuel angle = Some angle' -> (fuel <= fuel')%nat ->
  raise fuel' angle = Some angle'.
Proof.
  revert fuel' angle. induction fuel as [|fuel IH]; intros fuel' angle.
  - destruct fuel'; cbn; destruct (angle <? 0)%float; try done.
  - destruct fuel' as [|fuel']; [lia|]. cbn.
    destruct (angle <? 0)%float; [|done].
    intros H Hle. apply IH; [done|lia].
Qed.

Lemma lower_more fuel fuel' angle angle' :
  lower fuel angle = Some angle' -> (fuel <= fuel')%nat ->
  lower fuel' angle = Some angle'.
Proof.
  revert fuel' angle. induction fuel as [|fuel IH]; intros fuel' angle.
  - destruct fuel'; cbn; destruct (_ <=? angle)%float; try done.
  - destruct fuel' as [|fuel']; [lia|]. cbn.
    destruct (_ <=? angle)%float; [|done].
    intros H Hle. apply IH; [done|lia].
Qed.

(** A run that gives a value gives the same value with more fuel. *)
Lemma angleToClock_more fuel fuel' angle hour :
  angleToClock fuel angle = Value hour -> (fuel <= fuel')%nat ->
  angleToClock fuel' angle = Value hour.
Proof.
  unfold angleToClock. intros H Hle.
  destruct (raise fuel _) as [a1|] eqn:Hr; [|discriminate].
  rewrite (raise_more _ _ _ _ Hr Hle).
  destruct (lower fuel a1) as [a2|] eqn:Hl; [|discriminate].
  by rewrite (lower_more _ _ _ _ Hl Hle).
Qed.

(** A loop whose step leaves the angle as it is never ends. *)
Lemma raise_stalls fuel angle :
  (angle <? 0)%float = true ->
  (angle + float64.const (oneHour * 12)%Q)%float = angle ->
  raise fuel angle = None.
Proof.
  intros Hlt Hsame. induction fuel as [|fuel IH]; cbn; rewrite Hlt; [done|].
  by rewrite Hsame.
Qed.

Lemma lower_stalls fuel angle :
  (float64.const (oneHour * 12)%Q <=? angle)%float = true ->
  (angle - float64.const (oneHour * 12)%Q)%float = angle ->
  lower fuel angle = None.
Proof.
  intros Hle Hsame. induction fuel as [|fuel IH]; cbn; rewrite Hle; [done|].
  by rewrite Hsame.
Qed.

(** The angles [k / 256] from -4 to 4, checked one by one. *)
Lemma grid_checked :
  forallb (fun k => match angleToClock 1 (gridAngle k) with
                    | Value hour => (1 <=? hour)%Z && (hour <=? 12)%Z
                    | _ => false
                    end) (seqZ (-1024) 2049) = true.
Proof. vm_compute. reflexivity. Qed.

End ClockFacts.






